(** * Execution-graph structuring and flattening

    A shallow embedding of the two converters of the viewer:
    - [dot2mr]: dependency graph to Sequence/Parallel structure
      ([generate_component_structure], [main]);
    - [mr2dot]: Sequence/Parallel structure to dependency graph
      ([parse_custom_format], [convert_to_dot] and their helpers), as the
      values they compute, and in module [bounded] with the recursion limit of
      the interpreter, which ends a call on a tree that is nested too deep.

    The graph container the converters work on (a directed graph with
    insertion-ordered nodes and adjacency) is modelled in module [nx]. *)

From stdpp Require Import base list relations gmap strings sorting.
From Stdlib Require Import ZArith Lia.

Local Open Scope string_scope.
Local Open Scope list_scope.
Local Set Warnings "-register-all".
Local Set Warnings "-clear-no-such-hyp".

(** ** Outcomes of a Python call *)

Inductive exn :=
  | ValueError       (* "Graph contains a cycle, ..." *)
  | NetworkXUnfeasible
  | RuntimeError
  | TypeError
  | RecursionError.  (* "maximum recursion depth exceeded" *)

Inductive outcome (A : Type) :=
  | Returned (a : A)
  | Raised (e : exn)
  | Diverged.
Arguments Returned {A} a.
Arguments Raised {A} e.
Arguments Diverged {A}.

Global Instance exn_eq_dec : EqDecision exn.
Proof. solve_decision. Defined.

Global Instance outcome_ret : MRet outcome := λ A a, Returned a.
Global Instance outcome_bind : MBind outcome := λ A B f m,
  match m with
  | Returned a => f a
  | Raised e => Raised e
  | Diverged => Diverged
  end.

(** A [for x in l: body] loop over a state [S]; an exception leaves the loop. *)
Definition for_each {S B : Type} (body : S → B → outcome S) : list B → S → outcome S :=
  fix go l s :=
    match l with
    | [] => Returned s
    | x :: l' => s' ← body s x; go l' s'
    end.

(** ** Python strings

    A text is a string of characters with a code below 256; the methods of
    [str] that the converters call are given on such strings. *)

Module py.

Definition code (c : Ascii.ascii) : nat := Ascii.nat_of_ascii c.

(** [c.isspace()], what [strip] removes. *)
Definition isspace (c : Ascii.ascii) : bool :=
  bool_decide (code c ∈ [9; 10; 11; 12; 13; 28; 29; 30; 31; 32; 133; 160]).

(** The line boundaries of [splitlines]. *)
Definition is_line_boundary (c : Ascii.ascii) : bool :=
  bool_decide (code c ∈ [10; 11; 12; 13; 28; 29; 30; 133]).

Definition nl : string := String (Ascii.ascii_of_nat 10) "".

Fixpoint lstrip (s : string) : string :=
  match s with
  | String c s' => if isspace c then lstrip s' else s
  | EmptyString => EmptyString
  end.

Fixpoint rstrip (s : string) : string :=
  match s with
  | EmptyString => EmptyString
  | String c s' =>
      match rstrip s' with
      | EmptyString => if isspace c then EmptyString else String c EmptyString
      | r => String c r
      end
  end.

(** [s.strip()] *)
Definition strip (s : string) : string := rstrip (lstrip s).

(** [s.rstrip(ch)] for a single character [ch]. *)
Fixpoint rstrip_char (ch : Ascii.ascii) (s : string) : string :=
  match s with
  | EmptyString => EmptyString
  | String c s' =>
      match rstrip_char ch s' with
      | EmptyString => if decide (c = ch) then EmptyString else String c EmptyString
      | r => String c r
      end
  end.

(** [s.splitlines()], with [cur] the line being read; a carriage return
    followed by a line feed is one boundary. *)
Fixpoint splitlines_from (cur s : string) : list string :=
  match s with
  | EmptyString => if decide (cur = EmptyString) then [] else [cur]
  | String c s' =>
      if is_line_boundary c
      then cur ::
           match s' with
           | String c' s'' =>
               if decide (code c = 13 ∧ code c' = 10)
               then splitlines_from EmptyString s''
               else splitlines_from EmptyString s'
           | EmptyString => splitlines_from EmptyString s'
           end
      else splitlines_from (cur +:+ String c EmptyString) s'
  end.

Definition splitlines (s : string) : list string := splitlines_from EmptyString s.

(** [s.startswith(prefix)] *)
Definition startswith (prefix s : string) : bool := String.prefix prefix s.

(** [sep.join(l)] *)
Definition join (sep : string) (l : list string) : string := String.concat sep l.

(** [s * n] *)
Fixpoint repeat (s : string) (n : nat) : string :=
  match n with
  | O => EmptyString
  | S n' => s +:+ repeat s n'
  end.

End py.

(** ** The graph container *)

Module nx.

Record DiGraph := { nodes : list string; edges : list (string * string) }.

(** Adjacency is kept in insertion order. *)
Definition successors (G : DiGraph) (n : string) : list string :=
  (filter (λ e, e.1 = n) (edges G)).*2.
Definition predecessors (G : DiGraph) (n : string) : list string :=
  (filter (λ e, e.2 = n) (edges G)).*1.
Definition in_degree (G : DiGraph) (n : string) : Z :=
  Z.of_nat (length (predecessors G n)).

(** What the container guarantees of a graph it has built. *)
Definition graph_wf (G : DiGraph) : Prop :=
  NoDup (nodes G) ∧ NoDup (edges G) ∧
  Forall (λ e, e.1 ∈ nodes G ∧ e.2 ∈ nodes G) (edges G).

Global Instance graph_wf_dec G : Decision (graph_wf G).
Proof. unfold graph_wf. apply _. Defined.

Definition edge (G : DiGraph) (u v : string) : Prop := (u, v) ∈ edges G.
Definition reaches (G : DiGraph) : relation string := tc (edge G).
Definition acyclic (G : DiGraph) : Prop := ∀ v, ¬ reaches G v v.

(** [G.subgraph(c)]: the nodes of [c] and the edges among them, listed in
    the order of [G] (a view of a small part of a graph can list them in the
    order of the set [c] instead). *)
Definition subgraph (G : DiGraph) (c : gset string) : DiGraph :=
  {| nodes := filter (λ n, n ∈ c) (nodes G);
     edges := filter (λ e, e.1 ∈ c ∧ e.2 ∈ c) (edges G) |}.

(** *** [topological_generations] *)

(** [indegree_map[child] -= 1], and the move to [zero_indegree] at 0. *)
Definition visit_child (st : gmap string Z * list string) (child : string)
  : outcome (gmap string Z * list string) :=
  let '(indegree_map, zero_indegree) := st in
  match indegree_map !! child with
  | None => Raised RuntimeError
  | Some d =>
      if decide (d - 1 = 0)%Z
      then Returned (delete child indegree_map, zero_indegree ++ [child])
      else Returned (<[child := (d - 1)%Z]> indegree_map, zero_indegree)
  end.

Definition visit_node (G : DiGraph) (st : gmap string Z * list string) (node : string)
  : outcome (gmap string Z * list string) :=
  for_each visit_child (successors G node) st.

Fixpoint generations_loop (fuel : nat) (G : DiGraph)
    (indegree_map : gmap string Z) (zero_indegree : list string)
  : outcome (list (list string)) :=
  match zero_indegree with
  | [] =>
      if decide (indegree_map = ∅) then Returned [] else Raised NetworkXUnfeasible
  | _ =>
      match fuel with
      | O => Diverged
      | S fuel' =>
          let this_generation := zero_indegree in
          '(indegree_map', zero_indegree') ←
            for_each (visit_node G) this_generation (indegree_map, []);
          rest ← generations_loop fuel' G indegree_map' zero_indegree';
          Returned (this_generation :: rest)
      end
  end.

Definition topological_generations (G : DiGraph) : outcome (list (list string)) :=
  let indegree_map : gmap string Z :=
    list_to_map ((λ v, (v, in_degree G v)) <$>
                 filter (λ v, (0 < in_degree G v)%Z) (nodes G)) in
  let zero_indegree := filter (λ v, in_degree G v = 0%Z) (nodes G) in
  generations_loop (S (length (nodes G))) G indegree_map zero_indegree.

(** *** [weakly_connected_components] *)

Definition neighbours (G : DiGraph) (v : string) : list string :=
  successors G v ++ predecessors G v.

(** One level of [_plain_bfs]. *)
Definition bfs_level (G : DiGraph) (seen : gset string) (thislevel : list string)
  : gset string * list string :=
  foldl (λ '(seen, nextlevel) w,
           if decide (w ∈ seen) then (seen, nextlevel)
           else ({[w]} ∪ seen, nextlevel ++ [w]))
        (seen, []) (thislevel ≫= neighbours G).

Fixpoint plain_bfs (fuel : nat) (G : DiGraph) (seen : gset string)
    (nextlevel : list string) : gset string :=
  match nextlevel, fuel with
  | [], _ | _, O => seen
  | _, S fuel' =>
      let '(seen', nextlevel') := bfs_level G seen nextlevel in
      plain_bfs fuel' G seen' nextlevel'
  end.

Definition weakly_connected_components (G : DiGraph) : list (gset string) :=
  (foldl (λ '(seen, comps) v,
            if decide (v ∈ seen) then (seen, comps)
            else let c := plain_bfs (length (nodes G)) G {[v]} [v] in
                 (seen ∪ c, comps ++ [c]))
         ((∅ : gset string), []) (nodes G)).2.

End nx.

(** ** The structure tree *)

Inductive tree :=
  | Node (name : string)
  | Sequence (children : list tree)
  | Parallel (children : list tree).

(** ** dot2mr: graph to structure *)

Module dot2mr.
Import nx.

(** The [while True] loop of [find_direct_sequence_paths]: the nodes
    appended to [path] after [current]. *)
Fixpoint follow (fuel : nat) (graph : DiGraph) (current : string)
  : outcome (list string) :=
  match successors graph current with
  | [next_node] =>
      match predecessors graph next_node with
      | [_] =>
          match fuel with
          | O => Diverged
          | S fuel' => rest ← follow fuel' graph next_node;
                       Returned (next_node :: rest)
          end
      | _ => Returned []
      end
  | _ => Returned []
  end.

Definition find_direct_sequence_paths (graph : DiGraph) (start_nodes : list string)
  : outcome (gmap string (list string)) :=
  for_each (λ (sequence_paths : gmap string (list string)) node,
              rest ← follow (length (nodes graph)) graph node;
              let path := node :: rest in
              if decide (1 < length path)
              then Returned (<[node := path]> sequence_paths)
              else Returned sequence_paths)
           start_nodes ∅.

(** The loop state: [processed_nodes] and the list a branch appends to
    ([structure] or [parallel_children]). *)
Definition state : Type := gset string * list tree.

(** "Check if this node starts a sequence", as both branches do it. *)
Definition emit_node (graph : DiGraph) (st : state) (node : string) : outcome state :=
  let '(processed_nodes, out) := st in
  sequence_paths ← find_direct_sequence_paths graph [node];
  match sequence_paths !! node with
  | Some path =>
      let sequence_nodes := Node <$> path in
      Returned (processed_nodes ∪ list_to_set path, out ++ [Sequence sequence_nodes])
  | None =>
      Returned ({[node]} ∪ processed_nodes, out ++ [Node node])
  end.

(** [successor_groups]: a dict in insertion order. *)
Fixpoint group_add (key : list string) (node : string)
    (groups : list (list string * list string)) : list (list string * list string) :=
  match groups with
  | [] => [(key, [node])]
  | (k, ns) :: groups' =>
      if decide (k = key) then (k, ns ++ [node]) :: groups'
      else (k, ns) :: group_add key node groups'
  end.

Definition successor_groups (graph : DiGraph) (current_layer : list string)
  : list (list string * list string) :=
  foldl (λ groups node,
           let key := merge_sort String.le (successors graph node) in
           group_add key node groups)
        [] current_layer.

Definition emit_group (graph : DiGraph) (st : state)
    (group : list string * list string) : outcome state :=
  let '(_, nodes) := group in
  match nodes with
  | [node] => emit_node graph st node
  | _ =>
      let '(processed_nodes, parallel_children) := st in
      Returned (processed_nodes ∪ list_to_set nodes,
                parallel_children ++ (Node <$> nodes))
  end.

Definition process_layer (graph : DiGraph) (n_layers : nat) (st : state)
    (il : nat * list string) : outcome state :=
  let '(i, layer) := il in
  let '(processed_nodes, structure) := st in
  let current_layer := filter (λ node, node ∉ processed_nodes) layer in
  match current_layer with
  | [] => Returned st
  | node :: _ =>
      if decide (length current_layer = 1 ∧ i < n_layers - 1)
      then emit_node graph st node
      else
        '(processed_nodes', parallel_children) ←
          for_each (emit_group graph) (successor_groups graph current_layer)
                   (processed_nodes, []);
        if decide (1 < length parallel_children)
        then Returned (processed_nodes', structure ++ [Parallel parallel_children])
        else
          match parallel_children with
          | [child] => Returned (processed_nodes', structure ++ [child])
          | _ => Returned (processed_nodes', structure)
          end
  end.

Definition generate_component_structure (component_subgraph : DiGraph)
  : outcome (option tree) :=
  match topological_generations component_subgraph with
  | Raised NetworkXUnfeasible => Raised ValueError
  | Raised e => Raised e
  | Diverged => Diverged
  | Returned layers =>
      match layers with
      | [] => Returned None
      | [[node_name]] => Returned (Some (Node node_name))
      | _ =>
          '(_, structure) ←
            for_each (process_layer component_subgraph (length layers))
                     (imap (λ i layer, (i, layer)) layers) (∅, []);
          match structure with
          | [item] => Returned (Some item)
          | _ => Returned (Some (Sequence structure))
          end
      end
  end.

(** [main], from the graph that was read to the structure that is printed
    ([None]: "Empty graph").  A cycle ends the run with the error message
    and exit status 1, before anything is printed. *)
Definition main (nx_graph : DiGraph) : outcome (option tree) :=
  let components := weakly_connected_components nx_graph in
  component_structures ←
    for_each (λ component_structures component,
                let subgraph := subgraph nx_graph component in
                component_struct ← generate_component_structure subgraph;
                Returned (component_structures ++ [component_struct]))
             components [];
  match component_structures with
  | [] => Returned None
  | [component_struct] =>
      match component_struct with
      | Some final_structure => Returned (Some final_structure)
      | None => Raised TypeError
      end
  | _ =>
      match mapM id component_structures with
      | Some children => Returned (Some (Parallel children))
      | None => Raised TypeError
      end
  end.

(** [format_structure]: the text that is printed for a structure. *)
Fixpoint format_structure (struct : tree) (indent_level : nat) : string :=
  let indent := py.repeat "  " indent_level in
  match struct with
  | Node name => indent +:+ name
  | Sequence children =>
      let children := (λ c, format_structure c (indent_level + 1)) <$> children in
      let children_str := py.join ("," +:+ py.nl) children in
      indent +:+ "Sequence" +:+ " {" +:+ py.nl +:+ children_str +:+ py.nl +:+
      indent +:+ "}"
  | Parallel children =>
      let children := (λ c, format_structure c (indent_level + 1)) <$> children in
      let children_str := py.join ("," +:+ py.nl) children in
      indent +:+ "Parallel" +:+ " {" +:+ py.nl +:+ children_str +:+ py.nl +:+
      indent +:+ "}"
  end.

End dot2mr.

(** ** mr2dot: structure to graph *)

Module mr2dot.

(** The [while] loop over the lines of a block; [parse] is the function
    being defined, on the same lines. *)
Fixpoint parse_children (fuel : nat) (parse : nat → outcome (option tree * nat))
    (lines : list string) (children : list tree) (idx : nat)
  : outcome (list tree * nat) :=
  match lines !! idx with
  | Some line =>
      if decide (py.strip line = "}") then Returned (children, idx)
      else if decide (py.strip line = "},") then Returned (children, idx + 1)
      else
        match fuel with
        | O => Diverged
        | S fuel' =>
            '(child, idx) ← parse idx;
            let children :=
              match child with
              | Some child => children ++ [child]
              | None => children
              end in
            parse_children fuel' parse lines children idx
        end
  | None => Returned (children, idx)
  end.

(** The helper [parse] of [parse_custom_format]. *)
Fixpoint parse (fuel : nat) (lines : list string) (start_idx : nat)
  : outcome (option tree * nat) :=
  match lines !! start_idx with
  | None => Returned (None, start_idx)
  | Some line =>
      let current_line := py.strip line in
      let block (block_type : list tree → tree) :=
        match fuel with
        | O => Diverged
        | S fuel' =>
            '(children, idx) ←
              parse_children fuel' (parse fuel' lines) lines [] (start_idx + 1);
            (* Skip the closing brace *)
            let idx :=
              match lines !! idx with
              | Some line => if decide (py.strip line = "}") then idx + 1 else idx
              | None => idx
              end in
            Returned (Some (block_type children), idx)
        end in
      if py.startswith "Sequence {" current_line
         || bool_decide (current_line = "Sequence {")
      then block Sequence
      else if py.startswith "Parallel {" current_line
              || bool_decide (current_line = "Parallel {")
      then block Parallel
      else Returned (Some (Node (py.rstrip_char (Ascii.ascii_of_nat 44) current_line)), start_idx + 1)
  end.

(** [parse_custom_format]: the tree a text stands for, [None] for a text
    without a line. *)
Definition parse_custom_format (text : string) : outcome (option tree) :=
  let lines :=
    py.strip <$> filter (λ line, py.strip line ≠ "") (py.splitlines text) in
  '(tree, _) ← parse (S (length lines)) lines 0;
  Returned tree.

Fixpoint extract_nodes (node : tree) : list string :=
  match node with
  | Node name => [name]
  | Sequence children | Parallel children => children ≫= extract_nodes
  end.

Fixpoint extract_entry_nodes (node : tree) : list string :=
  match node with
  | Node name => [name]
  | Sequence children =>
      match children with
      | first :: _ => extract_entry_nodes first
      | [] => []
      end
  | Parallel children => children ≫= extract_entry_nodes
  end.

(** Python truthiness of [prev_exit_nodes]: [None] and [[]] are false. *)
Definition truthy (l : option (list string)) : bool :=
  match l with
  | Some (_ :: _) => true
  | _ => false
  end.

(** The body of the loop over the children of a [Sequence]; [generate_edges]
    is the function being defined. *)
Definition sequence_body
    (generate_edges : tree → outcome (list (string * string) * option (list string)))
    (st : list (string * string) * option (list string)) (child : tree)
  : outcome (list (string * string) * option (list string)) :=
  let '(all_edges, prev_exit_nodes) := st in
  '(child_edges, exit_nodes) ← generate_edges child;
  let all_edges := all_edges ++ child_edges in
  let all_edges :=
    if truthy prev_exit_nodes
    then all_edges ++
         (prev ← default [] prev_exit_nodes;
          curr ← extract_entry_nodes child;
          [(prev, curr)])
    else all_edges in
  Returned (all_edges, exit_nodes).

(** The body of the loop over the children of a [Parallel]:
    [all_exit_nodes.extend(None)] is a [TypeError]. *)
Definition parallel_body
    (generate_edges : tree → outcome (list (string * string) * option (list string)))
    (st : list (string * string) * list string) (child : tree)
  : outcome (list (string * string) * list string) :=
  let '(all_edges, all_exit_nodes) := st in
  '(child_edges, exit_nodes) ← generate_edges child;
  match exit_nodes with
  | Some exit_nodes =>
      Returned (all_edges ++ child_edges, all_exit_nodes ++ exit_nodes)
  | None => Raised TypeError
  end.

(** The edges and the exit nodes; the exit nodes of a [Sequence] without
    children are [None]. *)
Fixpoint generate_edges (node : tree)
  : outcome (list (string * string) * option (list string)) :=
  match node with
  | Node name => Returned ([], Some [name])
  | Sequence children =>
      for_each (sequence_body generate_edges) children ([], None)
  | Parallel children =>
      '(all_edges, all_exit_nodes) ←
        for_each (parallel_body generate_edges) children ([], []);
      Returned (all_edges, Some all_exit_nodes)
  end.

Definition nl : string := String (Ascii.ascii_of_nat 10) "".

(** [sorted(set(all_nodes))] *)
Definition emitted_nodes (all_nodes : list string) : list string :=
  merge_sort String.le (remove_dups all_nodes).

(** The edge loop: an edge is written unless [added_edges] has it. *)
Definition emitted_edges (all_edges : list (string * string))
  : list (string * string) :=
  (foldl (λ '(out, added_edges) e,
            if decide (e ∈ added_edges) then (out, added_edges)
            else (out ++ [e], {[e]} ∪ added_edges))
         ([], (∅ : gset (string * string))) all_edges).1.

Definition node_line (node : string) : string := "  " +:+ node +:+ ";" +:+ nl.
Definition edge_line (e : string * string) : string :=
  "  " +:+ e.1 +:+ " -> " +:+ e.2 +:+ ";" +:+ nl.

(** The graph [convert_to_dot] writes down. *)
Definition flatten (t : tree) : outcome nx.DiGraph :=
  let all_nodes := extract_nodes t in
  '(all_edges, _) ← generate_edges t;
  Returned {| nx.nodes := emitted_nodes all_nodes;
              nx.edges := emitted_edges all_edges |}.

Definition convert_to_dot (t : tree) : outcome string :=
  g ← flatten t;
  let dot_content := "digraph ExecutionGraph {" +:+ nl in
  let dot_content := foldl (λ acc node, acc +:+ node_line node) dot_content (nx.nodes g) in
  let dot_content := foldl (λ acc e, acc +:+ edge_line e) dot_content (nx.edges g) in
  Returned (dot_content +:+ "}" +:+ nl).

End mr2dot.

(** ** mr2dot under the interpreter's recursion limit

    The helpers of [mr2dot] call themselves once for every level of nesting,
    and the interpreter ends a call that would nest deeper than its recursion
    limit with a [RecursionError].  In this module every function takes
    [frames], the number of nested calls the interpreter still allows when the
    function is called: the call itself takes one of them and its body goes on
    with the rest.  Module [mr2dot] has what the functions compute when the
    limit is out of reach. *)

Module bounded.

Fixpoint extract_nodes (frames : nat) (node : tree) : outcome (list string) :=
  match frames with
  | O => Raised RecursionError
  | S frames =>
      match node with
      | Node name => Returned [name]
      | Sequence children | Parallel children =>
          for_each (λ nodes child,
                      child_nodes ← extract_nodes frames child;
                      Returned (nodes ++ child_nodes))
                   children []
      end
  end.

Fixpoint extract_entry_nodes (frames : nat) (node : tree) : outcome (list string) :=
  match frames with
  | O => Raised RecursionError
  | S frames =>
      match node with
      | Node name => Returned [name]
      | Sequence children =>
          match children with
          | first :: _ => extract_entry_nodes frames first
          | [] => Returned []
          end
      | Parallel children =>
          for_each (λ entry_nodes child,
                      child_nodes ← extract_entry_nodes frames child;
                      Returned (entry_nodes ++ child_nodes))
                   children []
      end
  end.

(** The body of the loop over the children of a [Sequence].  With previous
    exit nodes there is a first [prev], for which [extract_entry_nodes(child)]
    is called; the calls for the other [prev] give the same list. *)
Definition sequence_body
    (generate_edges : tree → outcome (list (string * string) * option (list string)))
    (extract_entry_nodes : tree → outcome (list string))
    (st : list (string * string) * option (list string)) (child : tree)
  : outcome (list (string * string) * option (list string)) :=
  let '(all_edges, prev_exit_nodes) := st in
  '(child_edges, exit_nodes) ← generate_edges child;
  let all_edges := all_edges ++ child_edges in
  all_edges ←
    (if mr2dot.truthy prev_exit_nodes
     then entry_nodes ← extract_entry_nodes child;
          Returned (all_edges ++
                    (prev ← default [] prev_exit_nodes;
                     curr ← entry_nodes;
                     [(prev, curr)]))
     else Returned all_edges);
  Returned (all_edges, exit_nodes).

Fixpoint generate_edges (frames : nat) (node : tree)
  : outcome (list (string * string) * option (list string)) :=
  match frames with
  | O => Raised RecursionError
  | S frames =>
      match node with
      | Node name => Returned ([], Some [name])
      | Sequence children =>
          for_each (sequence_body (generate_edges frames) (extract_entry_nodes frames))
                   children ([], None)
      | Parallel children =>
          '(all_edges, all_exit_nodes) ←
            for_each (mr2dot.parallel_body (generate_edges frames)) children ([], []);
          Returned (all_edges, Some all_exit_nodes)
      end
  end.

(** The graph [convert_to_dot] writes down; [frames] is what the body of
    [convert_to_dot] has left for the calls of its helpers. *)
Definition flatten (frames : nat) (t : tree) : outcome nx.DiGraph :=
  all_nodes ← extract_nodes frames t;
  '(all_edges, _) ← generate_edges frames t;
  Returned {| nx.nodes := mr2dot.emitted_nodes all_nodes;
              nx.edges := mr2dot.emitted_edges all_edges |}.

Definition convert_to_dot (frames : nat) (t : tree) : outcome string :=
  match frames with
  | O => Raised RecursionError
  | S frames =>
      g ← flatten frames t;
      let dot_content := "digraph ExecutionGraph {" +:+ mr2dot.nl in
      let dot_content :=
        foldl (λ acc node, acc +:+ mr2dot.node_line node) dot_content (nx.nodes g) in
      let dot_content :=
        foldl (λ acc e, acc +:+ mr2dot.edge_line e) dot_content (nx.edges g) in
      Returned (dot_content +:+ "}" +:+ mr2dot.nl)
  end.

(** The helper [parse]; its [while] loop is [mr2dot.parse_children], which
    is over when every line has been read. *)
Fixpoint parse (frames : nat) (lines : list string) (start_idx : nat)
  : outcome (option tree * nat) :=
  match frames with
  | O => Raised RecursionError
  | S frames =>
      match lines !! start_idx with
      | None => Returned (None, start_idx)
      | Some line =>
          let current_line := py.strip line in
          let block (block_type : list tree → tree) :=
            '(children, idx) ←
              mr2dot.parse_children (length lines) (parse frames lines) lines []
                                    (start_idx + 1);
            (* Skip the closing brace *)
            let idx :=
              match lines !! idx with
              | Some line => if decide (py.strip line = "}") then idx + 1 else idx
              | None => idx
              end in
            Returned (Some (block_type children), idx) in
          if py.startswith "Sequence {" current_line
             || bool_decide (current_line = "Sequence {")
          then block Sequence
          else if py.startswith "Parallel {" current_line
                  || bool_decide (current_line = "Parallel {")
          then block Parallel
          else Returned (Some (Node (py.rstrip_char (Ascii.ascii_of_nat 44) current_line)),
                         start_idx + 1)
      end
  end.

Definition parse_custom_format (frames : nat) (text : string) : outcome (option tree) :=
  match frames with
  | O => Raised RecursionError
  | S frames =>
      let lines :=
        py.strip <$> filter (λ line, py.strip line ≠ "") (py.splitlines text) in
      '(tree, _) ← parse frames lines 0;
      Returned tree
  end.

End bounded.

(** ** Reading the flattener against its description *)

(** The description of the flattener's helpers, clause by clause. *)
Module described.

(** "a full bipartite join from every exit point of the earlier child to
    every entry point of the later child" *)
Definition bipartite_join (exits entries : list string) : list (string * string) :=
  prev ← exits; curr ← entries; [(prev, curr)].

Fixpoint consecutive_pairs {A : Type} (l : list A) : list (A * A) :=
  match l with
  | x :: (y :: _) as tl => (x, y) :: consecutive_pairs tl
  | _ => []
  end.

(** "Leaf: {name}; Parallel: union of children's exits; a Sequence's own
    exits are its last child's exits" *)
Fixpoint exit_points (t : tree) : list string :=
  match t with
  | Node name => [name]
  | Sequence children => default [] (last (exit_points <$> children))
  | Parallel children => children ≫= exit_points
  end.

(** "Leaf: no edges; Parallel: union of children's edges; Sequence:
    concatenation of children's edges plus, for every consecutive child
    pair, a full bipartite join" *)
Fixpoint edges_of (t : tree) : list (string * string) :=
  match t with
  | Node _ => []
  | Parallel children => children ≫= edges_of
  | Sequence children =>
      (children ≫= edges_of) ++
      (consecutive_pairs children ≫=
         λ '(earlier, later),
           bipartite_join (exit_points earlier) (mr2dot.extract_entry_nodes later))
  end.

(** An edge is written the first time it is met. *)
Fixpoint first_occurrences {A : Type} `{EqDecision A} (l : list A) : list A :=
  match l with
  | [] => []
  | x :: l' => x :: filter (λ y, y ≠ x) (first_occurrences l')
  end.

End described.

(** Every [Sequence] of the tree has a child. *)
Fixpoint sequences_nonempty (t : tree) : bool :=
  match t with
  | Node _ => true
  | Sequence children =>
      bool_decide (children ≠ []) && forallb sequences_nonempty children
  | Parallel children => forallb sequences_nonempty children
  end.

(** No [Sequence] or [Parallel] of the tree has exactly one child. *)
Fixpoint no_singleton_wrapper (t : tree) : bool :=
  match t with
  | Node _ => true
  | Sequence children | Parallel children =>
      bool_decide (length children ≠ 1) && forallb no_singleton_wrapper children
  end.

(** The joins a [Sequence] loop adds when it starts with [prev] as the
    previous exit nodes. *)
Fixpoint joins_from (prev : list string) (l : list tree) : list (string * string) :=
  match l with
  | [] => []
  | c :: l' =>
      described.bipartite_join prev (mr2dot.extract_entry_nodes c) ++
      joins_from (described.exit_points c) l'
  end.

(** [generate_edges] returns what the description says, up to the order in
    which the edges are listed. *)
Definition flattens_as_described (t : tree) : Prop :=
  ∃ all_edges,
    mr2dot.generate_edges t = Returned (all_edges, Some (described.exit_points t)) ∧
    all_edges ≡ₚ described.edges_of t.

(** Python's order on pairs of names. *)
Definition edge_le (e1 e2 : string * string) : Prop :=
  (String.le e1.1 e2.1 ∧ e1.1 ≠ e2.1) ∨ (e1.1 = e2.1 ∧ String.le e1.2 e2.2).

Global Instance edge_le_dec : RelDecision edge_le.
Proof. intros e1 e2. unfold edge_le. apply _. Defined.

(** ** Runs of direct links *)

(** [b] directly continues a run that has reached [a]. *)
Definition direct_link (G : nx.DiGraph) (a b : string) : Prop :=
  nx.successors G a = [b] ∧ length (nx.predecessors G b) = 1.

(** A maximal run of direct links from [n]. *)
Inductive sequence_run (G : nx.DiGraph) : string → list string → Prop :=
  | run_stop n : (∀ b, ¬ direct_link G n b) → sequence_run G n []
  | run_step n b rest :
      direct_link G n b → sequence_run G b rest → sequence_run G n (b :: rest).

(** ** Layerings of a graph *)

(** How many of the edges [P] point to [v]. *)
Definition count_into (P : list (string * string)) (v : string) : Z :=
  Z.of_nat (length (filter (λ e, e.2 = v) P)).

(** The state of [topological_generations] once the edges [P] have been
    followed and the nodes [Zs] have reached in-degree zero. *)
Definition kahn_inv (G : nx.DiGraph) (P : list (string * string)) (Zs : list string)
    (m : gmap string Z) : Prop :=
  NoDup P ∧ P ⊆ nx.edges G ∧ NoDup Zs ∧
  (∀ v, m !! v = if decide (v ∈ nx.nodes G ∧ v ∉ Zs)
                 then Some (nx.in_degree G v - count_into P v)%Z else None) ∧
  (∀ v, v ∈ nx.nodes G → v ∉ Zs → (count_into P v < nx.in_degree G v)%Z) ∧
  (∀ v, v ∈ Zs → v ∈ nx.nodes G ∧ count_into P v = nx.in_degree G v).

(** [layers] continues the layering [before]: no layer is empty and the
    predecessors of a node lie in the layers before its own. *)
Fixpoint layered (G : nx.DiGraph) (before : list string) (layers : list (list string))
  : Prop :=
  match layers with
  | [] => True
  | z :: rest =>
      z ≠ [] ∧ (∀ u v, v ∈ z → nx.edge G u v → u ∈ before) ∧
      layered G (before ++ z) rest
  end.

Fixpoint layer_index (layers : list (list string)) (v : string) : nat :=
  match layers with
  | [] => 0
  | z :: rest => if decide (v ∈ z) then 0 else S (layer_index rest v)
  end.

(** ** What the structurer has emitted *)

(** The names in a list of structure items. *)
Definition leaves (out : list tree) : list string := out ≫= mr2dot.extract_nodes.

(** The loop state of [generate_component_structure] once the layers [L]
    are behind: the items emitted after the names [base] hold every processed
    name once, [L] is processed, and a name processed ahead of its layer has
    its predecessors processed too. *)
Definition structured (G : nx.DiGraph) (L base : list string) (st : dot2mr.state)
  : Prop :=
  NoDup (base ++ leaves st.2) ∧
  (∀ x, x ∈ st.1 ↔ x ∈ base ++ leaves st.2) ∧
  (∀ x, x ∈ L → x ∈ st.1) ∧
  (∀ x p, x ∈ st.1 → x ∉ L → nx.edge G p x → p ∈ st.1) ∧
  (∀ x, x ∈ st.1 → x ∈ nx.nodes G).

(** ** Trees the flattener cannot handle *)

(** The exit nodes [generate_edges] returns are [None]: the loop over the
    children of a [Sequence] starts with [None] and keeps the exit nodes of
    the child it saw last. *)
Fixpoint exits_none (t : tree) : bool :=
  match t with
  | Node _ | Parallel _ => false
  | Sequence children => foldl (λ _ child, exits_none child) true children
  end.

(** Some [Parallel] of the tree has a child whose exit nodes are [None], so
    that [all_exit_nodes.extend] is called on [None]. *)
Fixpoint extend_fails (t : tree) : bool :=
  match t with
  | Node _ => false
  | Sequence children => existsb extend_fails children
  | Parallel children =>
      existsb (λ child, extend_fails child || exits_none child) children
  end.

(** The edges join names of [N] and the exit nodes are names of [N]. *)
Definition within (N : list string) (edges : list (string * string))
    (exits : list string) : Prop :=
  (∀ e, e ∈ edges → e.1 ∈ N ∧ e.2 ∈ N) ∧ (∀ x, x ∈ exits → x ∈ N).

(** What [generate_edges] does on [t]: [TypeError] if [extend_fails], else
    the edges and the exit nodes, which are [None] if [exits_none]. *)
Definition fails_as_predicted (t : tree) : Prop :=
  if extend_fails t then mr2dot.generate_edges t = Raised TypeError
  else ∃ all_edges exits,
         mr2dot.generate_edges t = Returned (all_edges, exits) ∧
         bool_decide (exits = None) = exits_none t.

(** [u] comes before [v] in the list [l]. *)
Definition before (l : list string) (u v : string) : Prop :=
  ∃ l1 l2, l = l1 ++ l2 ∧ u ∈ l1 ∧ v ∈ l2.

(** The flattener accepts [t] and returns exit nodes for it. *)
Definition flattens (t : tree) : Prop :=
  extend_fails t = false ∧ exits_none t = false.

(** ** Grouping a layer *)

(** The key of a node in [successor_groups]: its successors in ascending
    order. *)
Definition successors_key (G : nx.DiGraph) (node : string) : list string :=
  merge_sort String.le (nx.successors G node).

(** The keys in the order in which they first occur, each with the nodes of
    the layer that have it, in the order of the layer. *)
Definition grouped (G : nx.DiGraph) (current_layer : list string)
  : list (list string * list string) :=
  (λ key, (key, filter (λ node, successors_key G node = key) current_layer)) <$>
  described.first_occurrences (successors_key G <$> current_layer).

(** ** Texts of structures *)

Fixpoint forall_chars (P : Ascii.ascii → bool) (s : string) : bool :=
  match s with
  | EmptyString => true
  | String c s' => P c && forall_chars P s'
  end.

(** The names that can be printed and read back: not empty, no white space
    at either end, no line boundary, no comma at the end, not the start of a
    block and not a closing brace. *)
Definition name_ok (name : string) : bool :=
  negb (bool_decide (name = "")) &&
  bool_decide (py.strip name = name) &&
  forall_chars (λ c, negb (py.is_line_boundary c)) name &&
  bool_decide (py.rstrip_char (Ascii.ascii_of_nat 44) name = name) &&
  negb (py.startswith "Sequence {" name) &&
  negb (py.startswith "Parallel {" name) &&
  negb (bool_decide (name = "}")).

Fixpoint names_ok (t : tree) : bool :=
  match t with
  | Node name => name_ok name
  | Sequence children | Parallel children => forallb names_ok children
  end.

(** The lines of the children of a block: a comma follows every child but
    the last. *)
Definition children_lines (lines_of : tree → string → list string)
  : list tree → list string :=
  fix go l :=
    match l with
    | [] => []
    | [c] => lines_of c ""
    | c :: l' => lines_of c "," ++ go l'
    end.

(** The lines of the text of a structure, without the indentation; [sfx] is
    what follows the structure on its last line. *)
Fixpoint structure_lines (t : tree) (sfx : string) : list string :=
  match t with
  | Node name => [name +:+ sfx]
  | Sequence children =>
      ["Sequence {"] ++ children_lines structure_lines children ++ ["}" +:+ sfx]
  | Parallel children =>
      ["Parallel {"] ++ children_lines structure_lines children ++ ["}" +:+ sfx]
  end.

(** The parser reads the lines of [t] back as [t], wherever they stand. *)
Definition parses_back (t : tree) : Prop :=
  ∀ lines sfx pre post fuel,
    lines = pre ++ structure_lines t sfx ++ post →
    sfx = "" ∨ sfx = "," →
    (sfx = "," → ∀ l, head post = Some l → py.strip l ≠ "}") →
    (length (structure_lines t sfx) ≤ fuel)%nat →
    mr2dot.parse fuel lines (length pre) =
    Returned (Some t, length pre + length (structure_lines t sfx)).

(** The lines of the text of a structure as they are printed: indented, and
    with one empty line in a block without children. *)
Fixpoint physical_lines (indent_level : nat) (t : tree) (sfx : string)
  : list string :=
  let indent := py.repeat "  " indent_level in
  match t with
  | Node name => [indent +:+ name +:+ sfx]
  | Sequence children =>
      [indent +:+ "Sequence {"] ++
      match children with
      | [] => [""]
      | _ => children_lines (physical_lines (indent_level + 1)) children
      end ++ [indent +:+ "}" +:+ sfx]
  | Parallel children =>
      [indent +:+ "Parallel {"] ++
      match children with
      | [] => [""]
      | _ => children_lines (physical_lines (indent_level + 1)) children
      end ++ [indent +:+ "}" +:+ sfx]
  end.

(** The text of [t] is made of the lines [physical_lines]. *)
Definition prints_lines (t : tree) : Prop :=
  ∀ k sfx,
    dot2mr.format_structure t k +:+ sfx = py.join py.nl (physical_lines k t sfx).

(** The lines of a text as [parse_custom_format] keeps them. *)
Definition kept_lines (ls : list string) : list string :=
  py.strip <$> filter (λ line, py.strip line ≠ "") ls.

(** The printed lines of [t] have no line boundary inside, do not end with an
    empty line, and are kept as the lines of [t]. *)
Definition prints_clean_lines (t : tree) : Prop :=
  ∀ k sfx, sfx = "" ∨ sfx = "," →
    Forall (λ l, forall_chars (λ c, negb (py.is_line_boundary c)) l = true)
           (physical_lines k t sfx) ∧
    last (physical_lines k t sfx) ≠ Some "" ∧
    kept_lines (physical_lines k t sfx) = structure_lines t sfx.

(** ** The shape of a structure *)

Definition is_leaf (t : tree) : bool :=
  match t with
  | Node _ => true
  | _ => false
  end.

(** A leaf, or a run: a Sequence of two leaves or more. *)
Definition is_unit (t : tree) : bool :=
  match t with
  | Node _ => true
  | Sequence children => bool_decide (2 ≤ length children)%nat && forallb is_leaf children
  | Parallel _ => false
  end.

(** What a layer adds: a unit, or a Parallel of two units or more. *)
Definition is_item (t : tree) : bool :=
  is_unit t ||
  match t with
  | Parallel children => bool_decide (2 ≤ length children)%nat && forallb is_unit children
  | _ => false
  end.

(** An item, or a Sequence of items. *)
Definition is_structure (t : tree) : bool :=
  is_item t ||
  match t with
  | Sequence children => bool_decide (length children ≠ 1) && forallb is_item children
  | _ => false
  end.

(** ** The order a structure imposes *)

(** [u -> v] is an edge the description gives for [t]. *)
Definition tree_edge (t : tree) (u v : string) : Prop :=
  (u, v) ∈ described.edges_of t.

(** [t] has an entry node, and from each of its leaves an exit node of [t] is
    reached along the edges of [t]. *)
Definition conn (t : tree) : Prop :=
  mr2dot.extract_entry_nodes t ≠ [] ∧
  ∀ x, x ∈ mr2dot.extract_nodes t →
    ∃ o, o ∈ described.exit_points t ∧ rtc (tree_edge t) x o.

(** Every edge of [G] into a leaf of [t] is an edge of [t], unless the leaf
    is an entry node of [t] and the edge comes from [L]. *)
Definition covers (G : nx.DiGraph) (L : list string) (t : tree) : Prop :=
  ∀ u v, nx.edge G u v → v ∈ mr2dot.extract_nodes t →
    (v ∈ mr2dot.extract_entry_nodes t ∧ u ∈ L) ∨ tree_edge t u v.

(** The items [S] put every edge of [G] that ends in one of their leaves in
    order, and from each leaf an exit node of the last item is reached. *)
Definition ordered (G : nx.DiGraph) (S : list tree) : Prop :=
  (∀ u v, nx.edge G u v → v ∈ leaves S → tc (tree_edge (Sequence S)) u v) ∧
  (∀ x, x ∈ leaves S →
     ∃ o, o ∈ described.exit_points (Sequence S) ∧ rtc (tree_edge (Sequence S)) x o).

(** ** The nesting of a tree *)

(** The number of levels of [t]: the calls a helper that goes down the whole
    tree has nested when it is at a deepest leaf. *)
Fixpoint depth (t : tree) : nat :=
  match t with
  | Node _ => 1
  | Sequence children | Parallel children => S (max_list (depth <$> children))
  end.

(** The calls of [parse] that are nested when it returns [r]. *)
Definition parse_depth (r : option tree) : nat := from_option depth 1 r.

(** ** Sample graphs and trees *)

Definition diamond_graph : nx.DiGraph :=
  {| nx.nodes := ["A"; "B"; "C"; "D"];
     nx.edges := [("A", "B"); ("A", "C"); ("B", "D"); ("C", "D")] |}.

Definition chain_graph : nx.DiGraph :=
  {| nx.nodes := ["A"; "B"; "C"; "D"];
     nx.edges := [("A", "B"); ("B", "C"); ("C", "D")] |}.

Definition triangle_graph : nx.DiGraph :=
  {| nx.nodes := ["A"; "B"; "C"];
     nx.edges := [("A", "B"); ("B", "C"); ("C", "A")] |}.

(** Two sources that share one of their targets. *)
Definition zigzag_graph : nx.DiGraph :=
  {| nx.nodes := ["A"; "B"; "C"; "D"];
     nx.edges := [("A", "C"); ("A", "D"); ("B", "D")] |}.

Definition diamond_tree : tree :=
  Sequence [Node "A"; Parallel [Node "B"; Node "C"]; Node "D"].

Definition chain_tree : tree :=
  Sequence [Node "A"; Node "B"; Node "C"; Node "D"].

Definition three_chains_tree : tree :=
  Parallel [Sequence [Node "B"; Node "C"];
            Sequence [Node "A"; Node "D"];
            Sequence [Node "E"; Node "F"]].

(** ** Induction over trees *)

Section tree_induction.
Variable P : tree → Prop.
Hypothesis HNode : ∀ name, P (Node name).
Hypothesis HSequence : ∀ children, Forall P children → P (Sequence children).
Hypothesis HParallel : ∀ children, Forall P children → P (Parallel children).

Fixpoint tree_nested_ind (t : tree) : P t :=
  match t with
  | Node name => HNode name
  | Sequence children =>
      HSequence children
        ((fix go l : Forall P l :=
            match l with
            | [] => Forall_nil_2 P
            | c :: l' => Forall_cons_2 P c l' (tree_nested_ind c) (go l')
            end) children)
  | Parallel children =>
      HParallel children
        ((fix go l : Forall P l :=
            match l with
            | [] => Forall_nil_2 P
            | c :: l' => Forall_cons_2 P c l' (tree_nested_ind c) (go l')
            end) children)
  end.
End tree_induction.

(** ** Loops *)

Section for_each_facts.
Context {S B : Type} (body : S → B → outcome S).

Lemma for_each_nil s : for_each body [] s = Returned s.
Proof. reflexivity. Qed.

Lemma for_each_cons x l s :
  for_each body (x :: l) s = (s' ← body s x; for_each body l s').
Proof. reflexivity. Qed.

Lemma for_each_app l1 l2 s :
  for_each body (l1 ++ l2) s = (s' ← for_each body l1 s; for_each body l2 s').
Proof.
  revert s. induction l1 as [|x l1 IH]; intros s; [done|].
  rewrite <- app_comm_cons, !for_each_cons.
  destruct (body s x) as [s'| |]; simpl; [apply IH|done..].
Qed.

(** A loop invariant: kept by every turn, it holds of the state the loop
    returns. *)
Lemma for_each_invariant (I : S → Prop) l s s' :
  (∀ x s1 s2, x ∈ l → I s1 → body s1 x = Returned s2 → I s2) →
  I s → for_each body l s = Returned s' → I s'.
Proof.
  revert s. induction l as [|x l IH]; intros s Hstep Hs; simpl.
  - by intros [= <-].
  - destruct (body s x) as [s1| |] eqn:Hb; simpl; [|done..].
    apply IH; [|by eapply Hstep; [left|..]].
    intros y ????; eapply Hstep; [by right|done..].
Qed.

(** A loop whose turns all return under the invariant returns. *)
Lemma for_each_returns (I : S → Prop) l s :
  (∀ x s1, x ∈ l → I s1 → ∃ s2, body s1 x = Returned s2 ∧ I s2) →
  I s → ∃ s', for_each body l s = Returned s' ∧ I s'.
Proof.
  revert s. induction l as [|x l IH]; intros s Hstep Hs; simpl.
  - by exists s.
  - destruct (Hstep x s) as (s1 & -> & Hs1); [by left|done|]. simpl.
    apply IH; [|done]. intros y ???; apply Hstep; [by right|done].
Qed.
End for_each_facts.

(** ** The flattener's helpers *)

Section flattener.
Import mr2dot described.

Lemma joins_from_consecutive prev c l :
  joins_from prev (c :: l) =
  bipartite_join prev (extract_entry_nodes c) ++
  (consecutive_pairs (c :: l) ≫=
     λ '(earlier, later), bipartite_join (exit_points earlier) (extract_entry_nodes later)).
Proof.
  revert prev c. induction l as [|c' l IH]; intros prev c; [done|].
  change (joins_from prev (c :: c' :: l))
    with (bipartite_join prev (extract_entry_nodes c) ++ joins_from (exit_points c) (c' :: l)).
  by rewrite IH.
Qed.

Lemma sequence_step (all_edges child_edges : list (string * string)) prev entries :
  (if truthy prev
   then (all_edges ++ child_edges) ++ bipartite_join (default [] prev) entries
   else all_edges ++ child_edges) =
  all_edges ++ child_edges ++ bipartite_join (default [] prev) entries.
Proof.
  destruct prev as [[|]|]; simpl; by rewrite ?app_nil_r, <- ?app_assoc.
Qed.

Lemma sequence_body_step all_edges prev c child_edges exit_nodes :
  generate_edges c = Returned (child_edges, exit_nodes) →
  sequence_body generate_edges (all_edges, prev) c =
  Returned (all_edges ++ child_edges ++
            bipartite_join (default [] prev) (extract_entry_nodes c), exit_nodes).
Proof.
  intros Hc. unfold sequence_body. rewrite Hc. cbn [mbind outcome_bind].
  f_equal. f_equal. apply sequence_step.
Qed.

Lemma sequence_loop children :
  Forall flattens_as_described children →
  ∀ all_edges prev, ∃ all_edges',
    for_each (sequence_body generate_edges) children (all_edges, prev) =
      Returned (all_edges',
                from_option (λ c, Some (exit_points c)) prev (last children)) ∧
    all_edges' ≡ₚ all_edges ++ (children ≫= edges_of) ++
                  joins_from (default [] prev) children.
Proof.
  induction 1 as [|c l (Ec & Hc & HEc) _ IH]; intros all_edges prev.
  - exists all_edges. split; [done|]. by rewrite app_nil_r.
  - rewrite for_each_cons, (sequence_body_step _ _ _ _ _ Hc). cbn [mbind outcome_bind].
    destruct (IH (all_edges ++ Ec ++ bipartite_join (default [] prev) (extract_entry_nodes c))
                 (Some (exit_points c))) as (E' & HE' & Hperm).
    exists E'. split.
    + rewrite HE'. f_equal. f_equal. rewrite last_cons.
      by destruct (last l).
    + rewrite Hperm. simpl. rewrite <- !app_assoc. f_equiv.
      rewrite HEc. f_equiv.
      rewrite !app_assoc. f_equiv. apply Permutation_app_comm.
Qed.

Lemma parallel_body_step all_edges all_exit_nodes c child_edges exit_nodes :
  generate_edges c = Returned (child_edges, Some exit_nodes) →
  parallel_body generate_edges (all_edges, all_exit_nodes) c =
  Returned (all_edges ++ child_edges, all_exit_nodes ++ exit_nodes).
Proof. intros Hc. unfold parallel_body. by rewrite Hc. Qed.

Lemma parallel_loop children :
  Forall flattens_as_described children →
  ∀ all_edges all_exit_nodes, ∃ all_edges',
    for_each (parallel_body generate_edges) children (all_edges, all_exit_nodes) =
      Returned (all_edges', all_exit_nodes ++ (children ≫= exit_points)) ∧
    all_edges' ≡ₚ all_edges ++ (children ≫= edges_of).
Proof.
  induction 1 as [|c l (Ec & Hc & HEc) _ IH]; intros all_edges all_exit_nodes.
  - exists all_edges. by rewrite !app_nil_r.
  - rewrite for_each_cons, (parallel_body_step _ _ _ _ _ Hc).
    cbn [mbind outcome_bind].
    destruct (IH (all_edges ++ Ec) (all_exit_nodes ++ exit_points c))
      as (E' & HE' & Hperm).
    exists E'. split.
    + rewrite HE'. simpl. by rewrite <- app_assoc.
    + rewrite Hperm. simpl. rewrite <- !app_assoc. by rewrite HEc.
Qed.

Lemma generate_edges_described t :
  sequences_nonempty t → flattens_as_described t.
Proof.
  induction t as [name|children IH|children IH] using tree_nested_ind; simpl.
  - intros _. by exists [].
  - intros [Hne Hall]%andb_prop_elim. apply bool_decide_unpack in Hne.
    assert (Forall flattens_as_described children) as Hch.
    { apply Forall_forall. intros c Hc. rewrite Forall_forall in IH.
      apply IH; [done|]. apply Is_true_true. apply Is_true_true in Hall.
      rewrite forallb_forall in Hall. apply Hall. by apply list_elem_of_In. }
    destruct (sequence_loop _ Hch [] None) as (E & HE & Hperm).
    exists E. split.
    + unfold flattens_as_described. simpl. rewrite HE. f_equal. f_equal.
      rewrite fmap_last. by destruct (last children) eqn:Hl;
        [|apply last_None in Hl].
    + rewrite Hperm. simpl. destruct children as [|c l]; [done|].
      rewrite joins_from_consecutive. done.
  - intros Hall.
    assert (Forall flattens_as_described children) as Hch.
    { apply Forall_forall. intros c Hc. rewrite Forall_forall in IH.
      apply IH; [done|]. apply Is_true_true. apply Is_true_true in Hall.
      rewrite forallb_forall in Hall. apply Hall. by apply list_elem_of_In. }
    destruct (parallel_loop _ Hch [] []) as (E & HE & Hperm).
    exists E. split; [|done]. simpl. by rewrite HE.
Qed.
End flattener.

(** ** What is written to the DOT text *)

Section emitted.
Import mr2dot described.

Lemma emitted_nodes_sorted all_nodes : Sorted String.le (emitted_nodes all_nodes).
Proof. apply (Sorted_merge_sort _). Qed.

Lemma emitted_nodes_NoDup all_nodes : NoDup (emitted_nodes all_nodes).
Proof.
  unfold emitted_nodes. rewrite merge_sort_Permutation. apply NoDup_remove_dups.
Qed.

Lemma elem_of_emitted_nodes all_nodes n : n ∈ emitted_nodes all_nodes ↔ n ∈ all_nodes.
Proof.
  unfold emitted_nodes. rewrite merge_sort_Permutation. apply elem_of_remove_dups.
Qed.

Lemma elem_of_first_occurrences {A} `{EqDecision A} (l : list A) x :
  x ∈ first_occurrences l ↔ x ∈ l.
Proof.
  induction l as [|y l IH]; simpl; [done|].
  rewrite !elem_of_cons, list_elem_of_filter, IH.
  destruct (decide (x = y)); naive_solver.
Qed.

Lemma NoDup_first_occurrences {A} `{EqDecision A} (l : list A) :
  NoDup (first_occurrences l).
Proof.
  induction l as [|y l IH]; simpl; constructor.
  - rewrite list_elem_of_filter. naive_solver.
  - by apply NoDup_filter.
Qed.

Lemma filter_keeps_all {A} (P : A → Prop) `{∀ x, Decision (P x)} (l : list A) :
  Forall P l → filter P l = l.
Proof.
  induction 1 as [|x l Hx _ IH]; [done|]. by rewrite filter_cons_True, IH.
Qed.

Lemma emitted_edges_loop l : ∀ out (added_edges : gset (string * string)),
  (∀ e, e ∈ added_edges ↔ e ∈ out) →
  (foldl (λ '(out, added_edges) e,
            if decide (e ∈ added_edges) then (out, added_edges)
            else (out ++ [e], {[e]} ∪ added_edges))
         (out, added_edges) l).1 =
  out ++ filter (λ e, e ∉ out) (first_occurrences l).
Proof.
  induction l as [|x l IH]; intros out added Hadded; simpl.
  - by rewrite app_nil_r.
  - destruct (decide (x ∈ added)) as [Hx|Hx].
    + rewrite IH by done. f_equal. apply Hadded in Hx.
      rewrite filter_cons_False by naive_solver.
      rewrite list_filter_filter. apply list_filter_iff. naive_solver.
    + rewrite IH.
      * rewrite Hadded in Hx. rewrite filter_cons_True by done.
        rewrite <- app_assoc. simpl. do 2 f_equal.
        rewrite list_filter_filter. apply list_filter_iff.
        intros e. rewrite elem_of_app, list_elem_of_singleton. naive_solver.
      * intros e. rewrite elem_of_union, elem_of_singleton, elem_of_app,
          list_elem_of_singleton, Hadded. naive_solver.
Qed.

(** The edge loop writes each edge where it first occurs. *)
Lemma emitted_edges_first_occurrences all_edges :
  emitted_edges all_edges = first_occurrences all_edges.
Proof.
  unfold emitted_edges. rewrite emitted_edges_loop by set_solver. simpl.
  apply filter_keeps_all, Forall_forall. intros e _. apply not_elem_of_nil.
Qed.
End emitted.
(** ** The claims about the flattener *)

(** C5. For a tree whose Sequences have a child: the entry points of a Leaf
    are the leaf, of a Sequence those of its first child, of a Parallel those
    of all its children; and [generate_edges] returns the exits and, up to
    their order, the edges that the description gives: no edge and the leaf
    for a Leaf, the children's edges and exits for a Parallel, the children's
    edges and the join of every consecutive pair for a Sequence, whose exits
    are those of its last child. *)
Theorem flattener_helpers_as_described (t : tree) :
  sequences_nonempty t →
  mr2dot.extract_entry_nodes t =
    match t with
    | Node name => [name]
    | Sequence children => from_option mr2dot.extract_entry_nodes [] (head children)
    | Parallel children => children ≫= mr2dot.extract_entry_nodes
    end ∧
  ∃ all_edges,
    mr2dot.generate_edges t = Returned (all_edges, Some (described.exit_points t)) ∧
    all_edges ≡ₚ described.edges_of t.
Proof.
  intros Ht. split.
  - destruct t as [name|[|c l]|children]; done.
  - by apply generate_edges_described.
Qed.

Lemma flattener_helpers_as_described_witness :
  sequences_nonempty diamond_tree ∧
  ∃ all_edges,
    mr2dot.generate_edges diamond_tree =
      Returned (all_edges, Some (described.exit_points diamond_tree)) ∧
    all_edges ≡ₚ described.edges_of diamond_tree.
Proof.
  split; [exact I|].
  apply (flattener_helpers_as_described diamond_tree). exact I.
Defined.

(** C3, as stated, fails: a Sequence without children and a tree with a
    repeated name are both turned into a graph, silently. *)
Lemma flatten_malformed_counterexample :
  mr2dot.convert_to_dot (Sequence []) =
    Returned ("digraph ExecutionGraph {" +:+ mr2dot.nl +:+ "}" +:+ mr2dot.nl) ∧
  mr2dot.flatten (Parallel [Node "A"; Node "A"]) =
    Returned {| nx.nodes := ["A"]; nx.edges := [] |}.
Proof. split; reflexivity. Qed.

(** C7, as the code has it. For a tree whose Sequences have a child the
    flattener returns a graph: its nodes are the names of the tree, sorted and
    without repetition; its edges are the generated edges without repetition,
    each where it first occurs in the traversal. *)
Theorem flatten_nodes_sorted_edges_in_first_occurrence_order (t : tree) :
  sequences_nonempty t →
  ∃ g all_edges exits,
    mr2dot.generate_edges t = Returned (all_edges, exits) ∧
    mr2dot.flatten t = Returned g ∧
    Sorted String.le (nx.nodes g) ∧ NoDup (nx.nodes g) ∧
    (∀ n, n ∈ nx.nodes g ↔ n ∈ mr2dot.extract_nodes t) ∧
    nx.edges g = described.first_occurrences all_edges ∧
    NoDup (nx.edges g) ∧
    (∀ e, e ∈ nx.edges g ↔ e ∈ all_edges).
Proof.
  intros Ht. destruct (generate_edges_described t Ht) as (all_edges & Hgen & _).
  unfold mr2dot.flatten. rewrite Hgen. eexists _, all_edges, _.
  split; [done|]. split; [done|]. simpl.
  rewrite emitted_edges_first_occurrences.
  split_and!; [apply emitted_nodes_sorted|apply emitted_nodes_NoDup| |done| |].
  - intros n. apply elem_of_emitted_nodes.
  - apply NoDup_first_occurrences.
  - intros e. apply elem_of_first_occurrences.
Qed.

Lemma flatten_nodes_sorted_edges_in_first_occurrence_order_witness :
  sequences_nonempty three_chains_tree ∧
  ∃ g all_edges exits,
    mr2dot.generate_edges three_chains_tree = Returned (all_edges, exits) ∧
    mr2dot.flatten three_chains_tree = Returned g ∧
    Sorted String.le (nx.nodes g) ∧ NoDup (nx.nodes g) ∧
    (∀ n, n ∈ nx.nodes g ↔ n ∈ mr2dot.extract_nodes three_chains_tree) ∧
    nx.edges g = described.first_occurrences all_edges ∧
    NoDup (nx.edges g) ∧
    (∀ e, e ∈ nx.edges g ↔ e ∈ all_edges).
Proof.
  split; [exact I|].
  apply (flatten_nodes_sorted_edges_in_first_occurrence_order three_chains_tree).
  exact I.
Defined.

(** C7, as stated, fails: the edges of three chains come out in the order of
    the traversal, which is neither ascending nor descending. *)
Lemma flatten_edges_sorted_counterexample :
  mr2dot.flatten three_chains_tree =
    Returned {| nx.nodes := ["A"; "B"; "C"; "D"; "E"; "F"];
                nx.edges := [("B", "C"); ("A", "D"); ("E", "F")] |} ∧
  ¬ Sorted edge_le [("B", "C"); ("A", "D"); ("E", "F")] ∧
  ¬ Sorted (flip edge_le) [("B", "C"); ("A", "D"); ("E", "F")].
Proof.
  split; [reflexivity|]. split.
  - intros H. apply Sorted_inv in H as [_ H]. apply HdRel_inv in H.
    revert H. apply (bool_decide_unpack (¬ edge_le ("B", "C") ("A", "D"))).
    vm_compute. exact I.
  - intros H. apply Sorted_inv in H as [H _]. apply Sorted_inv in H as [_ H].
    apply HdRel_inv in H.
    revert H. apply (bool_decide_unpack (¬ edge_le ("E", "F") ("A", "D"))).
    vm_compute. exact I.
Qed.
(** ** The structurer: runs and emitted items *)

Section structurer_items.
Import nx dot2mr.
Context (G : DiGraph).

Local Abbreviation direct_link := (direct_link G).
Local Abbreviation sequence_run := (sequence_run G).

Lemma follow_cases fuel current :
  (∃ next_node, direct_link current next_node ∧
     follow fuel G current =
       match fuel with
       | O => Diverged
       | S fuel' => rest ← follow fuel' G next_node; Returned (next_node :: rest)
       end) ∨
  ((∀ b, ¬ direct_link current b) ∧ follow fuel G current = Returned []).
Proof.
  unfold direct_link.
  destruct fuel; simpl;
    destruct (successors G current) as [|b [|??]] eqn:Hs;
    try (right; split; [intros ? [? ?]; congruence|done]);
    destruct (predecessors G b) as [|a [|??]] eqn:Hp;
    try (right; split; [intros ? [[= <-] ?]; rewrite Hp in *; simpl in *; lia|done]);
    left; exists b; rewrite Hp; done.
Qed.

Lemma follow_sequence_run fuel n rest :
  follow fuel G n = Returned rest → sequence_run n rest.
Proof.
  revert n rest. induction fuel as [|fuel IH]; intros n rest;
    [destruct (follow_cases 0 n) as [(b & Hb & ->)|[Hn ->]]
    |destruct (follow_cases (S fuel) n) as [(b & Hb & ->)|[Hn ->]]];
    try done; try (intros [= <-]; by constructor).
  destruct (follow fuel G b) as [rest'| |] eqn:Hf; simpl; [|done..].
  intros [= <-]. apply run_step; [done|]. by apply IH.
Qed.

Lemma find_direct_sequence_paths_single node :
  find_direct_sequence_paths G [node] =
  (rest ← follow (length (nodes G)) G node;
   Returned (match rest with
             | [] => ∅
             | _ => {[node := node :: rest]}
             end)).
Proof.
  unfold find_direct_sequence_paths. simpl.
  by destruct (follow _ G node) as [[|b rest]| |].
Qed.

(** What [emit_node] does, by the run that starts at the node. *)
Lemma emit_node_run processed_nodes out node :
  emit_node G (processed_nodes, out) node =
  (rest ← follow (length (nodes G)) G node;
   Returned (match rest with
             | [] => ({[node]} ∪ processed_nodes, out ++ [Node node])
             | _ => (processed_nodes ∪ list_to_set (node :: rest),
                     out ++ [Sequence (Node <$> node :: rest)])
             end)).
Proof.
  unfold emit_node. rewrite find_direct_sequence_paths_single.
  destruct (follow _ G node) as [[|b rest]| |]; simpl; try done.
  by rewrite lookup_singleton_eq.
Qed.

Lemma no_singleton_wrapper_children children :
  length children ≠ 1 → Forall no_singleton_wrapper children →
  no_singleton_wrapper (Sequence children) ∧ no_singleton_wrapper (Parallel children).
Proof.
  intros Hlen Hall.
  assert (forallb no_singleton_wrapper children) as Hb.
  { apply Is_true_true, forallb_forall. intros c Hc%list_elem_of_In.
    rewrite Forall_forall in Hall. apply Is_true_true. by apply Hall. }
  split; simpl; (apply andb_prop_intro; split; [by apply bool_decide_pack|done]).
Qed.

Lemma no_singleton_wrapper_leaves path : Forall no_singleton_wrapper (Node <$> path).
Proof. by apply Forall_fmap, Forall_forall. Qed.

Lemma emit_node_no_singleton st st' node :
  Forall no_singleton_wrapper st.2 →
  emit_node G st node = Returned st' →
  Forall no_singleton_wrapper st'.2.
Proof.
  destruct st as [processed out]. rewrite emit_node_run. simpl. intros Hout.
  destruct (follow _ G node) as [[|b rest]| |]; cbn [mbind outcome_bind];
    intros [= <-]; cbn [snd];
    apply Forall_app; (split; [done|]); apply Forall_singleton; [done|].
  apply no_singleton_wrapper_children;
    [|apply (no_singleton_wrapper_leaves (node :: b :: rest))].
  simpl. lia.
Qed.

Lemma emit_group_no_singleton st st' group :
  Forall no_singleton_wrapper st.2 →
  emit_group G st group = Returned st' →
  Forall no_singleton_wrapper st'.2.
Proof.
  destruct group as [key ns]. unfold emit_group.
  destruct ns as [|n [|n' ns]]; [|apply emit_node_no_singleton|];
    destruct st as [processed out]; simpl; intros Hout [= <-]; simpl;
    rewrite ?app_nil_r; [done|].
  apply Forall_app. split; [done|]. apply (no_singleton_wrapper_leaves (_ :: _ :: _)).
Qed.

Lemma process_layer_no_singleton n_layers st st' il :
  Forall no_singleton_wrapper st.2 →
  process_layer G n_layers st il = Returned st' →
  Forall no_singleton_wrapper st'.2.
Proof.
  destruct il as [i layer], st as [processed structure]. unfold process_layer.
  intros Hst.
  destruct (filter _ layer) as [|node current] eqn:Hcur; [by intros [= <-]|].
  destruct (decide _) as [_|_]; [by apply emit_node_no_singleton|].
  destruct (for_each _ _ _) as [[processed' parallel_children]| |] eqn:Hloop;
    simpl; [|done..].
  pose proof (for_each_invariant (emit_group G)
                (λ s, Forall no_singleton_wrapper s.2) _ (processed, []) _
                (λ x s1 s2 _ H1 H2, emit_group_no_singleton s1 s2 x H1 H2)
                (Forall_nil_2 _) Hloop) as Hpc.
  simpl in Hpc.
  destruct (decide _) as [Hlen|_].
  - intros [= <-]. cbn [snd]. apply Forall_app. split; [done|].
    apply Forall_singleton. apply no_singleton_wrapper_children; [lia|done].
  - destruct parallel_children as [|c [|??]]; intros [= <-]; simpl; [done| |done].
    apply Forall_app. split; [done|]. by apply Forall_singleton, Forall_inv in Hpc.
Qed.
End structurer_items.
Section structurer_result.
Import nx dot2mr.

Lemma generate_component_structure_no_singleton G t :
  generate_component_structure G = Returned (Some t) → no_singleton_wrapper t.
Proof.
  unfold generate_component_structure.
  destruct (topological_generations G) as [layers|e|]; [|by destruct e|done].
  set (loop := for_each (process_layer G (length layers)) _ (∅, [])).
  assert (∀ st, loop = Returned st → Forall no_singleton_wrapper st.2) as Hloop.
  { intros st. apply (for_each_invariant _ (λ s, Forall no_singleton_wrapper s.2));
      [|by constructor].
    intros ?????. by eapply process_layer_no_singleton. }
  assert ((st ← loop;
           let '(_, structure) := st in
           match structure with
           | [item] => Returned (Some item)
           | _ => Returned (Some (Sequence structure))
           end) = Returned (Some t) → no_singleton_wrapper t) as Hfinal.
  { destruct loop as [[processed structure]| |]; simpl; [|done..].
    specialize (Hloop _ eq_refl). simpl in Hloop.
    destruct structure as [|item [|item' structure]]; intros [= <-].
    - done.
    - by inversion Hloop.
    - by apply no_singleton_wrapper_children. }
  destruct layers as [|[|n [|n' layer]] [|layer' layers]]; try exact Hfinal.
  - by intros [= <-].
  - by intros [= <-].
Qed.

Lemma main_no_singleton G t :
  main G = Returned (Some t) → no_singleton_wrapper t.
Proof.
  unfold main.
  destruct (for_each _ _ _) as [component_structures| |] eqn:Hloop; simpl; [|done..].
  assert (Forall (λ o, ∀ t, o = Some t → no_singleton_wrapper t) component_structures)
    as Hall.
  { revert Hloop. apply (for_each_invariant _ (Forall _)); [|by constructor].
    intros c acc acc' _ Hacc.
    destruct (generate_component_structure _) as [o| |] eqn:Hgen; simpl; [|done..].
    intros [= <-]. apply Forall_app. split; [done|]. apply Forall_singleton.
    intros t' ->. by eapply generate_component_structure_no_singleton. }
  destruct component_structures as [|o [|o' os]]; [done| |].
  - destruct o; intros [= <-]. inversion Hall; auto.
  - destruct (mapM id (o :: o' :: os)) as [children|] eqn:Hm; intros [= <-].
    apply mapM_Some in Hm.
    apply no_singleton_wrapper_children.
    + apply Forall2_length in Hm. simpl in Hm. lia.
    + revert Hm Hall. generalize (o :: o' :: os). intros l Hm Hl.
      induction Hm as [|x y l' k Hxy _ IH]; [done|].
      inversion Hl; subst. constructor; auto.
Qed.
End structurer_result.
Lemma main_single_node n :
  dot2mr.main {| nx.nodes := [n]; nx.edges := [] |} = Returned (Some (Node n)).
Proof.
  unfold dot2mr.main, nx.weakly_connected_components. simpl.
  rewrite decide_False by set_solver. simpl.
  unfold nx.subgraph. simpl.
  rewrite filter_cons_True by set_solver. rewrite filter_nil.
  unfold dot2mr.generate_component_structure, nx.topological_generations. simpl.
  unfold nx.in_degree, nx.predecessors. simpl.
  rewrite decide_True by done. rewrite filter_cons_True by done.
  reflexivity.
Qed.

(** ** The layering: [topological_generations] *)

Section kahn_steps.
Import nx.
Context (G : DiGraph) (Hwf : graph_wf G).

Lemma in_degree_count v : in_degree G v = count_into (edges G) v.
Proof. unfold in_degree, predecessors, count_into. by rewrite length_fmap. Qed.

Lemma count_into_snoc P u c v :
  count_into (P ++ [(u, c)]) v =
  (count_into P v + if decide (c = v) then 1 else 0)%Z.
Proof.
  unfold count_into. rewrite filter_app, length_app, Nat2Z.inj_add. f_equal.
  destruct (decide (c = v));
    [rewrite filter_cons_True by done|rewrite filter_cons_False by done]; done.
Qed.

Lemma count_into_lt P u v :
  NoDup P → P ⊆ edges G → (u, v) ∈ edges G → (u, v) ∉ P →
  (count_into P v < in_degree G v)%Z.
Proof.
  intros HP Hsub He Hn. rewrite in_degree_count. unfold count_into.
  assert ((u, v) :: filter (λ e, e.2 = v) P ⊆+ filter (λ e, e.2 = v) (edges G)) as Hs.
  { apply NoDup_submseteq.
    - apply NoDup_cons. split; [rewrite list_elem_of_filter; naive_solver|].
      by apply NoDup_filter.
    - intros x. rewrite elem_of_cons, !list_elem_of_filter.
      intros [->|[? ?]]; auto. }
  apply submseteq_length in Hs. simpl in Hs. lia.
Qed.

Lemma count_into_full P v :
  NoDup P → P ⊆ edges G → count_into P v = in_degree G v →
  ∀ u, (u, v) ∈ edges G → (u, v) ∈ P.
Proof.
  intros HP Hsub Hc u He. destruct (decide ((u, v) ∈ P)) as [|Hn]; [done|].
  pose proof (count_into_lt P u v HP Hsub He Hn). lia.
Qed.

Lemma edge_ends u v : (u, v) ∈ edges G → u ∈ nodes G ∧ v ∈ nodes G.
Proof.
  intros He. destruct Hwf as (_ & _ & Hends).
  rewrite Forall_forall in Hends. apply (Hends _ He).
Qed.

Lemma visit_child_step P Zs m zero u child :
  kahn_inv G P Zs m → (u, child) ∈ edges G → (u, child) ∉ P →
  ∃ m' new, visit_child (m, zero) child = Returned (m', zero ++ new) ∧
    kahn_inv G (P ++ [(u, child)]) (Zs ++ new) m' ∧ new ⊆ [child].
Proof.
  intros (HP & Hsub & HZ & Hm & Hlt & Heq) He Hn.
  destruct (edge_ends _ _ He) as [_ Hc].
  pose proof (count_into_lt P u child HP Hsub He Hn) as Hcnt.
  assert (child ∉ Zs) as HcZ. { intros Hin. apply Heq in Hin as [_ ?]. lia. }
  assert (NoDup (P ++ [(u, child)])) as HP'.
  { apply NoDup_app. split_and!; [done| |apply NoDup_singleton].
    intros x Hx ->%list_elem_of_singleton. done. }
  assert (P ++ [(u, child)] ⊆ edges G) as Hsub'.
  { intros x [?| ->%list_elem_of_singleton]%elem_of_app; auto. }
  unfold visit_child. rewrite Hm, decide_True by done.
  destruct (decide (in_degree G child - count_into P child - 1 = 0)%Z) as [Hz|Hz].
  - exists (delete child m), [child]. split; [done|]. split; [|done].
    split_and!; [done|done| | | |].
    + apply NoDup_app. split_and!; [done| |apply NoDup_singleton].
      intros x Hx ->%list_elem_of_singleton. done.
    + intros v. destruct (decide (v = child)) as [->|Hne].
      * rewrite lookup_delete_eq, decide_False; [done|].
        rewrite elem_of_app, list_elem_of_singleton. naive_solver.
      * rewrite lookup_delete_ne, Hm, count_into_snoc by done.
        rewrite (decide_False (P := child = v)) by done.
        rewrite Z.add_0_r. apply option_eq. intros x.
        repeat case_decide; try done;
          rewrite ?elem_of_app, ?list_elem_of_singleton in *; naive_solver.
    + intros v Hv Hnv. rewrite elem_of_app, list_elem_of_singleton in Hnv.
      rewrite count_into_snoc, decide_False by naive_solver.
      rewrite Z.add_0_r. apply Hlt; naive_solver.
    + intros v [Hv| ->%list_elem_of_singleton]%elem_of_app.
      * rewrite count_into_snoc, decide_False by (intros ->; done).
        rewrite Z.add_0_r. by apply Heq.
      * split; [done|]. rewrite count_into_snoc, decide_True by done. lia.
  - exists (<[child := (in_degree G child - count_into P child - 1)%Z]> m), [].
    rewrite !app_nil_r. split; [done|]. split; [|set_solver].
    split_and!; [done|done|done| | |].
    + intros v. destruct (decide (v = child)) as [->|Hne].
      * rewrite lookup_insert_eq, decide_True by done.
        rewrite count_into_snoc, decide_True by done. f_equal. lia.
      * rewrite lookup_insert_ne, Hm, count_into_snoc by done.
        rewrite (decide_False (P := child = v)) by done.
        by rewrite Z.add_0_r.
    + intros v Hv Hnv. rewrite count_into_snoc.
      destruct (decide (child = v)) as [<-|]; [lia|].
      rewrite Z.add_0_r. by apply Hlt.
    + intros v Hv. rewrite count_into_snoc, decide_False by (intros ->; done).
      rewrite Z.add_0_r. by apply Heq.
Qed.
End kahn_steps.

Section kahn_loop.
Import nx.
Context (G : DiGraph) (Hwf : graph_wf G).

Lemma elem_of_successors u v : v ∈ successors G u ↔ (u, v) ∈ edges G.
Proof.
  unfold successors. rewrite list_elem_of_fmap. split.
  - intros ([a b] & -> & [Ha Hin]%list_elem_of_filter). simpl in *. by subst.
  - intros Hin. exists (u, v). split; [done|]. by apply list_elem_of_filter.
Qed.

Lemma elem_of_predecessors u v : u ∈ predecessors G v ↔ (u, v) ∈ edges G.
Proof.
  unfold predecessors. rewrite list_elem_of_fmap. split.
  - intros ([a b] & -> & [Ha Hin]%list_elem_of_filter). simpl in *. by subst.
  - intros Hin. exists (u, v). split; [done|]. by apply list_elem_of_filter.
Qed.

Lemma NoDup_successors u : NoDup (successors G u).
Proof.
  destruct Hwf as (_ & Hed & _). unfold successors.
  apply NoDup_fmap_2_strong; [|by apply NoDup_filter].
  intros [a b] [c d] [Ha _]%list_elem_of_filter [Hc _]%list_elem_of_filter.
  simpl in *. congruence.
Qed.

Lemma NoDup_predecessors v : NoDup (predecessors G v).
Proof.
  destruct Hwf as (_ & Hed & _). unfold predecessors.
  apply NoDup_fmap_2_strong; [|by apply NoDup_filter].
  intros [a b] [c d] [Ha _]%list_elem_of_filter [Hc _]%list_elem_of_filter.
  simpl in *. congruence.
Qed.

Lemma visit_children_steps u cs : ∀ P Zs m zero,
  kahn_inv G P Zs m → NoDup cs →
  (∀ c, c ∈ cs → (u, c) ∈ edges G ∧ (u, c) ∉ P) →
  ∃ m' new P', for_each visit_child cs (m, zero) = Returned (m', zero ++ new) ∧
    kahn_inv G P' (Zs ++ new) m' ∧ new ⊆ cs ∧
    (∀ e, e ∈ P' ↔ e ∈ P ∨ ∃ c, c ∈ cs ∧ e = (u, c)).
Proof.
  induction cs as [|c cs IH]; intros P Zs m zero Hinv Hnd Hcs.
  - exists m, [], P. rewrite !app_nil_r. split_and!; [done|done|done|].
    intros e. split; [auto|]. intros [?|(c & Hc & _)]; [done|].
    by apply elem_of_nil in Hc.
  - apply NoDup_cons in Hnd as [Hc Hnd].
    destruct (Hcs c) as [He Hn]; [left|].
    destruct (visit_child_step G Hwf P Zs m zero u c Hinv He Hn)
      as (m1 & new1 & Hstep & Hinv1 & Hnew1).
    destruct (IH (P ++ [(u, c)]) (Zs ++ new1) m1 (zero ++ new1) Hinv1 Hnd)
      as (m2 & new2 & P2 & Hloop & Hinv2 & Hnew2 & HP2).
    { intros c' Hc'. destruct (Hcs c') as [? ?]; [by right|]. split; [done|].
      rewrite elem_of_app, list_elem_of_singleton. intros [?|[= ->]]; done. }
    exists m2, (new1 ++ new2), P2. split_and!.
    + rewrite for_each_cons, Hstep. cbn [mbind outcome_bind].
      by rewrite Hloop, app_assoc.
    + by rewrite app_assoc.
    + intros x [Hx|Hx]%elem_of_app.
      * apply Hnew1 in Hx. apply list_elem_of_singleton in Hx as ->. left.
      * right. by apply Hnew2.
    + intros e. rewrite HP2, elem_of_app, list_elem_of_singleton. split.
      * intros [[?| ->]|(c' & Hc' & ->)]; [by left| |].
        -- right. exists c. split; [left|done].
        -- right. exists c'. split; [by right|done].
      * intros [?|(c' & [->|Hc']%elem_of_cons & ->)];
          [by left; left|by left; right|].
        right. by exists c'.
Qed.

Lemma visit_node_step P Zs m zero u :
  kahn_inv G P Zs m → (∀ c, (u, c) ∉ P) →
  ∃ m' new P', visit_node G (m, zero) u = Returned (m', zero ++ new) ∧
    kahn_inv G P' (Zs ++ new) m' ∧ (∀ v, v ∈ new → edge G u v) ∧
    (∀ e, e ∈ P' ↔ e ∈ P ∨ (e ∈ edges G ∧ e.1 = u)).
Proof.
  intros Hinv Hu.
  destruct (visit_children_steps u (successors G u) P Zs m zero Hinv
              (NoDup_successors u)) as (m' & new & P' & Hloop & Hinv' & Hnew & HP').
  { intros c Hc. split; [by apply elem_of_successors|apply Hu]. }
  exists m', new, P'. split_and!; [done|done| |].
  - intros v Hv. apply elem_of_successors. by apply Hnew.
  - intros e. rewrite HP'. split.
    + intros [?|(c & Hc & ->)]; [by left|]. right.
      split; [by apply elem_of_successors|done].
    + intros [?|[He <-]]; [by left|]. right. exists e.2.
      split; [apply elem_of_successors|]; by destruct e.
Qed.

Lemma generation_steps z : ∀ P Zs m zero,
  kahn_inv G P Zs m → NoDup z → (∀ u c, u ∈ z → (u, c) ∉ P) →
  ∃ m' new P', for_each (visit_node G) z (m, zero) = Returned (m', zero ++ new) ∧
    kahn_inv G P' (Zs ++ new) m' ∧
    (∀ v, v ∈ new → ∃ u, u ∈ z ∧ edge G u v) ∧
    (∀ e, e ∈ P' ↔ e ∈ P ∨ (e ∈ edges G ∧ e.1 ∈ z)).
Proof.
  induction z as [|u z IH]; intros P Zs m zero Hinv Hnd Hz.
  - exists m, [], P. rewrite !app_nil_r. split_and!; [done|done| |].
    + intros v Hv. by apply elem_of_nil in Hv.
    + intros e. split; [auto|]. intros [?|[_ He]]; [done|].
      by apply elem_of_nil in He.
  - apply NoDup_cons in Hnd as [Hu Hnd].
    destruct (visit_node_step P Zs m zero u Hinv)
      as (m1 & new1 & P1 & Hstep & Hinv1 & Hnew1 & HP1).
    { intros c. apply Hz. left. }
    destruct (IH P1 (Zs ++ new1) m1 (zero ++ new1) Hinv1 Hnd)
      as (m2 & new2 & P2 & Hloop & Hinv2 & Hnew2 & HP2).
    { intros u' c Hu'. rewrite HP1. intros [Hin|[_ Heq]].
      - revert Hin. apply Hz. by right.
      - simpl in Heq. by subst. }
    exists m2, (new1 ++ new2), P2. split_and!.
    + rewrite for_each_cons, Hstep. cbn [mbind outcome_bind].
      by rewrite Hloop, app_assoc.
    + by rewrite app_assoc.
    + intros v [Hv|Hv]%elem_of_app.
      * exists u. split; [left|by apply Hnew1].
      * destruct (Hnew2 v Hv) as (u' & ? & ?). exists u'. split; [by right|done].
    + intros e. rewrite HP2, HP1, elem_of_cons. naive_solver.
Qed.
End kahn_loop.

Section kahn_result.
Import nx.
Context (G : DiGraph) (Hwf : graph_wf G).

Lemma generations_loop_nil fuel m :
  generations_loop fuel G m [] =
  if decide (m = ∅) then Returned [] else Raised NetworkXUnfeasible.
Proof. by destruct fuel. Qed.

Lemma generations_loop_cons fuel m c z :
  generations_loop (S fuel) G m (c :: z) =
  ('(m', z') ← for_each (visit_node G) (c :: z) (m, []);
   rest ← generations_loop fuel G m' z'; Returned ((c :: z) :: rest)).
Proof. reflexivity. Qed.

Lemma unfollowed_edge P v :
  NoDup P → P ⊆ edges G → (count_into P v < in_degree G v)%Z →
  ∃ u, (u, v) ∈ edges G ∧ (u, v) ∉ P.
Proof.
  intros HP Hsub Hlt.
  destruct (decide (Exists (λ e, e.2 = v ∧ e ∉ P) (edges G))) as [Hex|Hno].
  - apply Exists_exists in Hex as ([u v'] & Hin & Hv & Hn). simpl in Hv; subst. eauto.
  - exfalso. rewrite (in_degree_count G) in Hlt. unfold count_into in Hlt.
    assert (filter (λ e, e.2 = v) (edges G) ⊆+ filter (λ e, e.2 = v) P) as Hs.
    { apply NoDup_submseteq; [apply NoDup_filter, Hwf|].
      intros e [He Hin]%list_elem_of_filter. apply list_elem_of_filter.
      split; [done|]. destruct (decide (e ∈ P)); [done|].
      exfalso. apply Hno, Exists_exists. eauto. }
    apply submseteq_length in Hs. lia.
Qed.

Lemma generations_loop_end fuel D m P :
  kahn_inv G P D m → (∀ e, e ∈ P ↔ e ∈ edges G ∧ e.1 ∈ D) →
  (generations_loop fuel G m [] = Returned [] ∧ NoDup D ∧
     (∀ v, v ∈ nodes G ↔ v ∈ D)) ∨
  (generations_loop fuel G m [] = Raised NetworkXUnfeasible ∧
     ∃ S, S ≠ [] ∧ ∀ x, x ∈ S → ∃ y, y ∈ S ∧ edge G y x).
Proof.
  intros (HPn & Hsub & HZ & Hm & Hlt & Heq) HP. rewrite generations_loop_nil.
  destruct (decide (m = ∅)) as [->|Hne].
  - left. split_and!; [done|done|].
    intros v. split; [|intros Hv; by apply Heq in Hv as [? _]].
    intros Hv. destruct (decide (v ∈ D)) as [|Hn]; [done|].
    specialize (Hm v). rewrite lookup_empty, decide_True in Hm; done.
  - right. split; [done|]. exists (filter (λ v, v ∉ D) (nodes G)). split.
    + apply map_choose in Hne as (i & x & Hix). rewrite Hm in Hix.
      case_decide as Hi; [|done]. intros Hnil.
      assert (i ∈ filter (λ v, v ∉ D) (nodes G)) as Hin
        by (apply list_elem_of_filter; naive_solver).
      rewrite Hnil in Hin. by apply elem_of_nil in Hin.
    + intros x [HxD Hx]%list_elem_of_filter.
      destruct (unfollowed_edge P x HPn Hsub (Hlt x Hx HxD)) as (u & He & Hn).
      exists u. split; [|done]. apply list_elem_of_filter. split.
      * intros HuD. apply Hn, HP. done.
      * by apply (edge_ends G Hwf) in He as [? _].
Qed.

Lemma generations_loop_spec fuel : ∀ D z m P,
  kahn_inv G P (D ++ z) m → (∀ e, e ∈ P ↔ e ∈ edges G ∧ e.1 ∈ D) →
  length (nodes G) < length D + fuel →
  (∃ layers, generations_loop fuel G m z = Returned layers ∧
     layered G D layers ∧ NoDup (D ++ concat layers) ∧
     (∀ v, v ∈ nodes G ↔ v ∈ D ++ concat layers)) ∨
  (generations_loop fuel G m z = Raised NetworkXUnfeasible ∧
     ∃ S, S ≠ [] ∧ ∀ x, x ∈ S → ∃ y, y ∈ S ∧ edge G y x).
Proof.
  assert (∀ fuel D m P,
    kahn_inv G P (D ++ []) m → (∀ e, e ∈ P ↔ e ∈ edges G ∧ e.1 ∈ D) →
    (∃ layers, generations_loop fuel G m [] = Returned layers ∧
       layered G D layers ∧ NoDup (D ++ concat layers) ∧
       (∀ v, v ∈ nodes G ↔ v ∈ D ++ concat layers)) ∨
    (generations_loop fuel G m [] = Raised NetworkXUnfeasible ∧
       ∃ S, S ≠ [] ∧ ∀ x, x ∈ S → ∃ y, y ∈ S ∧ edge G y x)) as Hend.
  { intros fuel' D m P Hinv HP. rewrite app_nil_r in Hinv.
    destruct (generations_loop_end fuel' D m P Hinv HP)
      as [(Hr & Hnd & Hall)|[Hr Hstuck]]; [|by right].
    left. exists []. simpl. rewrite app_nil_r. by split_and!. }
  induction fuel as [|fuel IH]; intros D z m P Hinv HP Hfuel;
    pose proof Hinv as (HPn & Hsub & HZ & Hm & Hlt & Heq);
    (destruct z as [|c z]; [by apply (Hend _ D m P)|]).
  - exfalso. assert (D ++ c :: z ⊆+ nodes G) as Hs.
    { apply NoDup_submseteq; [done|]. intros x Hx. by apply Heq. }
    apply submseteq_length in Hs. rewrite length_app in Hs. simpl in Hs. lia.
  - apply NoDup_app in HZ as HZ'. destruct HZ' as (HD & Hdisj & Hz).
    destruct (generation_steps G Hwf (c :: z) P (D ++ c :: z) m [] Hinv Hz)
      as (m' & new & P' & Hgen & Hinv' & Hnew & HP').
    { intros u t Hu [_ HuD]%HP. simpl in HuD. by apply (Hdisj u). }
    rewrite app_nil_l in Hgen. rewrite generations_loop_cons, Hgen. cbn [mbind outcome_bind].
    destruct (IH (D ++ c :: z) new m' P' Hinv')
      as [(rest & Hrest & Hlay & Hnd & Hall)|[Hr Hstuck]].
    + intros e. rewrite HP', HP, elem_of_app. naive_solver.
    + rewrite length_app. simpl. lia.
    + left. exists ((c :: z) :: rest). rewrite Hrest. split; [done|].
      split_and!.
      * simpl. split_and!; [done| |done].
        intros u v Hv He.
        assert (v ∈ D ++ c :: z) as Hv' by (apply elem_of_app; by right).
        apply Heq in Hv' as [_ Hcnt].
        apply (count_into_full G P v HPn Hsub Hcnt u), HP in He. by destruct He.
      * change (concat ((c :: z) :: rest)) with ((c :: z) ++ concat rest).
        by rewrite app_assoc.
      * intros v. rewrite Hall.
        change (concat ((c :: z) :: rest)) with ((c :: z) ++ concat rest).
        by rewrite app_assoc.
    + right. by rewrite Hr.
Qed.
End kahn_result.

Section cycles.
Context {A : Type} `{EqDecision A}.

Lemma tc_through (R : relation A) (x : A) a b :
  tc (λ y z, R y z ∨ (R y x ∧ R x z)) a b → tc R a b.
Proof.
  induction 1 as [a b [H|[H1 H2]]|a b c [H|[H1 H2]] _ IH].
  - by apply tc_once.
  - by apply tc_l with x, tc_once.
  - by apply tc_l with b.
  - apply tc_l with x; [done|]. by apply tc_l with b.
Qed.

(** A finite non-empty set in which every element has a predecessor
    contains a cycle. *)
Lemma cycle_of_no_source (S : list A) : ∀ (R : relation A),
  S ≠ [] → (∀ x, x ∈ S → ∃ y, y ∈ S ∧ R y x) → ∃ x, tc R x x.
Proof.
  induction S as [|x S IH]; intros R Hne Hpred; [done|].
  destruct (Hpred x) as (w & Hw & Hwx); [left|].
  destruct (decide (w = x)) as [->|Hwne]. { exists x. by apply tc_once. }
  apply elem_of_cons in Hw as [->|Hw]; [done|].
  destruct (IH (λ y z, R y z ∨ (R y x ∧ R x z))) as (v & Hv).
  - intros ->. by apply elem_of_nil in Hw.
  - intros z Hz. destruct (Hpred z) as (y & Hy & Hyz); [by right|].
    apply elem_of_cons in Hy as [->|Hy].
    + exists w. split; [done|]. by right.
    + exists y. split; [done|]. by left.
  - exists v. by apply (tc_through R x).
Qed.
End cycles.

Section kahn_top.
Import nx.
Context (G : DiGraph) (Hwf : graph_wf G).

Lemma in_degree_nonneg v : (0 ≤ in_degree G v)%Z.
Proof. unfold in_degree. lia. Qed.

Lemma fmap_fst_pairing {B C} (f : B → C) (l : list B) :
  ((λ v, (v, f v)) <$> l).*1 = l.
Proof. induction l as [|x l IH]; [done|]. cbn. f_equal. exact IH. Qed.

Lemma initial_kahn_inv :
  kahn_inv G [] (filter (λ v, in_degree G v = 0%Z) (nodes G))
    (list_to_map ((λ v, (v, in_degree G v)) <$>
                  filter (λ v, (0 < in_degree G v)%Z) (nodes G))).
Proof.
  destruct Hwf as (Hn & _ & _).
  split_and!.
  - apply NoDup_nil_2.
  - intros x Hx. by apply elem_of_nil in Hx.
  - by apply NoDup_filter.
  - intros v. case_decide as Hv.
    + destruct Hv as [Hin Hnz]. apply elem_of_list_to_map_1.
      { rewrite fmap_fst_pairing. by apply NoDup_filter. }
      apply list_elem_of_fmap. exists v. split.
      { unfold count_into. simpl. f_equal. lia. }
      apply list_elem_of_filter. split; [|done].
      pose proof (in_degree_nonneg v).
      destruct (decide (in_degree G v = 0%Z)); [|lia].
      exfalso. apply Hnz, list_elem_of_filter. done.
    + apply not_elem_of_list_to_map_1. rewrite fmap_fst_pairing.
      intros [Hpos Hin]%list_elem_of_filter. apply Hv. split; [done|].
      intros [Hz _]%list_elem_of_filter. lia.
  - intros v Hv Hnz. unfold count_into. simpl.
    pose proof (in_degree_nonneg v).
    destruct (decide (in_degree G v = 0%Z)); [|lia].
    exfalso. apply Hnz, list_elem_of_filter. done.
  - intros v [Hz Hin]%list_elem_of_filter. split; [done|].
    unfold count_into. simpl. lia.
Qed.

Lemma topological_generations_spec :
  (∃ layers, topological_generations G = Returned layers ∧
     layered G [] layers ∧ NoDup (concat layers) ∧
     (∀ v, v ∈ nodes G ↔ v ∈ concat layers)) ∨
  (topological_generations G = Raised NetworkXUnfeasible ∧
     ∃ S, S ≠ [] ∧ ∀ x, x ∈ S → ∃ y, y ∈ S ∧ edge G y x).
Proof.
  unfold topological_generations.
  apply (generations_loop_spec G Hwf _ [] _ _ []).
  - apply initial_kahn_inv.
  - intros e. split; [by intros ?%elem_of_nil|by intros [_ ?%elem_of_nil]].
  - simpl. lia.
Qed.

Lemma layered_edge_index layers : ∀ before u v,
  layered G before layers → edge G u v → v ∈ concat layers → u ∉ before →
  layer_index layers u < layer_index layers v.
Proof.
  induction layers as [|z rest IH]; intros before u v Hlay He Hv Hu.
  - by apply elem_of_nil in Hv.
  - destruct Hlay as (_ & Hz & Hrest). simpl.
    destruct (decide (v ∈ z)) as [Hvz|Hvz].
    { exfalso. apply Hu. by apply (Hz u v). }
    change (concat (z :: rest)) with (z ++ concat rest) in Hv.
    apply elem_of_app in Hv as [|Hv]; [done|].
    destruct (decide (u ∈ z)) as [|Huz]; [lia|].
    specialize (IH (before ++ z) u v Hrest He Hv).
    rewrite elem_of_app in IH. assert (¬ (u ∈ before ∨ u ∈ z)) as Hn by tauto.
    specialize (IH Hn). lia.
Qed.

Lemma layered_reaches_index layers u v :
  layered G [] layers → (∀ v, v ∈ nodes G ↔ v ∈ concat layers) →
  reaches G u v → layer_index layers u < layer_index layers v.
Proof.
  intros Hlay Hall. induction 1 as [u v He|u w v He _ IH].
  - eapply layered_edge_index; [done|done| |by intros ?%elem_of_nil].
    apply Hall. by apply (edge_ends G Hwf) in He as [_ ?].
  - etrans; [|exact IH].
    eapply layered_edge_index; [done|done| |by intros ?%elem_of_nil].
    apply Hall. by apply (edge_ends G Hwf) in He as [_ ?].
Qed.

Lemma layered_acyclic layers :
  layered G [] layers → (∀ v, v ∈ nodes G ↔ v ∈ concat layers) → acyclic G.
Proof.
  intros Hlay Hall v Hv.
  pose proof (layered_reaches_index layers v v Hlay Hall Hv). lia.
Qed.

Lemma acyclic_generations :
  acyclic G →
  ∃ layers, topological_generations G = Returned layers ∧
    layered G [] layers ∧ NoDup (concat layers) ∧
    (∀ v, v ∈ nodes G ↔ v ∈ concat layers).
Proof.
  intros Hac. destruct topological_generations_spec
    as [Hret|(_ & S & Hne & Hpred)]; [done|].
  destruct (cycle_of_no_source S (edge G) Hne Hpred) as (x & Hx).
  by apply Hac in Hx.
Qed.

Lemma cyclic_unfeasible v :
  reaches G v v → topological_generations G = Raised NetworkXUnfeasible.
Proof.
  intros Hv. destruct topological_generations_spec
    as [(layers & _ & Hlay & _ & Hall)|[Hr _]]; [|done].
  by apply (layered_acyclic layers Hlay Hall) in Hv.
Qed.
End kahn_top.

(** ** The structurer: every name once *)

Section structurer_runs.
Import nx dot2mr.
Context (G : DiGraph) (Hwf : graph_wf G).
Context (layers : list (list string)).
Context (Hlay : layered G [] layers).
Context (Hnd : NoDup (concat layers)).
Context (Hall : ∀ v, v ∈ nodes G ↔ v ∈ concat layers).

Lemma layer_index_lt (ls : list (list string)) v :
  v ∈ concat ls → layer_index ls v < length ls.
Proof.
  induction ls as [|z ls IH]; [by intros ?%elem_of_nil|].
  change (concat (z :: ls)) with (z ++ concat ls). simpl.
  intros [?|Hv]%elem_of_app; case_decide; try done; try lia.
  apply IH in Hv. lia.
Qed.

Lemma layers_length (ls : list (list string)) before :
  layered G before ls → (length ls ≤ length (concat ls))%nat.
Proof.
  revert before. induction ls as [|z ls IH]; intros before; [done|].
  intros (Hz & _ & Hrest). apply IH in Hrest.
  change (concat (z :: ls)) with (z ++ concat ls). rewrite length_app. simpl.
  destruct z; [done|]. simpl. lia.
Qed.

Lemma link_edge a b : direct_link G a b → edge G a b.
Proof.
  intros [Hs _]. apply (elem_of_successors G). rewrite Hs. left.
Qed.

Lemma link_index a b :
  direct_link G a b → layer_index layers a < layer_index layers b.
Proof.
  intros He%link_edge.
  eapply (layered_edge_index G); [done|done| |by intros ?%elem_of_nil].
  apply Hall. by apply (edge_ends G Hwf) in He as [_ ?].
Qed.

Lemma link_unique a b p : direct_link G a b → edge G p b → p = a.
Proof.
  intros Hl Hp. pose proof (link_edge a b Hl) as Ha. destruct Hl as [_ Hlen].
  apply (elem_of_predecessors G) in Hp, Ha.
  destruct (predecessors G b) as [|q [|??]]; simpl in *; try done.
  apply list_elem_of_singleton in Hp, Ha. congruence.
Qed.

Lemma follow_returns fuel : ∀ n,
  n ∈ nodes G → (length layers ≤ layer_index layers n + fuel + 1)%nat →
  ∃ rest, follow fuel G n = Returned rest.
Proof.
  induction fuel as [|fuel IH]; intros n Hn Hb.
  - destruct (follow_cases G 0 n) as [(b & Hl & _)|[_ ->]]; [|by eexists].
    pose proof (link_index n b Hl) as Hi.
    apply link_edge, (edge_ends G Hwf) in Hl as [_ Hbn].
    apply Hall, layer_index_lt in Hbn. lia.
  - destruct (follow_cases G (S fuel) n) as [(b & Hl & ->)|[_ ->]]; [|by eexists].
    pose proof (link_index n b Hl) as Hi.
    destruct (IH b) as (rest & ->); [|lia|by eexists].
    by apply link_edge, (edge_ends G Hwf) in Hl as [_ Hbn].
Qed.

Lemma follow_total n :
  n ∈ nodes G →
  ∃ rest, follow (length (nodes G)) G n = Returned rest ∧ sequence_run G n rest.
Proof.
  intros Hn. destruct (follow_returns (length (nodes G)) n Hn) as (rest & Hr).
  - pose proof (layers_length layers [] Hlay) as Hlen.
    assert (length (concat layers) ≤ length (nodes G))%nat; [|lia].
    apply submseteq_length, NoDup_submseteq; [done|intros x; apply Hall].
  - exists rest. split; [done|]. by apply (follow_sequence_run G) in Hr.
Qed.
End structurer_runs.

Section structurer_emit.
Import nx dot2mr.
Context (G : DiGraph) (Hwf : graph_wf G).
Context (layers : list (list string)).
Context (Hlay : layered G [] layers).
Context (Hnd : NoDup (concat layers)).
Context (Hall : ∀ v, v ∈ nodes G ↔ v ∈ concat layers).
Context (L z : list string).
Context (Hpred : ∀ u v, v ∈ L ++ z → edge G u v → u ∈ L).
Context (HLz : NoDup (L ++ z)).
Context (Hz : ∀ x, x ∈ z → x ∈ nodes G).

Lemma leaves_app out1 out2 : leaves (out1 ++ out2) = leaves out1 ++ leaves out2.
Proof. unfold leaves. apply bind_app. Qed.

Lemma leaves_of_nodes path : leaves (Node <$> path) = path.
Proof.
  unfold leaves. induction path as [|x path IH]; [done|].
  rewrite fmap_cons, bind_cons, IH. done.
Qed.

Lemma leaves_wrapped path :
  leaves [Sequence (Node <$> path)] = path ∧ leaves [Parallel (Node <$> path)] = path.
Proof.
  unfold leaves. rewrite !bind_cons. cbn [mbind list_bind]. rewrite !app_nil_r.
  split; apply leaves_of_nodes.
Qed.

Lemma run_index n rest :
  sequence_run G n rest →
  Forall (λ x, layer_index layers n < layer_index layers x) rest ∧ NoDup rest.
Proof.
  induction 1 as [n Hn|n b rest Hl Hrun [IH1 IH2]]; [split; constructor|].
  pose proof (link_index G Hwf layers Hlay Hall n b Hl) as Hi. split.
  - constructor; [done|]. eapply Forall_impl; [exact IH1|]. simpl. intros. lia.
  - apply NoDup_cons. split; [|done]. intros Hb.
    rewrite Forall_forall in IH1. apply IH1 in Hb. lia.
Qed.

Lemma run_nodes n rest : sequence_run G n rest → Forall (λ x, x ∈ nodes G) rest.
Proof.
  induction 1 as [|n b rest Hl Hrun IH]; constructor; [|done].
  by apply (link_edge G), (edge_ends G Hwf) in Hl as [_ ?].
Qed.

Lemma run_preds n rest :
  sequence_run G n rest → ∀ x p, x ∈ rest → edge G p x → p ∈ n :: rest.
Proof.
  induction 1 as [|n b rest Hl Hrun IH]; intros x p Hx Hp;
    [by apply elem_of_nil in Hx|].
  apply elem_of_cons in Hx as [->|Hx].
  - rewrite (link_unique G n b p Hl Hp). left.
  - right. by apply (IH x p).
Qed.

Lemma run_fresh (processed : gset string) n rest :
  sequence_run G n rest → n ∉ L → n ∉ processed →
  (∀ x p, x ∈ processed → x ∉ L → edge G p x → p ∈ processed) →
  Forall (λ x, (x ∉ L ++ z) ∧ x ∉ processed) rest.
Proof.
  intros Hrun HnL Hnp Hclosed.
  induction Hrun as [|n b rest Hl Hrun IH]; [constructor|].
  pose proof (link_edge G n b Hl) as He.
  assert (b ∉ L ++ z) as HbLz. { intros Hb. apply HnL. by apply (Hpred n b). }
  assert (b ∉ L) as HbL. { intros Hb. apply HbLz, elem_of_app. by left. }
  assert (b ∉ processed) as Hbp. { intros Hb. apply Hnp. by apply (Hclosed b n). }
  constructor; [done|]. by apply IH.
Qed.

Lemma emit_node_structured base processed out n :
  structured G L base (processed, out) → n ∈ z → n ∉ processed →
  ∃ st' rest, emit_node G (processed, out) n = Returned st' ∧
    structured G L base st' ∧
    Forall (λ x, x ∉ L ++ z) rest ∧
    (∀ x, x ∈ st'.1 ↔ x ∈ processed ∨ x ∈ n :: rest).
Proof.
  intros (Hnd1 & Hin & HL & Hclosed & Hnodes) Hn Hnp. cbn [fst snd] in *.
  destruct (follow_total G Hwf layers Hlay Hnd Hall n (Hz n Hn)) as (rest & Hf & Hrun).
  assert (n ∉ L) as HnL.
  { intros HnL. apply NoDup_app in HLz as (_ & Hd & _). by apply (Hd n). }
  pose proof (run_fresh processed n rest Hrun HnL Hnp Hclosed) as Hfresh.
  pose proof (run_index n rest Hrun) as [Hidx Hndr].
  pose proof (run_nodes n rest Hrun) as Hrn.
  pose proof (run_preds n rest Hrun) as Hrp.
  rewrite Forall_forall in Hfresh, Hidx, Hrn.
  rewrite emit_node_run, Hf. cbn [mbind outcome_bind].
  match goal with |- ∃ _ _, Returned ?s = _ ∧ _ => set (st' := s) end.
  assert (leaves st'.2 = leaves out ++ n :: rest) as Hleaves.
  { unfold st'. destruct rest as [|b rest']; cbn [snd]; rewrite leaves_app; f_equal.
    apply (leaves_wrapped (n :: b :: rest')). }
  assert (∀ x, x ∈ st'.1 ↔ x ∈ processed ∨ x ∈ n :: rest) as Hproc.
  { unfold st'. destruct rest; cbn [fst]; set_solver. }
  exists st', rest. split; [done|]. split; [|split; [|done]].
  - unfold structured. rewrite Hleaves. split_and!.
    + rewrite app_assoc. apply NoDup_app. split_and!; [done| |].
      * intros x Hx%Hin [->|Hr]%elem_of_cons; [done|]. by apply Hfresh in Hr as [_ ?].
      * apply NoDup_cons. split; [|done]. intros Hr%Hidx. lia.
    + intros x. rewrite Hproc, app_assoc, (elem_of_app _ (n :: rest)), Hin. done.
    + intros x Hx. apply Hproc. left. by apply HL.
    + intros x p Hx HxL He. apply Hproc. apply Hproc in Hx as [Hx|Hx].
      * left. by apply (Hclosed x p).
      * apply elem_of_cons in Hx as [->|Hx].
        -- left. apply HL. apply (Hpred p n); [apply elem_of_app; by right|done].
        -- right. by apply (Hrp x p).
    + intros x [Hx|Hx]%Hproc; [by apply Hnodes|].
      apply elem_of_cons in Hx as [->|Hx]; [by apply Hz|]. by apply Hrn.
  - apply Forall_forall. intros x Hx. by apply Hfresh in Hx as [? _].
Qed.

Lemma group_add_nodes key node groups :
  concat (group_add key node groups).*2 ≡ₚ concat groups.*2 ++ [node].
Proof.
  induction groups as [|[k ns] groups IH]; [done|]. simpl.
  case_decide; simpl.
  - rewrite <- !app_assoc. f_equiv. apply Permutation_app_comm.
  - rewrite IH. by rewrite app_assoc.
Qed.

Lemma successor_groups_nodes current_layer :
  concat (successor_groups G current_layer).*2 ≡ₚ current_layer.
Proof.
  unfold successor_groups.
  assert (∀ l groups,
    concat (foldl (λ groups node,
                     group_add (merge_sort String.le (successors G node)) node groups)
                  groups l).*2 ≡ₚ concat groups.*2 ++ l) as Hfold.
  { induction l as [|x l IH]; intros groups; simpl; [by rewrite app_nil_r|].
    rewrite IH, group_add_nodes. by rewrite <- app_assoc. }
  apply (Hfold current_layer []).
Qed.

Lemma emit_group_structured base st group :
  structured G L base st → NoDup group.2 →
  (∀ x, x ∈ group.2 → x ∈ z ∧ x ∉ st.1) →
  ∃ st' extra, emit_group G st group = Returned st' ∧
    structured G L base st' ∧
    Forall (λ x, x ∉ L ++ z) extra ∧
    (∀ x, x ∈ st'.1 ↔ x ∈ st.1 ∨ x ∈ group.2 ++ extra).
Proof.
  destruct st as [processed out], group as [key ns]. cbn [fst snd].
  intros Hst Hns Hfresh.
  assert (∀ n, ns = [n] →
    ∃ st' extra, emit_node G (processed, out) n = Returned st' ∧
      structured G L base st' ∧ Forall (λ x, x ∉ L ++ z) extra ∧
      (∀ x, x ∈ st'.1 ↔ x ∈ processed ∨ x ∈ ns ++ extra)) as Hone.
  { intros n ->. destruct (Hfresh n) as [Hn Hnp]; [left|].
    destruct (emit_node_structured base processed out n Hst Hn Hnp)
      as (st' & rest & ? & ? & ? & ?). by exists st', rest. }
  assert (∃ st' extra,
    Returned (processed ∪ list_to_set ns, out ++ (Node <$> ns)) = Returned st' ∧
      structured G L base st' ∧ Forall (λ x, x ∉ L ++ z) extra ∧
      (∀ x, x ∈ st'.1 ↔ x ∈ processed ∨ x ∈ ns ++ extra)) as Hmany.
  { destruct Hst as (Hnd1 & Hin & HL & Hclosed & Hnodes). cbn [fst snd] in *.
    eexists _, []. split; [done|]. split; [|split; [constructor|]]; cbn [fst snd].
    - unfold structured. cbn [fst snd]. rewrite leaves_app, leaves_of_nodes.
      split_and!.
      + rewrite app_assoc. apply NoDup_app. split_and!; [done| |done].
        intros x Hx%Hin Hxn. by apply Hfresh in Hxn as [_ ?].
      + intros x. rewrite app_assoc, (elem_of_app _ ns), <- Hin. set_solver.
      + intros x Hx. apply elem_of_union. left. by apply HL.
      + intros x p [Hx|Hx%elem_of_list_to_set]%elem_of_union HxL He;
          apply elem_of_union; left.
        * by apply (Hclosed x p).
        * apply HL, (Hpred p x); [|done]. apply elem_of_app. right.
          by apply Hfresh.
      + intros x [Hx|Hx%elem_of_list_to_set]%elem_of_union; [by apply Hnodes|].
        by apply Hz, Hfresh.
    - intros x. rewrite app_nil_r. set_solver. }
  unfold emit_group. destruct ns as [|n [|n' ns']]; [done|by apply Hone|done].
Qed.

Lemma groups_loop base gs : ∀ st,
  structured G L base st → NoDup (concat gs.*2) →
  (∀ x, x ∈ concat gs.*2 → x ∈ z ∧ x ∉ st.1) →
  ∃ st', for_each (emit_group G) gs st = Returned st' ∧
    structured G L base st' ∧
    (∀ x, x ∈ st.1 → x ∈ st'.1) ∧ (∀ x, x ∈ concat gs.*2 → x ∈ st'.1).
Proof.
  induction gs as [|g gs IH]; intros st Hst Hndg Hfresh.
  - exists st. split_and!; [done|done|done|]. by intros x ?%elem_of_nil.
  - rewrite fmap_cons in Hndg, Hfresh.
    change (concat (g.2 :: gs.*2)) with (g.2 ++ concat gs.*2) in Hndg, Hfresh.
    apply NoDup_app in Hndg as (Hg & Hdisj & Hrest).
    destruct (emit_group_structured base st g Hst Hg)
      as (st1 & extra & Hstep & Hst1 & Hextra & Hproc).
    { intros x Hx. apply Hfresh, elem_of_app. by left. }
    rewrite Forall_forall in Hextra.
    destruct (IH st1 Hst1 Hrest) as (st' & Hloop & Hst' & Hmono & Hdone).
    { intros x Hx. destruct (Hfresh x) as [Hxz Hxp]; [apply elem_of_app; by right|].
      split; [done|]. rewrite Hproc, elem_of_app. intros [?|[Hxg|Hxe]]; [done| |].
      - by apply (Hdisj x).
      - apply (Hextra x Hxe), elem_of_app. by right. }
    exists st'. split_and!; [|done| |].
    + by rewrite for_each_cons, Hstep.
    + intros x Hx. apply Hmono, Hproc. by left.
    + rewrite fmap_cons.
      change (concat (g.2 :: gs.*2)) with (g.2 ++ concat gs.*2).
      intros x [Hx|Hx]%elem_of_app; [|by apply Hdone].
      apply Hmono, Hproc. right. apply elem_of_app. by left.
Qed.

Lemma structured_next st :
  structured G L [] st → (∀ x, x ∈ z → x ∈ st.1) → structured G (L ++ z) [] st.
Proof.
  intros (H1 & H2 & H3 & H4 & H5) Hz'. split_and!; [done|done| | |done].
  - intros x [?|?]%elem_of_app; auto.
  - intros x p Hx HxL. apply H4; [done|]. intros ?. apply HxL, elem_of_app. by left.
Qed.

Lemma process_layer_structured n_layers i st :
  structured G L [] st →
  ∃ st', process_layer G n_layers st (i, z) = Returned st' ∧
    structured G (L ++ z) [] st'.
Proof.
  destruct st as [processed structure]. intros Hst. unfold process_layer.
  remember (filter (λ node, node ∉ processed) z) as current_layer eqn:Hcur.
  assert (∀ x, x ∈ current_layer ↔ (x ∉ processed) ∧ x ∈ z) as Hcl.
  { intros x. rewrite Hcur. by rewrite list_elem_of_filter. }
  assert (NoDup current_layer) as Hndc.
  { rewrite Hcur. apply NoDup_filter. by apply NoDup_app in HLz as (_ & _ & ?). }
  assert (∀ st' : state, (∀ x, x ∈ processed → x ∈ st'.1) →
            (∀ x, x ∈ current_layer → x ∈ st'.1) → ∀ x, x ∈ z → x ∈ st'.1) as Hcover.
  { intros st' Hm Hc x Hx. destruct (decide (x ∈ processed)); [by apply Hm|].
    by apply Hc, Hcl. }
  clear Hcur. destruct current_layer as [|node tl].
  - exists (processed, structure). split; [done|]. apply structured_next; [done|].
    apply Hcover; [done|]. by intros x ?%elem_of_nil.
  - destruct (decide (length (node :: tl) = 1 ∧ i < n_layers - 1)) as [[Hlen _]|_].
    + destruct tl; [|done].
      destruct (emit_node_structured [] processed structure node Hst)
        as (st' & rest & Hem & Hst' & _ & Hproc).
      { apply (Hcl node). left. }
      { apply (Hcl node). left. }
      exists st'. split; [done|]. apply structured_next; [done|]. apply Hcover.
      * intros x Hx. apply Hproc. by left.
      * intros x ->%list_elem_of_singleton. apply Hproc. right. left.
    + destruct (groups_loop (leaves structure) (successor_groups G (node :: tl))
                  (processed, [])) as (st1 & Hloop & Hst1 & Hmono & Hdone).
      * destruct Hst as (H1 & H2 & H3 & H4 & H5). cbn [fst snd] in *.
        split_and!; cbn [fst snd]; try done.
        -- unfold leaves at 2. simpl. by rewrite app_nil_r.
        -- intros x. rewrite H2. unfold leaves at 3. simpl. by rewrite app_nil_r.
      * by rewrite successor_groups_nodes.
      * intros x Hx. rewrite successor_groups_nodes in Hx. apply Hcl in Hx. tauto.
      * rewrite Hloop. cbn [mbind outcome_bind]. destruct st1 as [processed' pc].
        assert (∀ structure', leaves structure' = leaves structure ++ leaves pc →
                  structured G (L ++ z) [] (processed', structure')) as Hfin.
        { intros structure' Hl. apply structured_next.
          - destruct Hst1 as (H1 & H2 & H3 & H4 & H5). cbn [fst snd] in *.
            split_and!; cbn [fst snd]; rewrite ?Hl; done.
          - apply Hcover; [exact Hmono|]. intros x Hx. apply Hdone.
            by rewrite successor_groups_nodes. }
        case_decide.
        -- eexists. split; [done|]. apply Hfin. rewrite leaves_app. f_equal.
           unfold leaves. simpl. by rewrite app_nil_r.
        -- destruct pc as [|child [|??]].
           ++ eexists. split; [done|]. apply Hfin. unfold leaves at 3. simpl.
              by rewrite app_nil_r.
           ++ eexists. split; [done|]. apply Hfin. by rewrite leaves_app.
           ++ simpl in *. lia.
Qed.
End structurer_emit.

Section structurer_layers.
Import nx dot2mr.
Context (G : DiGraph) (Hwf : graph_wf G).
Context (layers : list (list string)).
Context (Hgen : topological_generations G = Returned layers).
Context (Hlay : layered G [] layers).
Context (Hnd : NoDup (concat layers)).
Context (Hall : ∀ v, v ∈ nodes G ↔ v ∈ concat layers).

Lemma layers_loop n_layers ils : ∀ L st,
  layered G L ils.*2 → NoDup (L ++ concat ils.*2) →
  (∀ u v, v ∈ L → edge G u v → u ∈ L) →
  (∀ x, x ∈ concat ils.*2 → x ∈ nodes G) →
  structured G L [] st →
  ∃ st', for_each (process_layer G n_layers) ils st = Returned st' ∧
    structured G (L ++ concat ils.*2) [] st'.
Proof.
  induction ils as [|[i z] ils IH]; intros L st Hl Hn Hpc Hnodes Hst.
  - exists st. simpl. by rewrite app_nil_r.
  - rewrite fmap_cons in Hl, Hn, Hnodes. cbn [snd] in Hl, Hn, Hnodes.
    change (concat (z :: ils.*2)) with (z ++ concat ils.*2) in Hn, Hnodes.
    destruct Hl as (Hzne & Hzp & Hrest). rewrite app_assoc in Hn.
    assert (∀ u v, v ∈ L ++ z → edge G u v → u ∈ L) as Hpred.
    { intros u v [Hv|Hv]%elem_of_app He; [by apply (Hpc u v)|by apply (Hzp u v)]. }
    assert (NoDup (L ++ z)) as HLz by (by apply NoDup_app in Hn as (? & _ & _)).
    assert (∀ x, x ∈ z → x ∈ nodes G) as Hz.
    { intros x Hx. apply Hnodes, elem_of_app. by left. }
    destruct (process_layer_structured G Hwf layers Hlay Hnd Hall L z Hpred HLz Hz
                n_layers i st Hst) as (st1 & Hstep & Hst1).
    destruct (IH (L ++ z) st1 Hrest Hn) as (st' & Hloop & Hst'); [| |done|].
    { intros u v Hv He. apply elem_of_app. left. by apply (Hpred u v). }
    { intros x Hx. apply Hnodes, elem_of_app. by right. }
    exists st'. split; [by rewrite for_each_cons, Hstep|].
    rewrite fmap_cons. cbn [snd].
    change (concat (z :: ils.*2)) with (z ++ concat ils.*2). by rewrite app_assoc.
Qed.

Lemma imap_layers (ls : list (list string)) (f : nat → nat) :
  (imap (λ i layer, (f i, layer)) ls).*2 = ls.
Proof.
  revert f. induction ls as [|z ls IH]; intros f; [done|].
  simpl. f_equal. apply (IH (f ∘ S)).
Qed.

Lemma imap_layers_id (ls : list (list string)) :
  (imap (λ i layer, (i, layer)) ls).*2 = ls.
Proof. apply (imap_layers ls id). Qed.

Lemma structure_loop_leaves n_layers :
  ∃ processed structure,
    for_each (process_layer G n_layers) (imap (λ i layer, (i, layer)) layers) (∅, [])
      = Returned (processed, structure) ∧
    leaves structure ≡ₚ nodes G.
Proof.
  destruct (layers_loop n_layers (imap (λ i layer, (i, layer)) layers) [] (∅, []))
    as ([processed structure] & Hloop & Hst).
  - by rewrite imap_layers_id.
  - by rewrite imap_layers_id.
  - by intros u v ?%elem_of_nil.
  - rewrite imap_layers_id. intros x. apply Hall.
  - unfold structured. cbn [fst snd]. split_and!.
    + apply NoDup_nil_2.
    + intros x. split; [by intros ?%elem_of_empty|by intros ?%elem_of_nil].
    + by intros x ?%elem_of_nil.
    + by intros x p ?%elem_of_empty.
    + by intros x ?%elem_of_empty.
  - exists processed, structure. split; [done|].
    rewrite imap_layers_id in Hst.
    destruct Hst as (H1 & H2 & H3 & _ & H5). cbn [fst snd] in *.
    apply NoDup_Permutation; [done|apply Hwf|].
    intros x. rewrite <- H2. split; [apply H5|]. intros Hx. by apply H3, Hall.
Qed.

Lemma generate_component_structure_leaves :
  nodes G ≠ [] →
  ∃ t, generate_component_structure G = Returned (Some t) ∧
    mr2dot.extract_nodes t ≡ₚ nodes G.
Proof.
  intros Hne. unfold generate_component_structure. rewrite Hgen.
  destruct (structure_loop_leaves (length layers))
    as (processed & structure & Hloop & Hleaves).
  assert (∃ t, ('(_, structure) ← for_each (process_layer G (length layers))
                   (imap (λ i layer, (i, layer)) layers) (∅, []);
                match structure with
                | [item] => Returned (Some item)
                | _ => Returned (Some (Sequence structure))
                end) = Returned (Some t) ∧ mr2dot.extract_nodes t ≡ₚ nodes G) as Hmany.
  { rewrite Hloop. cbn [mbind outcome_bind].
    destruct structure as [|item [|item' structure]]; eexists; (split; [done|]);
      try exact Hleaves.
    unfold leaves in Hleaves. simpl in Hleaves. by rewrite app_nil_r in Hleaves. }
  destruct layers as [|[|n [|n' z]] [|z' ls]] eqn:Hls; try exact Hmany.
  - exfalso. destruct (nodes G) as [|x ?]; [done|].
    assert (x ∈ @nil string) as Hx by (apply Hall; left). by apply elem_of_nil in Hx.
  - exists (Node n). split; [done|]. simpl.
    apply NoDup_Permutation; [apply NoDup_singleton|apply Hwf|].
    intros x. by rewrite Hall.
Qed.
End structurer_layers.

(** ** The structurer: results and failures *)

Lemma generations_acyclic (G : nx.DiGraph) layers :
  nx.graph_wf G → nx.topological_generations G = Returned layers → nx.acyclic G.
Proof.
  intros Hwf Hgen.
  destruct (topological_generations_spec G Hwf)
    as [(layers' & _ & Hlay & _ & Hall)|[Hr _]]; [|congruence].
  by apply (layered_acyclic G Hwf layers').
Qed.

Lemma reaches_node (G : nx.DiGraph) v w :
  nx.graph_wf G → nx.reaches G v w → v ∈ nx.nodes G.
Proof.
  intros Hwf Hr. destruct Hr as [v w He|v u w He _];
    by apply (edge_ends G Hwf) in He as [? _].
Qed.

Lemma generate_component_structure_cases (G : nx.DiGraph) :
  nx.graph_wf G →
  (nx.acyclic G ∧ nx.nodes G = [] ∧
     dot2mr.generate_component_structure G = Returned None) ∨
  (nx.acyclic G ∧ nx.nodes G ≠ [] ∧
     ∃ t, dot2mr.generate_component_structure G = Returned (Some t) ∧
       mr2dot.extract_nodes t ≡ₚ nx.nodes G) ∨
  ((∃ v, nx.reaches G v v) ∧ nx.nodes G ≠ [] ∧
     dot2mr.generate_component_structure G = Raised ValueError).
Proof.
  intros Hwf.
  destruct (topological_generations_spec G Hwf)
    as [(layers & Hgen & Hlay & Hnd & Hall)|(Hr & S & Hne & Hpred)].
  - pose proof (layered_acyclic G Hwf layers Hlay Hall) as Hac.
    destruct (decide (nx.nodes G = [])) as [Hnil|Hne].
    + left. split_and!; [done|done|].
      unfold dot2mr.generate_component_structure. rewrite Hgen.
      destruct layers as [|z ls]; [done|]. exfalso.
      destruct Hlay as (Hz & _). destruct z as [|x z]; [done|].
      assert (x ∈ nx.nodes G) as Hx by (apply Hall; left).
      rewrite Hnil in Hx. by apply elem_of_nil in Hx.
    + right. left. split_and!; [done|done|].
      by apply (generate_component_structure_leaves G Hwf layers).
  - right. right.
    destruct (cycle_of_no_source S (nx.edge G) Hne Hpred) as [v Hv].
    split_and!.
    + by exists v.
    + apply (reaches_node G v v Hwf) in Hv. intros Hnil. rewrite Hnil in Hv.
      by apply elem_of_nil in Hv.
    + unfold dot2mr.generate_component_structure. by rewrite Hr.
Qed.

(** X1. Structuring a graph fails exactly when the graph has a directed
    cycle; the failure is the ValueError raised for the cycle, and the loops
    of the structurer always come to an end. *)
Theorem structuring_fails_exactly_on_cycles (G : nx.DiGraph) :
  nx.graph_wf G →
  (dot2mr.generate_component_structure G = Raised ValueError ↔
     ∃ v, nx.reaches G v v) ∧
  (∀ e, dot2mr.generate_component_structure G = Raised e → e = ValueError) ∧
  dot2mr.generate_component_structure G ≠ Diverged.
Proof.
  intros Hwf.
  destruct (generate_component_structure_cases G Hwf)
    as [(Hac & _ & ->)|[(Hac & _ & t & -> & _)|(Hcyc & _ & ->)]].
  - split_and!; [|done|done]. split; [done|]. intros [v Hv]. by apply Hac in Hv.
  - split_and!; [|done|done]. split; [done|]. intros [v Hv]. by apply Hac in Hv.
  - split_and!; [done| |done]. by intros e [= <-].
Qed.

Lemma structuring_fails_exactly_on_cycles_witness :
  nx.graph_wf triangle_graph ∧
  (dot2mr.generate_component_structure triangle_graph = Raised ValueError ↔
     ∃ v, nx.reaches triangle_graph v v) ∧
  (∀ e, dot2mr.generate_component_structure triangle_graph = Raised e →
     e = ValueError) ∧
  dot2mr.generate_component_structure triangle_graph ≠ Diverged.
Proof.
  assert (nx.graph_wf triangle_graph) as Hwf
    by (apply (bool_decide_unpack _); vm_compute; exact I).
  split; [exact Hwf|].
  apply (structuring_fails_exactly_on_cycles triangle_graph). exact Hwf.
Defined.

(** X2. Every task once: for an acyclic graph with at least one node the
    structurer returns a tree, and the leaves of that tree are the nodes of
    the graph, each exactly once. *)
Theorem structure_holds_every_task_once (G : nx.DiGraph) :
  nx.graph_wf G → nx.acyclic G → nx.nodes G ≠ [] →
  ∃ t, dot2mr.generate_component_structure G = Returned (Some t) ∧
    mr2dot.extract_nodes t ≡ₚ nx.nodes G ∧ NoDup (mr2dot.extract_nodes t).
Proof.
  intros Hwf Hac Hne.
  destruct (generate_component_structure_cases G Hwf)
    as [(_ & Hnil & _)|[(_ & _ & t & Ht & Hperm)|([v Hv] & _)]].
  - done.
  - exists t. split_and!; [done|done|]. rewrite Hperm. apply Hwf.
  - by apply Hac in Hv.
Qed.

Lemma structure_holds_every_task_once_witness :
  nx.graph_wf diamond_graph ∧ nx.acyclic diamond_graph ∧
  nx.nodes diamond_graph ≠ [] ∧
  ∃ t, dot2mr.generate_component_structure diamond_graph = Returned (Some t) ∧
    mr2dot.extract_nodes t ≡ₚ nx.nodes diamond_graph ∧
    NoDup (mr2dot.extract_nodes t).
Proof.
  assert (nx.graph_wf diamond_graph) as Hwf
    by (apply (bool_decide_unpack _); vm_compute; exact I).
  assert (nx.acyclic diamond_graph) as Hac.
  { apply (generations_acyclic diamond_graph [["A"]; ["B"; "C"]; ["D"]] Hwf).
    vm_compute. reflexivity. }
  assert (nx.nodes diamond_graph ≠ []) as Hne by done.
  split_and!; [exact Hwf|exact Hac|exact Hne|].
  apply (structure_holds_every_task_once diamond_graph Hwf Hac Hne).
Defined.

(** X3. The structurer returns no structure ([None]) exactly for the graph
    without nodes. *)
Theorem structure_is_none_exactly_for_the_empty_graph (G : nx.DiGraph) :
  nx.graph_wf G →
  (dot2mr.generate_component_structure G = Returned None ↔ nx.nodes G = []).
Proof.
  intros Hwf.
  destruct (generate_component_structure_cases G Hwf)
    as [(_ & Hnil & ->)|[(_ & Hne & t & -> & _)|(_ & Hne & ->)]]; done.
Qed.

Lemma structure_is_none_exactly_for_the_empty_graph_witness :
  nx.graph_wf {| nx.nodes := []; nx.edges := [] |} ∧
  (dot2mr.generate_component_structure {| nx.nodes := []; nx.edges := [] |}
     = Returned None ↔ nx.nodes {| nx.nodes := []; nx.edges := [] |} = []).
Proof.
  assert (nx.graph_wf {| nx.nodes := []; nx.edges := [] |}) as Hwf
    by (apply (bool_decide_unpack _); vm_compute; exact I).
  split; [exact Hwf|].
  apply (structure_is_none_exactly_for_the_empty_graph _ Hwf).
Defined.

(** ** The flattener: the graph it writes *)

Section flattener_graph.
Import mr2dot.

Lemma entry_nodes_are_leaves t x :
  x ∈ extract_entry_nodes t → x ∈ extract_nodes t.
Proof.
  revert x. induction t as [name|children IH|children IH] using tree_nested_ind;
    intros x; simpl.
  - done.
  - destruct children as [|first rest]; [by intros ?%elem_of_nil|].
    apply Forall_cons in IH as [IH _]. intros Hx%IH.
    apply list_elem_of_bind. exists first. split; [done|left].
  - rewrite !list_elem_of_bind. intros (c & Hx & Hc). exists c. split; [|done].
    rewrite Forall_forall in IH. by apply IH.
Qed.

Lemma generate_edges_within t all_edges exits :
  generate_edges t = Returned (all_edges, exits) →
  within (extract_nodes t) all_edges (default [] exits).
Proof.
  revert all_edges exits.
  induction t as [name|children IH|children IH] using tree_nested_ind;
    intros all_edges exits; try rewrite Forall_forall in IH.
  - intros [= <- <-]. split; [by intros e ?%elem_of_nil|done].
  - cbn [generate_edges extract_nodes].
    apply (for_each_invariant (sequence_body generate_edges)
             (λ st, within (children ≫= extract_nodes) st.1 (default [] st.2))).
    + intros c [edges1 prev] [edges2 exits2] Hc [He Hp]. cbn [fst snd] in *.
      unfold sequence_body.
      destruct (generate_edges c) as [[child_edges exit_nodes]| |] eqn:Hg;
        cbn [mbind outcome_bind]; [|done..].
      destruct (IH c Hc _ _ Hg) as [Hce Hcx].
      assert (∀ x, x ∈ extract_nodes c → x ∈ children ≫= extract_nodes) as Hsub.
      { intros x Hx. apply list_elem_of_bind. by exists c. }
      intros [= <- <-]. split; cbn [fst snd]; [|by intros x ?%Hcx%Hsub].
      assert (∀ e, e ∈ edges1 ++ child_edges →
                e.1 ∈ children ≫= extract_nodes ∧ e.2 ∈ children ≫= extract_nodes)
        as Hboth.
      { intros e [?|[??]%Hce]%elem_of_app; [by apply He|]. split; by apply Hsub. }
      destruct (truthy prev); [|done].
      intros e [?|Hj]%elem_of_app; [by apply Hboth|].
      apply list_elem_of_bind in Hj as (p & Hj & Hpin).
      apply list_elem_of_bind in Hj as (q & ->%list_elem_of_singleton & Hq).
      split; [by apply Hp|]. by apply Hsub, entry_nodes_are_leaves.
    + split; [by intros e ?%elem_of_nil|by intros x ?%elem_of_nil].
  - cbn [generate_edges extract_nodes].
    destruct (for_each (parallel_body generate_edges) children ([], []))
      as [[edges' exits']| |] eqn:Hloop; cbn [mbind outcome_bind]; [|done..].
    intros [= <- <-]. revert Hloop.
    apply (for_each_invariant (parallel_body generate_edges)
             (λ st, within (children ≫= extract_nodes) st.1 st.2)).
    + intros c [edges1 exits1] [edges2 exits2] Hc [He Hp]. cbn [fst snd] in *.
      unfold parallel_body.
      destruct (generate_edges c) as [[child_edges [exit_nodes|]]| |] eqn:Hg;
        cbn [mbind outcome_bind]; [|done..].
      destruct (IH c Hc _ _ Hg) as [Hce Hcx].
      assert (∀ x, x ∈ extract_nodes c → x ∈ children ≫= extract_nodes) as Hsub.
      { intros x Hx. apply list_elem_of_bind. by exists c. }
      intros [= <- <-]. split; cbn [fst snd].
      * intros e [?|[??]%Hce]%elem_of_app; [by apply He|]. split; by apply Hsub.
      * intros x [?|?%Hcx%Hsub]%elem_of_app; [by apply Hp|done].
    + split; [by intros e ?%elem_of_nil|by intros x ?%elem_of_nil].
Qed.

Lemma flatten_graph_wf t g : flatten t = Returned g → nx.graph_wf g.
Proof.
  unfold flatten.
  destruct (generate_edges t) as [[all_edges exits]| |] eqn:Hg;
    cbn [mbind outcome_bind]; [|done..].
  intros [= <-]. destruct (generate_edges_within t _ _ Hg) as [He _].
  split_and!; cbn [nx.nodes nx.edges].
  - apply emitted_nodes_NoDup.
  - rewrite emitted_edges_first_occurrences. apply NoDup_first_occurrences.
  - apply Forall_forall. intros e.
    rewrite emitted_edges_first_occurrences, elem_of_first_occurrences.
    rewrite !elem_of_emitted_nodes. apply He.
Qed.
End flattener_graph.

Section flattener_failure.
Import mr2dot.

Lemma sequence_loop_outcome children : Forall fails_as_predicted children →
  ∀ all_edges prev,
  if existsb extend_fails children
  then for_each (sequence_body generate_edges) children (all_edges, prev)
       = Raised TypeError
  else ∃ all_edges' exits,
         for_each (sequence_body generate_edges) children (all_edges, prev)
         = Returned (all_edges', exits) ∧
         bool_decide (exits = None) =
           foldl (λ _ child, exits_none child) (bool_decide (prev = None)) children.
Proof.
  induction 1 as [|c cs Hc _ IH]; intros all_edges prev; [by eexists _, _|].
  rewrite for_each_cons. cbn [existsb foldl]. unfold fails_as_predicted in Hc.
  destruct (extend_fails c).
  - assert (sequence_body generate_edges (all_edges, prev) c = Raised TypeError)
      as -> by (unfold sequence_body; by rewrite Hc).
    done.
  - destruct Hc as (child_edges & exits & Hg & Hex).
    assert (∃ all_edges',
      sequence_body generate_edges (all_edges, prev) c = Returned (all_edges', exits))
      as [all_edges' ->] by (unfold sequence_body; rewrite Hg; by eexists).
    cbn [mbind outcome_bind orb]. rewrite <- Hex. apply IH.
Qed.

Lemma parallel_loop_outcome children : Forall fails_as_predicted children →
  ∀ all_edges all_exit_nodes,
  if existsb (λ child, extend_fails child || exits_none child) children
  then for_each (parallel_body generate_edges) children (all_edges, all_exit_nodes)
       = Raised TypeError
  else ∃ st, for_each (parallel_body generate_edges) children
               (all_edges, all_exit_nodes) = Returned st.
Proof.
  induction 1 as [|c cs Hc _ IH]; intros all_edges all_exit_nodes; [by eexists|].
  rewrite for_each_cons. cbn [existsb]. unfold fails_as_predicted in Hc.
  destruct (extend_fails c).
  - assert (parallel_body generate_edges (all_edges, all_exit_nodes) c
            = Raised TypeError) as -> by (unfold parallel_body; by rewrite Hc).
    done.
  - destruct Hc as (child_edges & exits & Hg & Hex). rewrite <- Hex.
    destruct exits as [exit_nodes|].
    + assert (parallel_body generate_edges (all_edges, all_exit_nodes) c
              = Returned (all_edges ++ child_edges, all_exit_nodes ++ exit_nodes))
        as -> by (unfold parallel_body; by rewrite Hg).
      cbn [mbind outcome_bind orb]. rewrite bool_decide_false by done. apply IH.
    + assert (parallel_body generate_edges (all_edges, all_exit_nodes) c
              = Raised TypeError) as -> by (unfold parallel_body; by rewrite Hg).
      done.
Qed.

Lemma generate_edges_outcome t : fails_as_predicted t.
Proof.
  induction t as [name|children IH|children IH] using tree_nested_ind;
    unfold fails_as_predicted; cbn [extend_fails exits_none generate_edges].
  - by eexists _, _.
  - apply (sequence_loop_outcome children IH [] None).
  - pose proof (parallel_loop_outcome children IH [] []) as Hloop.
    destruct (existsb _ children); [by rewrite Hloop|].
    destruct Hloop as ([all_edges exits] & ->). by eexists _, _.
Qed.
End flattener_failure.

Section flattener_order.
Import mr2dot.

Lemma before_middle pre l post u v :
  before l u v → before (pre ++ l ++ post) u v.
Proof.
  intros (l1 & l2 & -> & Hu & Hv). exists (pre ++ l1), (l2 ++ post).
  split_and!; [by rewrite <- !app_assoc|..]; apply elem_of_app; auto.
Qed.

Lemma before_join l1 l2 u v : u ∈ l1 → v ∈ l2 → before (l1 ++ l2) u v.
Proof. intros Hu Hv. by exists l1, l2. Qed.

Lemma before_irrefl l v : NoDup l → ¬ before l v v.
Proof.
  intros Hnd (l1 & l2 & -> & H1 & H2).
  apply NoDup_app in Hnd as (_ & Hd & _). by apply (Hd v).
Qed.

Lemma before_trans l u v w :
  NoDup l → before l u v → before l v w → before l u w.
Proof.
  intros Hnd (l1 & l2 & -> & Hu & Hv) (m1 & m2 & Heq & Hv' & Hw).
  apply app_eq_app in Heq as [k [[-> ->]|[-> ->]]].
  - exfalso. apply NoDup_app in Hnd as (_ & Hd & _).
    apply (Hd v); [|done]. apply elem_of_app. by left.
  - exists (l1 ++ k), m2. split; [by rewrite app_assoc|].
    split; [|done]. apply elem_of_app. by left.
Qed.

Lemma sequence_loop_before children :
  Forall (λ t, ∀ all_edges exits,
            generate_edges t = Returned (all_edges, exits) →
            ∀ e, e ∈ all_edges → before (extract_nodes t) e.1 e.2) children →
  ∀ Lp all_edges prev all_edges' exits',
    (∀ e, e ∈ all_edges → before Lp e.1 e.2) →
    (∀ x, x ∈ default [] prev → x ∈ Lp) →
    for_each (sequence_body generate_edges) children (all_edges, prev)
      = Returned (all_edges', exits') →
    ∀ e, e ∈ all_edges' → before (Lp ++ children ≫= extract_nodes) e.1 e.2.
Proof.
  induction 1 as [|c cs Hc _ IH]; intros Lp all_edges prev all_edges' exits' He Hp.
  - intros [= <- <-] e Hin. simpl. rewrite app_nil_r. by apply He.
  - rewrite for_each_cons. unfold sequence_body at 2.
    destruct (generate_edges c) as [[child_edges exit_nodes]| |] eqn:Hg;
      cbn [mbind outcome_bind]; [|done..].
    rewrite bind_cons, app_assoc. apply IH.
    + assert (∀ e, e ∈ all_edges ++ child_edges →
                before (Lp ++ extract_nodes c) e.1 e.2) as Hboth.
      { intros e [Hin|Hin]%elem_of_app.
        - apply (before_middle [] Lp (extract_nodes c)). by apply He.
        - rewrite <- (app_nil_r (extract_nodes c)).
          apply (before_middle Lp (extract_nodes c) []). by apply (Hc _ _ eq_refl). }
      destruct (truthy prev); [|done].
      intros e [?|Hj]%elem_of_app; [by apply Hboth|].
      apply list_elem_of_bind in Hj as (p & Hj & Hpin).
      apply list_elem_of_bind in Hj as (q & ->%list_elem_of_singleton & Hq).
      apply before_join; [by apply Hp|by apply entry_nodes_are_leaves].
    + intros x Hx. apply elem_of_app. right.
      by apply (generate_edges_within c _ _ Hg).
Qed.

Lemma parallel_loop_before children :
  Forall (λ t, ∀ all_edges exits,
            generate_edges t = Returned (all_edges, exits) →
            ∀ e, e ∈ all_edges → before (extract_nodes t) e.1 e.2) children →
  ∀ Lp all_edges all_exit_nodes st',
    (∀ e, e ∈ all_edges → before Lp e.1 e.2) →
    for_each (parallel_body generate_edges) children (all_edges, all_exit_nodes)
      = Returned st' →
    ∀ e, e ∈ st'.1 → before (Lp ++ children ≫= extract_nodes) e.1 e.2.
Proof.
  induction 1 as [|c cs Hc _ IH]; intros Lp all_edges all_exit_nodes st' He.
  - intros [= <-] e Hin. simpl. rewrite app_nil_r. by apply He.
  - rewrite for_each_cons. unfold parallel_body at 2.
    destruct (generate_edges c) as [[child_edges [exit_nodes|]]| |] eqn:Hg;
      cbn [mbind outcome_bind]; [|done..].
    rewrite bind_cons, app_assoc. apply IH.
    intros e [Hin|Hin]%elem_of_app.
    + apply (before_middle [] Lp (extract_nodes c)). by apply He.
    + rewrite <- (app_nil_r (extract_nodes c)).
      apply (before_middle Lp (extract_nodes c) []). by apply (Hc _ _ eq_refl).
Qed.

Lemma generate_edges_before t all_edges exits :
  generate_edges t = Returned (all_edges, exits) →
  ∀ e, e ∈ all_edges → before (extract_nodes t) e.1 e.2.
Proof.
  revert all_edges exits.
  induction t as [name|children IH|children IH] using tree_nested_ind;
    intros all_edges exits.
  - intros [= <- <-] e Hin. by apply elem_of_nil in Hin.
  - cbn [generate_edges extract_nodes]. intros Hloop.
    apply (sequence_loop_before children IH [] [] None all_edges exits);
      [by intros e ?%elem_of_nil|by intros x ?%elem_of_nil|done].
  - cbn [generate_edges extract_nodes].
    destruct (for_each (parallel_body generate_edges) children ([], []))
      as [[edges' exits']| |] eqn:Hloop; cbn [mbind outcome_bind]; [|done..].
    intros [= <- <-].
    apply (parallel_loop_before children IH [] [] [] (edges', exits'));
      [by intros e ?%elem_of_nil|done].
Qed.

Lemma flatten_acyclic t g :
  flatten t = Returned g → NoDup (extract_nodes t) → nx.acyclic g.
Proof.
  unfold flatten.
  destruct (generate_edges t) as [[all_edges exits]| |] eqn:Hg;
    cbn [mbind outcome_bind]; [|done..].
  intros [= <-] Hnd.
  assert (∀ u v, nx.reaches {| nx.nodes := emitted_nodes (extract_nodes t);
                               nx.edges := emitted_edges all_edges |} u v →
            before (extract_nodes t) u v) as Hreach.
  { induction 1 as [u v He|u w v He _ IH].
    - unfold nx.edge in He. cbn [nx.edges] in He.
      rewrite emitted_edges_first_occurrences, elem_of_first_occurrences in He.
      apply (generate_edges_before t _ _ Hg _ He).
    - apply (before_trans _ u w v Hnd); [|done].
      unfold nx.edge in He. cbn [nx.edges] in He.
      rewrite emitted_edges_first_occurrences, elem_of_first_occurrences in He.
      apply (generate_edges_before t _ _ Hg _ He). }
  intros v Hv%Hreach. by apply before_irrefl in Hv.
Qed.
End flattener_order.

(** ** The flattener: results and failures *)

Lemma flatten_outcome (t : tree) :
  if extend_fails t then mr2dot.flatten t = Raised TypeError
  else ∃ g, mr2dot.flatten t = Returned g.
Proof.
  pose proof (generate_edges_outcome t) as Hg. unfold fails_as_predicted in Hg.
  unfold mr2dot.flatten. destruct (extend_fails t).
  - by rewrite Hg.
  - destruct Hg as (all_edges & exits & -> & _). by eexists.
Qed.



(** ** The structurer emits trees the flattener accepts *)

Section structurer_flattens.
Import nx dot2mr.
Context (G : DiGraph).

Lemma flattens_leaves path : Forall flattens (Node <$> path).
Proof. induction path; constructor; done. Qed.

Lemma exits_of_leaves path b :
  foldl (λ _ child, exits_none child) b (Node <$> path) =
  match path with [] => b | _ => false end.
Proof.
  revert b. induction path as [|x path IH]; intros b; [done|].
  rewrite fmap_cons. cbn [foldl]. rewrite IH. by destruct path.
Qed.

Lemma flattens_run path : path ≠ [] → flattens (Sequence (Node <$> path)).
Proof.
  intros Hne. split; cbn [extend_fails exits_none].
  - clear Hne. induction path as [|x path IH]; [done|]. by rewrite fmap_cons.
  - rewrite exits_of_leaves. by destruct path.
Qed.

Lemma flattens_parallel children :
  Forall flattens children → flattens (Parallel children).
Proof.
  intros Hall. split; [|done]. cbn [extend_fails].
  induction Hall as [|c cs [H1 H2] _ IH]; [done|]. cbn [existsb]. by rewrite H1, H2.
Qed.

Lemma emit_node_flattens st st' node :
  Forall flattens st.2 → emit_node G st node = Returned st' →
  Forall flattens st'.2.
Proof.
  destruct st as [processed out]. rewrite emit_node_run. cbn [snd]. intros Hout.
  destruct (follow _ G node) as [[|b rest]| |]; cbn [mbind outcome_bind];
    intros [= <-]; cbn [snd];
    apply Forall_app; (split; [done|]); apply Forall_singleton; [done|].
  by apply (flattens_run (node :: b :: rest)).
Qed.

Lemma emit_group_flattens st st' group :
  Forall flattens st.2 → emit_group G st group = Returned st' →
  Forall flattens st'.2.
Proof.
  destruct group as [key ns]. unfold emit_group.
  destruct ns as [|n [|n' ns]]; [|apply emit_node_flattens|];
    destruct st as [processed out]; cbn [snd]; intros Hout [= <-]; cbn [snd].
  - by rewrite app_nil_r.
  - apply Forall_app. split; [done|]. apply (flattens_leaves (_ :: _ :: _)).
Qed.

Lemma process_layer_flattens n_layers st st' il :
  Forall flattens st.2 → process_layer G n_layers st il = Returned st' →
  Forall flattens st'.2.
Proof.
  destruct il as [i layer], st as [processed structure]. unfold process_layer.
  cbn [snd]. intros Hst.
  destruct (filter _ layer) as [|node current] eqn:Hcur; [by intros [= <-]|].
  destruct (decide _) as [_|_]; [by apply emit_node_flattens|].
  destruct (for_each _ _ _) as [[processed' parallel_children]| |] eqn:Hloop;
    cbn [mbind outcome_bind]; [|done..].
  pose proof (for_each_invariant (emit_group G)
                (λ s, Forall flattens s.2) _ (processed, []) _
                (λ x s1 s2 _ H1 H2, emit_group_flattens s1 s2 x H1 H2)
                (Forall_nil_2 _) Hloop) as Hpc.
  cbn [snd] in Hpc.
  destruct (decide _) as [Hlen|_].
  - intros [= <-]. cbn [snd]. apply Forall_app. split; [done|].
    by apply Forall_singleton, flattens_parallel.
  - destruct parallel_children as [|c [|??]]; intros [= <-]; cbn [snd]; [done| |done].
    apply Forall_app. split; [done|]. by apply Forall_singleton, Forall_inv in Hpc.
Qed.

Lemma generate_component_structure_flattens t :
  generate_component_structure G = Returned (Some t) → extend_fails t = false.
Proof.
  unfold generate_component_structure.
  destruct (topological_generations G) as [layers|e|]; [|by destruct e|done].
  set (loop := for_each (process_layer G (length layers)) _ (∅, [])).
  assert (∀ st, loop = Returned st → Forall flattens st.2) as Hloop.
  { intros st. apply (for_each_invariant _ (λ s, Forall flattens s.2));
      [|by constructor].
    intros ?????. by eapply process_layer_flattens. }
  assert ((st ← loop;
           let '(_, structure) := st in
           match structure with
           | [item] => Returned (Some item)
           | _ => Returned (Some (Sequence structure))
           end) = Returned (Some t) → extend_fails t = false) as Hfinal.
  { destruct loop as [[processed structure]| |]; cbn [mbind outcome_bind]; [|done..].
    specialize (Hloop _ eq_refl). cbn [snd] in Hloop.
    assert (extend_fails (Sequence structure) = false) as Hseq.
    { cbn [extend_fails]. clear -Hloop.
      induction Hloop as [|c cs [H1 _] _ IH]; [done|]. cbn [existsb]. by rewrite H1. }
    destruct structure as [|item [|item' structure]]; intros [= <-]; [done| |done].
    apply Forall_inv in Hloop. apply Hloop. }
  destruct layers as [|[|n [|n' layer]] [|layer' layers]]; try exact Hfinal.
  - by intros [= <-].
  - by intros [= <-].
Qed.
End structurer_flattens.

(** ** Round trips on the names *)

Lemma emitted_nodes_distinct (l : list string) :
  NoDup l → mr2dot.emitted_nodes l ≡ₚ l.
Proof.
  intros Hnd. apply NoDup_Permutation; [apply emitted_nodes_NoDup|done|].
  intros x. apply elem_of_emitted_nodes.
Qed.

(** X7. Flattening the structure of a graph gives back the nodes of the
    graph: for an acyclic graph with at least one node the structurer returns
    a tree, the flattener accepts this tree, and the graph it writes has the
    nodes of the input, in ascending order. *)
Theorem flatten_of_structure_keeps_the_nodes (G : nx.DiGraph) :
  nx.graph_wf G → nx.acyclic G → nx.nodes G ≠ [] →
  ∃ t g, dot2mr.generate_component_structure G = Returned (Some t) ∧
    mr2dot.flatten t = Returned g ∧
    nx.nodes g ≡ₚ nx.nodes G ∧ Sorted String.le (nx.nodes g).
Proof.
  intros Hwf Hac Hne.
  destruct (generate_component_structure_cases G Hwf)
    as [(_ & Hnil & _)|[(_ & _ & t & Ht & Hperm)|([v Hv] & _)]];
    [done| |by apply Hac in Hv].
  pose proof (generate_component_structure_flattens G t Ht) as Hok.
  pose proof (flatten_outcome t) as Hf. rewrite Hok in Hf. destruct Hf as (g & Hg).
  exists t, g. split_and!; [done|done|..];
    unfold mr2dot.flatten in Hg;
    destruct (mr2dot.generate_edges t) as [[all_edges exits]| |]; try done;
    injection Hg as <-; cbn [nx.nodes].
  - rewrite emitted_nodes_distinct; [done|]. rewrite Hperm. apply Hwf.
  - apply emitted_nodes_sorted.
Qed.

Lemma flatten_of_structure_keeps_the_nodes_witness :
  nx.graph_wf diamond_graph ∧ nx.acyclic diamond_graph ∧
  nx.nodes diamond_graph ≠ [] ∧
  ∃ t g, dot2mr.generate_component_structure diamond_graph = Returned (Some t) ∧
    mr2dot.flatten t = Returned g ∧
    nx.nodes g ≡ₚ nx.nodes diamond_graph ∧ Sorted String.le (nx.nodes g).
Proof.
  assert (nx.graph_wf diamond_graph) as Hwf
    by (apply (bool_decide_unpack _); vm_compute; exact I).
  assert (nx.acyclic diamond_graph) as Hac.
  { apply (generations_acyclic diamond_graph [["A"]; ["B"; "C"]; ["D"]] Hwf).
    vm_compute. reflexivity. }
  assert (nx.nodes diamond_graph ≠ []) as Hne by done.
  split_and!; [exact Hwf|exact Hac|exact Hne|].
  apply (flatten_of_structure_keeps_the_nodes diamond_graph Hwf Hac Hne).
Defined.

(** X8. Structuring the flattened graph of a tree gives back the names of the
    tree: if the leaves of a tree the flattener accepts are distinct and there
    is one at least, the graph written for the tree is structured without
    error, into a tree with the same leaves. *)
Theorem structure_of_flatten_keeps_the_leaves (t : tree) :
  extend_fails t = false → NoDup (mr2dot.extract_nodes t) →
  mr2dot.extract_nodes t ≠ [] →
  ∃ g t', mr2dot.flatten t = Returned g ∧
    dot2mr.generate_component_structure g = Returned (Some t') ∧
    mr2dot.extract_nodes t' ≡ₚ mr2dot.extract_nodes t.
Proof.
  intros Hok Hnd Hne.
  pose proof (flatten_outcome t) as Hf. rewrite Hok in Hf. destruct Hf as (g & Hg).
  pose proof (flatten_graph_wf t g Hg) as Hwf.
  pose proof (flatten_acyclic t g Hg Hnd) as Hac.
  assert (nx.nodes g ≡ₚ mr2dot.extract_nodes t) as Hnodes.
  { unfold mr2dot.flatten in Hg.
    destruct (mr2dot.generate_edges t) as [[all_edges exits]| |]; try done.
    injection Hg as <-. cbn [nx.nodes]. by apply emitted_nodes_distinct. }
  destruct (generate_component_structure_cases g Hwf)
    as [(_ & Hnil & _)|[(_ & _ & t' & Ht' & Hperm)|([v Hv] & _)]].
  - rewrite Hnil in Hnodes. by apply Permutation_nil_l in Hnodes.
  - exists g, t'. split_and!; [done|done|]. by rewrite Hperm.
  - by apply Hac in Hv.
Qed.

Lemma structure_of_flatten_keeps_the_leaves_witness :
  extend_fails diamond_tree = false ∧ NoDup (mr2dot.extract_nodes diamond_tree) ∧
  mr2dot.extract_nodes diamond_tree ≠ [] ∧
  ∃ g t', mr2dot.flatten diamond_tree = Returned g ∧
    dot2mr.generate_component_structure g = Returned (Some t') ∧
    mr2dot.extract_nodes t' ≡ₚ mr2dot.extract_nodes diamond_tree.
Proof.
  assert (NoDup (mr2dot.extract_nodes diamond_tree)) as Hnd
    by (apply (bool_decide_unpack _); vm_compute; exact I).
  assert (mr2dot.extract_nodes diamond_tree ≠ []) as Hne by done.
  split_and!; [reflexivity|exact Hnd|exact Hne|].
  apply (structure_of_flatten_keeps_the_leaves diamond_tree eq_refl Hnd Hne).
Defined.

(** ** Sequence runs *)

Section sequence_paths.
Import nx dot2mr.
Context (G : DiGraph) (Hwf : graph_wf G) (Hac : acyclic G).

Lemma run_unique n rest1 rest2 :
  sequence_run G n rest1 → sequence_run G n rest2 → rest1 = rest2.
Proof.
  intros H1. revert rest2.
  induction H1 as [n Hn|n b rest Hl _ IH]; intros rest2 H2.
  - destruct H2 as [|n b' rest' Hl' _]; [done|]. by apply Hn in Hl'.
  - destruct H2 as [n Hn|n b' rest' Hl' H2]; [by apply Hn in Hl|].
    destruct Hl as [Hs _], Hl' as [Hs' _]. rewrite Hs in Hs'.
    injection Hs' as <-. f_equal. by apply IH.
Qed.

Lemma run_distinct n rest : sequence_run G n rest → NoDup (n :: rest).
Proof.
  intros Hrun.
  destruct (acyclic_generations G Hwf Hac) as (layers & _ & Hlay & Hnd & Hall).
  destruct (run_index G Hwf layers Hlay Hall n rest Hrun) as [Hidx Hndr].
  apply NoDup_cons. split; [|done]. intros Hin.
  rewrite Forall_forall in Hidx. apply Hidx in Hin. lia.
Qed.

Lemma sequence_paths_step (sequence_paths : gmap string (list string)) node :
  node ∈ nodes G →
  ∃ rest, sequence_run G node rest ∧
    (rest ← follow (length (nodes G)) G node;
     let path := node :: rest in
     if decide (1 < length path)
     then Returned (<[node := path]> sequence_paths)
     else Returned sequence_paths) =
    Returned (match rest with
              | [] => sequence_paths
              | _ => <[node := node :: rest]> sequence_paths
              end).
Proof.
  intros Hn.
  destruct (acyclic_generations G Hwf Hac) as (layers & _ & Hlay & Hnd & Hall).
  destruct (follow_total G Hwf layers Hlay Hnd Hall node Hn) as (rest & -> & Hrun).
  exists rest. split; [done|]. cbn [mbind outcome_bind].
  destruct rest as [|b rest]; [done|]. rewrite decide_True; [done|]. simpl. lia.
Qed.

Lemma find_direct_sequence_paths_runs start_nodes :
  (∀ s, s ∈ start_nodes → s ∈ nodes G) →
  ∃ sequence_paths,
    find_direct_sequence_paths G start_nodes = Returned sequence_paths ∧
    ∀ s path, sequence_paths !! s = Some path ↔
      s ∈ start_nodes ∧ ∃ rest, path = s :: rest ∧ rest ≠ [] ∧ sequence_run G s rest.
Proof.
  unfold find_direct_sequence_paths.
  induction start_nodes as [|x p IH] using rev_ind; intros Hin.
  - exists ∅. split; [done|]. intros s path. rewrite lookup_empty.
    split; [done|]. by intros [?%elem_of_nil _].
  - destruct IH as (m & Hm & Hchar).
    { intros s Hs. apply Hin, elem_of_app. by left. }
    rewrite for_each_app, Hm. cbn [mbind outcome_bind]. rewrite for_each_cons.
    destruct (sequence_paths_step m x) as (rest & Hrun & Hstep).
    { apply Hin, elem_of_app. right. left. }
    cbv beta zeta. cbv zeta in Hstep. rewrite Hstep. cbn [mbind outcome_bind]. rewrite for_each_nil. eexists. split; [done|].
    intros s path. rewrite elem_of_app, list_elem_of_singleton.
    destruct rest as [|b rest].
    + rewrite Hchar. split; [naive_solver|].
      intros ([?| ->] & rest' & -> & Hne & Hrun'); [naive_solver|].
      by rewrite (run_unique x [] rest' Hrun Hrun') in Hne.
    + destruct (decide (s = x)) as [->|Hne].
      * rewrite lookup_insert_eq. split.
        -- intros [= <-]. split; [by right|]. by exists (b :: rest).
        -- intros (_ & rest' & -> & _ & Hrun').
           by rewrite (run_unique x _ _ Hrun Hrun').
      * rewrite lookup_insert_ne by done. rewrite Hchar. naive_solver.
Qed.
End sequence_paths.

(** X9. On an acyclic graph [find_direct_sequence_paths] always returns, and
    the map it returns has an entry exactly for the start nodes that are
    directly followed by another node (one successor, which has one
    predecessor); the entry is the maximal run of such direct links from the
    start node, and no node occurs twice in it. *)
Theorem find_direct_sequence_paths_gives_the_maximal_runs
    (G : nx.DiGraph) (start_nodes : list string) :
  nx.graph_wf G → nx.acyclic G → (∀ s, s ∈ start_nodes → s ∈ nx.nodes G) →
  ∃ sequence_paths,
    dot2mr.find_direct_sequence_paths G start_nodes = Returned sequence_paths ∧
    (∀ s path, sequence_paths !! s = Some path ↔
       s ∈ start_nodes ∧
       ∃ rest, path = s :: rest ∧ rest ≠ [] ∧ sequence_run G s rest) ∧
    (∀ s path, sequence_paths !! s = Some path → NoDup path).
Proof.
  intros Hwf Hac Hin.
  destruct (find_direct_sequence_paths_runs G Hwf Hac start_nodes Hin)
    as (m & Hm & Hchar).
  exists m. split_and!; [done|done|].
  intros s path (_ & rest & -> & _ & Hrun)%Hchar.
  by apply (run_distinct G Hwf Hac).
Qed.

Lemma find_direct_sequence_paths_gives_the_maximal_runs_witness :
  nx.graph_wf chain_graph ∧ nx.acyclic chain_graph ∧
  (∀ s, s ∈ ["A"; "C"] → s ∈ nx.nodes chain_graph) ∧
  ∃ sequence_paths,
    dot2mr.find_direct_sequence_paths chain_graph ["A"; "C"]
      = Returned sequence_paths ∧
    (∀ s path, sequence_paths !! s = Some path ↔
       s ∈ ["A"; "C"] ∧
       ∃ rest, path = s :: rest ∧ rest ≠ [] ∧ sequence_run chain_graph s rest) ∧
    (∀ s path, sequence_paths !! s = Some path → NoDup path).
Proof.
  assert (nx.graph_wf chain_graph) as Hwf
    by (apply (bool_decide_unpack _); vm_compute; exact I).
  assert (nx.acyclic chain_graph) as Hac.
  { apply (generations_acyclic chain_graph [["A"]; ["B"]; ["C"]; ["D"]] Hwf).
    vm_compute. reflexivity. }
  assert (∀ s, s ∈ ["A"; "C"] → s ∈ nx.nodes chain_graph) as Hin.
  { intros s Hs. apply (bool_decide_unpack _).
    apply elem_of_cons in Hs as [->|Hs]; [vm_compute; exact I|].
    apply elem_of_cons in Hs as [->|Hs]; [vm_compute; exact I|].
    by apply elem_of_nil in Hs. }
  split_and!; [exact Hwf|exact Hac|exact Hin|].
  apply (find_direct_sequence_paths_gives_the_maximal_runs
           chain_graph ["A"; "C"] Hwf Hac Hin).
Defined.

(** ** The groups of a layer *)

Section groups.
Import nx dot2mr described.
Context (G : DiGraph).

Lemma first_occurrences_snoc {A} `{EqDecision A} (l : list A) (x : A) :
  first_occurrences (l ++ [x]) =
  if decide (x ∈ l) then first_occurrences l else first_occurrences l ++ [x].
Proof.
  induction l as [|a l IH]; [done|].
  cbn [app first_occurrences]. rewrite IH.
  destruct (decide (x = a)) as [->|Hne].
  - rewrite (decide_True (P := a ∈ a :: l)) by left.
    destruct (decide (a ∈ l)); [done|].
    rewrite filter_app, filter_cons_False, filter_nil, app_nil_r; [done|].
    by intros ?.
  - destruct (decide (x ∈ l)) as [Hin|Hin].
    + by rewrite decide_True by (by right).
    + rewrite decide_False by (by intros [?|?]%elem_of_cons).
      rewrite filter_app, filter_cons_True by done. done.
Qed.

Lemma group_add_keys (f : list string → list string) key node keys :
  NoDup keys →
  group_add key node ((λ k, (k, f k)) <$> keys) =
  ((λ k, (k, if decide (k = key) then f k ++ [node] else f k)) <$> keys) ++
  (if decide (key ∈ keys) then [] else [(key, [node])]).
Proof.
  induction keys as [|a keys IH]; intros Hnd; [done|].
  apply NoDup_cons in Hnd as [Ha Hnd]. rewrite !fmap_cons. cbn [group_add].
  destruct (decide (a = key)) as [->|Hne].
  - rewrite (decide_True (P := key ∈ key :: keys)) by left.
    rewrite app_nil_r. f_equal. apply list_fmap_ext. intros i k Hk.
    rewrite decide_False; [done|]. intros ->.
    by apply list_elem_of_lookup_2 in Hk.
  - rewrite IH by done. cbn [app]. f_equal. f_equal.
    destruct (decide (key ∈ keys)) as [Hin|Hin].
    + by rewrite decide_True by (by right).
    + by rewrite decide_False by (by intros [?|?]%elem_of_cons).
Qed.

Lemma filter_no_key (p : list string) key :
  key ∉ successors_key G <$> p →
  filter (λ node, successors_key G node = key) p = [].
Proof.
  intros Hin. induction p as [|a p IH]; [done|].
  rewrite fmap_cons, not_elem_of_cons in Hin. destruct Hin as [Hne Hin].
  rewrite filter_cons_False by (by intros ?). by apply IH.
Qed.

Lemma successor_groups_grouped current_layer :
  successor_groups G current_layer = grouped G current_layer.
Proof.
  unfold successor_groups, grouped. fold (successors_key G).
  induction current_layer as [|x p IH] using rev_ind; [done|].
  rewrite foldl_app. cbn [foldl]. rewrite IH.
  rewrite (group_add_keys (λ k, filter (λ node, successors_key G node = k) p))
    by apply NoDup_first_occurrences.
  rewrite (fmap_app (successors_key G)). cbn [fmap list_fmap].
  rewrite first_occurrences_snoc.
  assert (∀ k, filter (λ node, successors_key G node = k) (p ++ [x]) =
            if decide (k = successors_key G x)
            then filter (λ node, successors_key G node = k) p ++ [x]
            else filter (λ node, successors_key G node = k) p) as Hfilter.
  { intros k. rewrite filter_app.
    destruct (decide (k = successors_key G x)) as [->|Hne].
    - by rewrite filter_cons_True.
    - rewrite filter_cons_False by (by intros ?). by rewrite app_nil_r. }
  destruct (decide (successors_key G x ∈ successors_key G <$> p)) as [Hin|Hin].
  - rewrite decide_True by (by apply elem_of_first_occurrences).
    rewrite app_nil_r. apply list_fmap_ext. intros i k _. by rewrite Hfilter.
  - rewrite decide_False by (by rewrite elem_of_first_occurrences).
    rewrite fmap_app. f_equal.
    + apply list_fmap_ext. intros i k _. by rewrite Hfilter.
    + cbn [fmap list_fmap]. rewrite Hfilter, decide_True by done.
      by rewrite filter_no_key.
Qed.
End groups.

Lemma successors_key_eq (G : nx.DiGraph) a b :
  successors_key G b = successors_key G a ↔ nx.successors G b ≡ₚ successors_key G a.
Proof.
  unfold successors_key. split.
  - intros <-. by rewrite merge_sort_Permutation.
  - intros Hperm. apply (Sorted_unique String.le).
    + apply Sorted_merge_sort, _.
    + apply Sorted_merge_sort, _.
    + by rewrite merge_sort_Permutation.
Qed.

(** X10. The groups of a layer: [successor_groups] lists the sorted successor
    tuples in the order in which they first occur in the layer, each with the
    nodes of the layer that have these successors, in the order of the layer.
    So every node of the layer is in one group, no group is empty, and a node
    is in a group exactly if its successors are those of the key. *)
Theorem successor_groups_groups_by_successors
    (G : nx.DiGraph) (current_layer : list string) :
  dot2mr.successor_groups G current_layer = grouped G current_layer ∧
  NoDup (dot2mr.successor_groups G current_layer).*1 ∧
  concat (dot2mr.successor_groups G current_layer).*2 ≡ₚ current_layer ∧
  (∀ key nodes, (key, nodes) ∈ dot2mr.successor_groups G current_layer →
     nodes ≠ [] ∧
     ∀ b, b ∈ nodes ↔ b ∈ current_layer ∧ nx.successors G b ≡ₚ key).
Proof.
  split_and!.
  - apply successor_groups_grouped.
  - rewrite successor_groups_grouped. unfold grouped.
    rewrite fmap_fst_pairing. apply NoDup_first_occurrences.
  - apply successor_groups_nodes.
  - intros key nodes. rewrite successor_groups_grouped. unfold grouped.
    rewrite list_elem_of_fmap.
    intros (k & [= -> ->] & Hk).
    apply (proj1 (elem_of_first_occurrences _ _)) in Hk.
    apply list_elem_of_fmap in Hk as (a & -> & Ha).
    split.
    + intros Hnil.
      assert (a ∈ filter (λ node, successors_key G node = successors_key G a)
                    current_layer) as Hin by (by apply list_elem_of_filter).
      rewrite Hnil in Hin. by apply elem_of_nil in Hin.
    + intros b. rewrite list_elem_of_filter, successors_key_eq. tauto.
Qed.

(** ** Texts: strings, lines and stripping *)

Section text_facts.
Import py.

Lemma string_app_cons c (s t : string) : String c s +:+ t = String c (s +:+ t).
Proof. reflexivity. Qed.

Lemma string_app_nil_l (t : string) : "" +:+ t = t.
Proof. reflexivity. Qed.

Lemma string_app_assoc (s1 s2 s3 : string) :
  s1 +:+ (s2 +:+ s3) = (s1 +:+ s2) +:+ s3.
Proof.
  induction s1 as [|c s1 IH]; [done|]. rewrite !string_app_cons. by f_equal.
Qed.

Lemma string_app_nil_r (s : string) : s +:+ "" = s.
Proof. induction s as [|c s IH]; [done|]. rewrite string_app_cons. by f_equal. Qed.

Lemma string_app_length (s1 s2 : string) :
  String.length (s1 +:+ s2) = String.length s1 + String.length s2.
Proof.
  induction s1 as [|c s1 IH]; [done|]. rewrite string_app_cons. simpl. by f_equal.
Qed.

Lemma splitlines_from_line cur s rest :
  forall_chars (λ c, negb (is_line_boundary c)) s = true →
  splitlines_from cur (s +:+ rest) = splitlines_from (cur +:+ s) rest.
Proof.
  revert cur. induction s as [|c s IH]; intros cur Hs.
  - by rewrite string_app_nil_r.
  - cbn [forall_chars] in Hs. apply andb_prop in Hs as [Hc Hs].
    rewrite string_app_cons. cbn [splitlines_from].
    destruct (is_line_boundary c); [done|]. rewrite IH by done.
    by rewrite <- string_app_assoc.
Qed.

Lemma splitlines_from_nl cur rest :
  splitlines_from cur (nl +:+ rest) = cur :: splitlines_from "" rest.
Proof. by destruct rest. Qed.

Lemma splitlines_join (ls : list string) :
  Forall (λ l, forall_chars (λ c, negb (is_line_boundary c)) l = true) ls →
  last ls ≠ Some "" → splitlines (join nl ls) = ls.
Proof.
  unfold splitlines, join. induction 1 as [|x ls Hx Hls IH]; intros Hlast; [done|].
  destruct ls as [|y ls].
  - cbn [String.concat]. rewrite <- (string_app_nil_r x) at 1.
    rewrite splitlines_from_line by done. rewrite string_app_nil_l.
    cbn [splitlines_from]. destruct (decide (x = "")) as [->|]; done.
  - cbn [String.concat]. rewrite splitlines_from_line by done.
    rewrite splitlines_from_nl, string_app_nil_l. f_equal. by apply IH.
Qed.
End text_facts.

Section strip_facts.
Import py.

Lemma lstrip_space s : lstrip (String (Ascii.ascii_of_nat 32) s) = lstrip s.
Proof. reflexivity. Qed.

Lemma lstrip_indent k s : lstrip (repeat "  " k +:+ s) = lstrip s.
Proof.
  induction k as [|k IH]; [done|]. cbn [repeat].
  rewrite <- string_app_assoc.
  change ("  " +:+ (repeat "  " k +:+ s))
    with (String (Ascii.ascii_of_nat 32)
            (String (Ascii.ascii_of_nat 32) (repeat "  " k +:+ s))).
  by rewrite !lstrip_space.
Qed.

Lemma lstrip_cases s :
  lstrip s = s ∨ (String.length (lstrip s) < String.length s)%nat.
Proof.
  induction s as [|c s IH]; [by left|]. cbn [lstrip].
  destruct (isspace c); [|by left]. right. simpl. destruct IH as [->|?]; lia.
Qed.

Lemma rstrip_cases s :
  rstrip s = s ∨ (String.length (rstrip s) < String.length s)%nat.
Proof.
  induction s as [|c s IH]; [by left|]. cbn [rstrip].
  destruct (rstrip s) as [|c' r] eqn:Hr.
  - destruct (isspace c); [right; simpl; lia|].
    destruct IH as [<-|?]; [by left|]. right. simpl in *. lia.
  - destruct IH as [<-|?]; [by left|]. right. simpl in *. lia.
Qed.

Lemma strip_fixed s : strip s = s → lstrip s = s ∧ rstrip s = s.
Proof.
  unfold strip. intros Hs.
  destruct (lstrip_cases s) as [Hl|Hl].
  - rewrite Hl in Hs. done.
  - exfalso. destruct (rstrip_cases (lstrip s)) as [Hr|Hr]; rewrite Hs in Hr.
    + rewrite <- Hr in Hl. lia.
    + lia.
Qed.

Lemma string_app_not_nil (s t : string) : t ≠ "" → s +:+ t ≠ "".
Proof. by destruct s. Qed.

Lemma rstrip_app s t : rstrip t ≠ "" → rstrip (s +:+ t) = s +:+ rstrip t.
Proof.
  intros Ht. induction s as [|c s IH]; [done|].
  rewrite !string_app_cons. cbn [rstrip]. rewrite IH.
  pose proof (string_app_not_nil s (rstrip t) Ht).
  by destruct (s +:+ rstrip t).
Qed.

Lemma lstrip_app n x : n ≠ "" → lstrip n = n → lstrip (n +:+ x) = n +:+ x.
Proof.
  destruct n as [|c n]; [done|]. intros _ Hn. rewrite string_app_cons.
  cbn [lstrip] in *. destruct (isspace c); [|done]. exfalso.
  destruct (lstrip_cases n) as [Hl|Hl]; rewrite Hn in Hl.
  - assert (String.length (String c n) = String.length n) as Hlen by (by rewrite Hl).
    simpl in Hlen. lia.
  - simpl in Hl. lia.
Qed.

Lemma strip_indent k s : strip (repeat "  " k +:+ s) = strip s.
Proof. unfold strip. by rewrite lstrip_indent. Qed.

(** A name, with or without the comma after it, is what is left of its line. *)
Lemma strip_name n sfx :
  n ≠ "" → strip n = n → sfx = "" ∨ sfx = "," → strip (n +:+ sfx) = n +:+ sfx.
Proof.
  intros Hne [Hl Hr]%strip_fixed Hsfx. unfold strip.
  rewrite lstrip_app by done. destruct Hsfx as [->| ->].
  - by rewrite string_app_nil_r.
  - by rewrite rstrip_app.
Qed.
End strip_facts.

Section name_facts.
Import py.

Lemma rstrip_char_snoc ch s : rstrip_char ch (s +:+ String ch "") = rstrip_char ch s.
Proof.
  induction s as [|c s IH].
  - rewrite string_app_nil_l. cbn [rstrip_char]. by rewrite decide_True.
  - rewrite string_app_cons. cbn [rstrip_char]. by rewrite IH.
Qed.

Lemma prefix_refl p : String.prefix p p = true.
Proof.
  induction p as [|a p IH]; [done|]. cbn [String.prefix].
  by destruct (Ascii.ascii_dec a a).
Qed.

Lemma prefix_snoc p ch : ∀ n,
  forall_chars (λ c, negb (bool_decide (c = ch))) p = true →
  String.prefix p n = false → String.prefix p (n +:+ String ch "") = false.
Proof.
  induction p as [|a p IH]; intros n Hp Hn; [by destruct n|].
  cbn [forall_chars] in Hp. apply andb_prop in Hp as [Ha Hp].
  apply negb_true_iff, bool_decide_eq_false in Ha.
  destruct n as [|b n].
  - rewrite string_app_nil_l. cbn [String.prefix].
    destruct (Ascii.ascii_dec a ch); [done|by destruct p].
  - rewrite string_app_cons. cbn [String.prefix] in *.
    destruct (Ascii.ascii_dec a b); [|done]. by apply IH.
Qed.

Lemma not_block_start p l :
  String.prefix p l = false → startswith p l || bool_decide (l = p) = false.
Proof.
  intros Hl. unfold startswith. rewrite Hl. cbn [orb].
  apply bool_decide_eq_false. intros ->. by rewrite prefix_refl in Hl.
Qed.

Lemma forall_chars_app P s t :
  forall_chars P (s +:+ t) = forall_chars P s && forall_chars P t.
Proof.
  induction s as [|c s IH]; [done|]. rewrite string_app_cons. cbn [forall_chars].
  by rewrite IH, andb_assoc.
Qed.

(** The line of a name: what the parser sees and decides on it. *)
Lemma name_line n sfx :
  name_ok n = true → sfx = "" ∨ sfx = "," →
  strip (n +:+ sfx) = n +:+ sfx ∧ n +:+ sfx ≠ "" ∧
  n +:+ sfx ≠ "}" ∧ n +:+ sfx ≠ "}," ∧
  startswith "Sequence {" (n +:+ sfx) || bool_decide (n +:+ sfx = "Sequence {") = false ∧
  startswith "Parallel {" (n +:+ sfx) || bool_decide (n +:+ sfx = "Parallel {") = false ∧
  rstrip_char (Ascii.ascii_of_nat 44) (n +:+ sfx) = n ∧
  forall_chars (λ c, negb (is_line_boundary c)) (n +:+ sfx) = true.
Proof.
  unfold name_ok. rewrite !andb_true_iff, !negb_true_iff, !bool_decide_eq_false.
  rewrite !bool_decide_eq_true.
  intros ((((((Hne & Hstrip) & Hchars) & Hcomma) & Hseq) & Hpar) & Hbrace) Hsfx.
  split_and!.
  - by apply strip_name.
  - destruct n; [done|]. by rewrite string_app_cons.
  - destruct Hsfx as [->| ->]; [by rewrite string_app_nil_r|].
    destruct n as [|c [|c' n]]; done.
  - destruct Hsfx as [->| ->].
    + rewrite string_app_nil_r. intros ->. done.
    + destruct n as [|c [|c' n]]; [done| |by destruct n].
      rewrite string_app_cons, string_app_nil_l. intros [= ->]. done.
  - apply not_block_start. destruct Hsfx as [->| ->];
      [by rewrite string_app_nil_r|by apply prefix_snoc].
  - apply not_block_start. destruct Hsfx as [->| ->];
      [by rewrite string_app_nil_r|by apply prefix_snoc].
  - destruct Hsfx as [->| ->]; [by rewrite string_app_nil_r|].
    by rewrite (rstrip_char_snoc (Ascii.ascii_of_nat 44)).
  - rewrite forall_chars_app, Hchars. by destruct Hsfx as [->| ->].
Qed.
End name_facts.

(** ** Reading the printed lines back *)

Section parse_facts.
Import py mr2dot.

Lemma parse_unfold fuel lines start_idx :
  parse fuel lines start_idx =
  match lines !! start_idx with
  | None => Returned (None, start_idx)
  | Some line =>
      let current_line := strip line in
      let block (block_type : list tree → tree) :=
        match fuel with
        | O => Diverged
        | S fuel' =>
            '(children, idx) ←
              parse_children fuel' (parse fuel' lines) lines [] (start_idx + 1);
            let idx :=
              match lines !! idx with
              | Some line => if decide (strip line = "}") then idx + 1 else idx
              | None => idx
              end in
            Returned (Some (block_type children), idx)
        end in
      if startswith "Sequence {" current_line
         || bool_decide (current_line = "Sequence {")
      then block Sequence
      else if startswith "Parallel {" current_line
              || bool_decide (current_line = "Parallel {")
      then block Parallel
      else Returned (Some (Node (rstrip_char (Ascii.ascii_of_nat 44) current_line)),
                     start_idx + 1)
  end.
Proof. by destruct fuel. Qed.

Lemma parse_children_unfold fuel prs lines children idx :
  parse_children fuel prs lines children idx =
  match lines !! idx with
  | Some line =>
      if decide (strip line = "}") then Returned (children, idx)
      else if decide (strip line = "},") then Returned (children, idx + 1)
      else
        match fuel with
        | O => Diverged
        | S fuel' =>
            '(child, idx) ← prs idx;
            let children :=
              match child with
              | Some child => children ++ [child]
              | None => children
              end in
            parse_children fuel' prs lines children idx
        end
  | None => Returned (children, idx)
  end.
Proof. by destruct fuel. Qed.

Lemma children_lines_cons (f : tree → string → list string) c cs :
  children_lines f (c :: cs) =
  f c (match cs with [] => "" | _ => "," end) ++ children_lines f cs.
Proof. destruct cs; [by rewrite app_nil_r|done]. Qed.

(** The first line of a structure opens a block or is a name. *)
Lemma first_line t sfx :
  names_ok t = true → sfx = "" ∨ sfx = "," →
  ∃ l rest, structure_lines t sfx = l :: rest ∧
    strip l ≠ "}" ∧ strip l ≠ "},".
Proof.
  intros Hok Hsfx. destruct t as [name|children|children]; cbn [structure_lines].
  - destruct (name_line name sfx Hok Hsfx) as (Hs & _ & H1 & H2 & _).
    eexists _, _. split; [done|]. by rewrite Hs.
  - eexists _, _. split; [done|]. by vm_compute.
  - eexists _, _. split; [done|]. by vm_compute.
Qed.

Lemma structure_lines_length t sfx : (1 ≤ length (structure_lines t sfx))%nat.
Proof. destruct t; cbn [structure_lines]; rewrite ?length_app; simpl; lia. Qed.

Lemma children_lines_length cs :
  (length cs ≤ length (children_lines structure_lines cs))%nat.
Proof.
  induction cs as [|c cs IH]; [done|]. rewrite children_lines_cons, length_app.
  pose proof (structure_lines_length c (match cs with [] => "" | _ => "," end)).
  simpl. lia.
Qed.

Lemma closing_line sfx :
  sfx = "" ∨ sfx = "," →
  strip ("}" +:+ sfx) = "}" +:+ sfx.
Proof. by intros [->| ->]. Qed.

Lemma parse_children_back cs :
  Forall parses_back cs → forallb names_ok cs = true →
  ∀ lines sfx pre post f n acc,
    lines = pre ++ children_lines structure_lines cs ++ ("}" +:+ sfx) :: post →
    sfx = "" ∨ sfx = "," →
    (length (children_lines structure_lines cs) ≤ f)%nat → (length cs ≤ n)%nat →
    parse_children n (parse f lines) lines acc (length pre) =
    Returned (acc ++ cs,
              length pre + length (children_lines structure_lines cs) +
              (if decide (sfx = "") then 0 else 1)).
Proof.
  induction 1 as [|c cs Hc Hcs IH]; intros Hok lines sfx pre post f n acc Hl Hsfx Hf Hn.
  - rewrite parse_children_unfold. cbn [children_lines app] in Hl.
    rewrite Hl, list_lookup_middle by done. rewrite closing_line by done.
    rewrite app_nil_r. cbn [length]. rewrite Nat.add_0_r.
    destruct Hsfx as [->| ->]; [by rewrite Nat.add_0_r|done].
  - cbn [forallb] in Hok. apply andb_prop in Hok as [Hokc Hokcs].
    rewrite children_lines_cons in Hl, Hf |- *.
    set (s := match cs with [] => "" | _ => "," end) in *.
    assert (s = "" ∨ s = ",") as Hs by (unfold s; destruct cs; auto).
    destruct (first_line c s Hokc Hs) as (l & rest & Hfirst & Hl1 & Hl2).
    rewrite parse_children_unfold.
    assert (lines !! length pre = Some l) as ->.
    { rewrite Hl, Hfirst. by rewrite <- !app_assoc, <- app_comm_cons, list_lookup_middle. }
    rewrite decide_False, decide_False by done.
    destruct n as [|n]; [simpl in Hn; lia|].
    rewrite length_app in Hf.
    rewrite (Hc lines s pre
               (children_lines structure_lines cs ++ ("}" +:+ sfx) :: post) f).
    + cbn [mbind outcome_bind].
      rewrite <- (length_app pre).
      rewrite (IH Hokcs lines sfx (pre ++ structure_lines c s) post f n (acc ++ [c])).
      * rewrite !length_app, <- app_assoc. do 2 f_equal. lia.
      * by rewrite Hl, <- !app_assoc.
      * done.
      * lia.
      * simpl in Hn. lia.
    + by rewrite Hl, <- !app_assoc.
    + done.
    + intros Hcomma lf Hhead. unfold s in Hcomma. destruct cs as [|c' cs']; [done|].
      apply Forall_cons in Hcs as [_ _]. cbn [forallb] in Hokcs.
      apply andb_prop in Hokcs as [Hokc' _].
      rewrite children_lines_cons in Hhead.
      destruct (first_line c' (match cs' with [] => "" | _ => "," end) Hokc')
        as (l' & rest' & Hfirst' & Hl1' & _); [destruct cs'; auto|].
      rewrite Hfirst' in Hhead. cbn in Hhead. by injection Hhead as <-.
    + lia.
Qed.
End parse_facts.

Section parse_back.
Import py mr2dot.

Lemma block_parses_back (block_type : list tree → tree) opening children :
  (block_type = Sequence ∧ opening = "Sequence {") ∨
  (block_type = Parallel ∧ opening = "Parallel {") →
  Forall parses_back children → forallb names_ok children = true →
  ∀ lines sfx pre post fuel,
    lines = pre ++ ([opening] ++ children_lines structure_lines children ++
                    ["}" +:+ sfx]) ++ post →
    sfx = "" ∨ sfx = "," →
    (sfx = "," → ∀ l, head post = Some l → strip l ≠ "}") →
    (length ([opening] ++ children_lines structure_lines children ++
             ["}" +:+ sfx]) ≤ fuel)%nat →
    parse fuel lines (length pre) =
    Returned (Some (block_type children),
              length pre + length ([opening] ++ children_lines structure_lines children
                                   ++ ["}" +:+ sfx])).
Proof.
  intros Hblock Hall Hok lines sfx pre post fuel Hl Hsfx Hpost Hfuel.
  set (cl := children_lines structure_lines children) in *.
  rewrite !length_app in Hfuel |- *. cbn [length] in Hfuel |- *.
  destruct fuel as [|f]; [lia|].
  assert (lines = (pre ++ [opening]) ++ cl ++ ("}" +:+ sfx) :: post) as Hl'.
  { rewrite Hl. by rewrite <- !app_assoc. }
  pose proof (parse_children_back children Hall Hok lines sfx (pre ++ [opening])
                post f f [] Hl' Hsfx) as Hloop.
  rewrite length_app in Hloop. cbn [length] in Hloop. fold cl in Hloop.
  rewrite parse_unfold.
  assert (lines !! length pre = Some opening) as ->.
  { rewrite Hl. cbn [app]. by rewrite list_lookup_middle. }
  assert (∀ idx, lines !! idx = (if decide (sfx = "") then Some "}" else head post) →
            idx = (length pre + 1 + length cl + (if decide (sfx = "") then 0 else 1))%nat →
            ('(children0, idx0) ← parse_children f (parse f lines) lines [] (length pre + 1);
             let idx1 := match lines !! idx0 with
                         | Some line => if decide (strip line = "}") then idx0 + 1 else idx0
                         | None => idx0
                         end in
             Returned (Some (block_type children0), idx1)) =
            Returned (Some (block_type children),
                      length pre + S (length cl + 1))) as Hrun.
  { intros idx Hidx ->. rewrite Hloop; [|lia|].
    2:{ pose proof (children_lines_length children). fold cl in H. lia. }
    cbn [mbind outcome_bind app]. rewrite Hidx.
    destruct Hsfx as [->| ->].
    - destruct (decide ("" = "")) as [_|?]; [|done].
      rewrite decide_True by done. do 2 f_equal. lia.
    - destruct (decide ("," = "")) as [?|_]; [done|].
      destruct (head post) as [l|] eqn:Hhead.
      + rewrite decide_False by (by apply Hpost). do 2 f_equal. lia.
      + do 2 f_equal. lia. }
  assert (lines !! (length pre + 1 + length cl + (if decide (sfx = "") then 0 else 1))%nat
          = (if decide (sfx = "") then Some "}" else head post)) as Hlook.
  { rewrite Hl'. destruct Hsfx as [->| ->].
    - destruct (decide ("" = "")) as [_|?]; [|done]. rewrite Nat.add_0_r.
      rewrite app_assoc.
      replace (length pre + 1 + length cl)%nat with (length ((pre ++ [opening]) ++ cl))
        by (rewrite !length_app; simpl; lia).
      by rewrite list_lookup_middle.
    - destruct (decide ("," = "")) as [?|_]; [done|].
      replace ((pre ++ [opening]) ++ cl ++ ("}" +:+ ",") :: post)
        with (((pre ++ [opening]) ++ cl ++ ["}" +:+ ","]) ++ post)
        by (by rewrite <- !app_assoc).
      replace (length pre + 1 + length cl + 1)%nat
        with (length ((pre ++ [opening]) ++ cl ++ ["}" +:+ ","]) + 0)%nat
        by (rewrite !length_app; simpl; lia).
      rewrite lookup_app_r by lia.
      replace (length ((pre ++ [opening]) ++ cl ++ ["}" +:+ ","]) + 0 -
               length ((pre ++ [opening]) ++ cl ++ ["}" +:+ ","]))%nat with 0%nat by lia.
      by destruct post. }
  destruct Hblock as [[-> ->]|[-> ->]]; apply (Hrun _ Hlook eq_refl).
Qed.

Lemma all_parse_back t : names_ok t = true → parses_back t.
Proof.
  induction t as [name|children IH|children IH] using tree_nested_ind; intros Hok.
  - intros lines sfx pre post fuel Hl Hsfx _ _. cbn [structure_lines] in *.
    destruct (name_line name sfx Hok Hsfx) as (Hs & _ & _ & _ & Hseq & Hpar & Hname & _).
    rewrite parse_unfold.
    assert (lines !! length pre = Some (name +:+ sfx)) as ->.
    { rewrite Hl. cbn [app]. by rewrite list_lookup_middle. }
    cbn zeta. by rewrite Hs, Hseq, Hpar, Hname.
  - cbn [names_ok] in Hok.
    assert (Forall parses_back children) as Hall.
    { apply Forall_forall. intros c Hc. rewrite Forall_forall in IH.
      apply IH; [done|]. rewrite forallb_forall in Hok. apply Hok.
      by apply list_elem_of_In. }
    intros lines sfx pre post fuel. cbn [structure_lines].
    apply (block_parses_back Sequence "Sequence {" children); auto.
  - cbn [names_ok] in Hok.
    assert (Forall parses_back children) as Hall.
    { apply Forall_forall. intros c Hc. rewrite Forall_forall in IH.
      apply IH; [done|]. rewrite forallb_forall in Hok. apply Hok.
      by apply list_elem_of_In. }
    intros lines sfx pre post fuel. cbn [structure_lines].
    apply (block_parses_back Parallel "Parallel {" children); auto.
Qed.
End parse_back.

(** ** The printed text, line by line *)

Section format_facts.
Import py dot2mr.

Lemma join_cons sep x (l : list string) :
  l ≠ [] → join sep (x :: l) = x +:+ sep +:+ join sep l.
Proof. by destruct l. Qed.

Lemma join_app sep (l1 l2 : list string) :
  l1 ≠ [] → l2 ≠ [] → join sep (l1 ++ l2) = join sep l1 +:+ sep +:+ join sep l2.
Proof.
  intros H1 H2. induction l1 as [|x l1 IH]; [done|].
  destruct l1 as [|y l1].
  - cbn [app]. by rewrite join_cons.
  - rewrite <- app_comm_cons, join_cons by done. rewrite IH by done.
    rewrite (join_cons sep x (y :: l1)) by done.
    by rewrite <- !string_app_assoc.
Qed.

Lemma physical_lines_not_nil k t sfx : physical_lines k t sfx ≠ [].
Proof. by destruct t. Qed.

Lemma children_lines_not_nil (f : tree → string → list string) cs :
  (∀ c s, f c s ≠ []) → cs ≠ [] → children_lines f cs ≠ [].
Proof.
  intros Hf Hcs. destruct cs as [|c cs]; [done|]. rewrite children_lines_cons.
  intros [H _]%app_eq_nil. by apply Hf in H.
Qed.

Lemma children_text k cs :
  Forall prints_lines cs → cs ≠ [] →
  join ("," +:+ nl) ((λ c, format_structure c (k + 1)) <$> cs) =
  join nl (children_lines (physical_lines (k + 1)) cs).
Proof.
  induction 1 as [|c cs Hc Hcs IH]; intros _; [done|].
  destruct cs as [|c' cs].
  - cbn [fmap list_fmap children_lines]. unfold join at 1. cbn [String.concat].
    rewrite <- (Hc (k + 1) ""). by rewrite string_app_nil_r.
  - rewrite fmap_cons, join_cons by done. rewrite IH by done.
    rewrite (children_lines_cons _ c (c' :: cs)).
    rewrite join_app;
      [|apply physical_lines_not_nil
       |apply children_lines_not_nil; [apply physical_lines_not_nil|done]].
    rewrite <- (Hc (k + 1) ","). by rewrite <- !string_app_assoc.
Qed.

Lemma block_text k (opening : string) cs sfx mid :
  join nl mid =
    join ("," +:+ nl) ((λ c, format_structure c (k + 1)) <$> cs) →
  mid ≠ [] →
  (repeat "  " k +:+ opening +:+ nl +:+
   join ("," +:+ nl) ((λ c, format_structure c (k + 1)) <$> cs) +:+ nl +:+
   repeat "  " k +:+ "}") +:+ sfx =
  join nl ([repeat "  " k +:+ opening] ++ mid ++ [repeat "  " k +:+ "}" +:+ sfx]).
Proof.
  intros <- Hmid. cbn [app]. rewrite join_cons by (by destruct mid).
  rewrite join_app by done. unfold join at 3. cbn [String.concat].
  by rewrite <- !string_app_assoc.
Qed.

Lemma format_structure_lines t : prints_lines t.
Proof.
  induction t as [name|children IH|children IH] using tree_nested_ind; intros k sfx.
  - cbn [format_structure physical_lines]. unfold join. cbn [String.concat].
    by rewrite <- string_app_assoc.
  - cbn [format_structure physical_lines]. cbv zeta.
    change ("Sequence" +:+ " {" +:+ ?x) with ("Sequence {" +:+ x).
    apply block_text.
    + destruct children as [|c cs]; [done|]. by rewrite children_text.
    + destruct children as [|c cs]; [done|].
      apply children_lines_not_nil; [apply physical_lines_not_nil|done].
  - cbn [format_structure physical_lines]. cbv zeta.
    change ("Parallel" +:+ " {" +:+ ?x) with ("Parallel {" +:+ x).
    apply block_text.
    + destruct children as [|c cs]; [done|]. by rewrite children_text.
    + destruct children as [|c cs]; [done|].
      apply children_lines_not_nil; [apply physical_lines_not_nil|done].
Qed.
End format_facts.

Section printed_lines.
Import py dot2mr.

Lemma indent_no_boundary k :
  forall_chars (λ c, negb (is_line_boundary c)) (repeat "  " k) = true.
Proof.
  induction k as [|k IH]; [done|]. cbn [repeat]. by rewrite forall_chars_app, IH.
Qed.

Lemma kept_lines_app l1 l2 : kept_lines (l1 ++ l2) = kept_lines l1 ++ kept_lines l2.
Proof. unfold kept_lines. by rewrite filter_app, fmap_app. Qed.

Lemma kept_line k l :
  strip l ≠ "" → kept_lines [repeat "  " k +:+ l] = [strip l].
Proof.
  intros Hl. unfold kept_lines.
  rewrite filter_cons_True by (by rewrite strip_indent).
  cbn [filter list_filter fmap list_fmap]. by rewrite strip_indent.
Qed.

Lemma clean_line k l :
  forall_chars (λ c, negb (is_line_boundary c)) l = true →
  forall_chars (λ c, negb (is_line_boundary c)) (repeat "  " k +:+ l) = true.
Proof. intros Hl. by rewrite forall_chars_app, indent_no_boundary, Hl. Qed.

Lemma children_clean_lines k cs :
  Forall prints_clean_lines cs →
  Forall (λ l, forall_chars (λ c, negb (is_line_boundary c)) l = true)
         (children_lines (physical_lines k) cs) ∧
  kept_lines (children_lines (physical_lines k) cs) =
    children_lines structure_lines cs.
Proof.
  induction 1 as [|c cs Hc _ [IH1 IH2]]; [done|].
  rewrite !children_lines_cons, kept_lines_app, IH2.
  destruct (Hc k (match cs with [] => "" | _ => "," end)) as (H1 & _ & H2);
    [destruct cs; auto|].
  rewrite H2. split; [|done]. by apply Forall_app.
Qed.

Lemma block_clean_lines k (opening : string) cs sfx :
  opening = "Sequence {" ∨ opening = "Parallel {" →
  Forall prints_clean_lines cs → sfx = "" ∨ sfx = "," →
  let lines :=
    [repeat "  " k +:+ opening] ++
    match cs with
    | [] => [""]
    | _ => children_lines (physical_lines (k + 1)) cs
    end ++ [repeat "  " k +:+ "}" +:+ sfx] in
  Forall (λ l, forall_chars (λ c, negb (is_line_boundary c)) l = true) lines ∧
  last lines ≠ Some "" ∧
  kept_lines lines = [opening] ++ children_lines structure_lines cs ++ ["}" +:+ sfx].
Proof.
  intros Hop Hcs Hsfx lines. unfold lines.
  destruct (children_clean_lines (k + 1) cs Hcs) as [Hc1 Hc2].
  assert (strip opening = opening ∧ opening ≠ "" ∧
          forall_chars (λ c, negb (is_line_boundary c)) opening = true)
    as (Hso & Hno & Hco) by (by destruct Hop as [->| ->]).
  assert (strip ("}" +:+ sfx) = "}" +:+ sfx ∧ "}" +:+ sfx ≠ "" ∧
          forall_chars (λ c, negb (is_line_boundary c)) ("}" +:+ sfx) = true)
    as (Hsc & Hnc & Hcc) by (by destruct Hsfx as [->| ->]).
  split_and!.
  - apply Forall_app. split; [by apply Forall_singleton, clean_line|].
    apply Forall_app. split; [|by apply Forall_singleton, clean_line].
    destruct cs; [by apply Forall_singleton|done].
  - rewrite app_assoc, last_snoc. intros [= Heq].
    by apply (string_app_not_nil (repeat "  " k) ("}" +:+ sfx)) in Heq.
  - rewrite !kept_lines_app, !kept_line by congruence. rewrite Hso, Hsc.
    do 2 f_equal. destruct cs as [|c cs]; [done|exact Hc2].
Qed.

Lemma physical_lines_clean t : names_ok t = true → prints_clean_lines t.
Proof.
  induction t as [name|children IH|children IH] using tree_nested_ind; intros Hok.
  - intros k sfx Hsfx. cbn [physical_lines structure_lines].
    destruct (name_line name sfx Hok Hsfx) as (Hs & Hne & _ & _ & _ & _ & _ & Hc).
    split_and!.
    + by apply Forall_singleton, clean_line.
    + intros [= Heq]. by apply (string_app_not_nil (repeat "  " k)) in Heq.
    + rewrite kept_line by congruence. by rewrite Hs.
  - cbn [names_ok] in Hok. intros k sfx Hsfx. cbn [physical_lines structure_lines].
    apply (block_clean_lines k "Sequence {" children sfx); [by left| |done].
    apply Forall_forall. intros c Hc. rewrite Forall_forall in IH.
    apply IH; [done|]. rewrite forallb_forall in Hok. by apply Hok, list_elem_of_In.
  - cbn [names_ok] in Hok. intros k sfx Hsfx. cbn [physical_lines structure_lines].
    apply (block_clean_lines k "Parallel {" children sfx); [by right| |done].
    apply Forall_forall. intros c Hc. rewrite Forall_forall in IH.
    apply IH; [done|]. rewrite forallb_forall in Hok. by apply Hok, list_elem_of_In.
Qed.
End printed_lines.

(** X11. Printing and reading back: the text [format_structure] prints for a
    structure is parsed by [parse_custom_format] as this structure, if every
    name can be read back: it is not empty, has no white space at either end,
    no line boundary and no comma at the end, does not start like a block and
    is not a closing brace. *)
Theorem parse_custom_format_inverts_format_structure (t : tree) :
  names_ok t = true →
  mr2dot.parse_custom_format (dot2mr.format_structure t 0) = Returned (Some t).
Proof.
  intros Hok. unfold mr2dot.parse_custom_format.
  rewrite <- (string_app_nil_r (dot2mr.format_structure t 0)).
  rewrite (format_structure_lines t 0 "").
  destruct (physical_lines_clean t Hok 0 "") as (Hclean & Hlast & Hkept); [by left|].
  rewrite splitlines_join by done. fold (kept_lines (physical_lines 0 t "")).
  rewrite Hkept.
  rewrite (all_parse_back t Hok (structure_lines t "") "" [] [] _);
    [done|by rewrite app_nil_r|by left|done|lia].
Qed.

Lemma parse_custom_format_inverts_format_structure_witness :
  names_ok diamond_tree = true ∧
  mr2dot.parse_custom_format (dot2mr.format_structure diamond_tree 0)
    = Returned (Some diamond_tree).
Proof.
  split; [reflexivity|].
  apply (parse_custom_format_inverts_format_structure diamond_tree). reflexivity.
Defined.

(** ** The shape of what the structurer returns *)

Section structurer_shape.
Import nx dot2mr.
Context (G : DiGraph).

Lemma is_unit_item t : is_unit t = true → is_item t = true.
Proof. unfold is_item. by intros ->. Qed.

Lemma leaves_are_leaves path : forallb is_leaf (Node <$> path) = true.
Proof. induction path as [|x path IH]; [done|]. by rewrite fmap_cons. Qed.

Lemma leaves_are_units path : Forall (λ t, is_unit t = true) (Node <$> path).
Proof. induction path; constructor; done. Qed.

Lemma run_is_unit path :
  (2 ≤ length path)%nat → is_unit (Sequence (Node <$> path)) = true.
Proof.
  intros Hlen. cbn [is_unit]. rewrite leaves_are_leaves, length_fmap.
  by rewrite bool_decide_true.
Qed.

Lemma emit_node_units st st' node :
  Forall (λ t, is_unit t = true) st.2 → emit_node G st node = Returned st' →
  Forall (λ t, is_unit t = true) st'.2.
Proof.
  destruct st as [processed out]. rewrite emit_node_run. cbn [snd]. intros Hout.
  destruct (follow _ G node) as [[|b rest]| |]; cbn [mbind outcome_bind];
    intros [= <-]; cbn [snd];
    apply Forall_app; (split; [done|]); apply Forall_singleton; [done|].
  apply (run_is_unit (node :: b :: rest)). simpl. lia.
Qed.

Lemma emit_node_items st st' node :
  Forall (λ t, is_item t = true) st.2 → emit_node G st node = Returned st' →
  Forall (λ t, is_item t = true) st'.2.
Proof.
  destruct st as [processed out]. rewrite emit_node_run. cbn [snd]. intros Hout.
  destruct (follow _ G node) as [[|b rest]| |]; cbn [mbind outcome_bind];
    intros [= <-]; cbn [snd];
    apply Forall_app; (split; [done|]); apply Forall_singleton; [done|].
  apply is_unit_item, (run_is_unit (node :: b :: rest)). simpl. lia.
Qed.

Lemma emit_group_units st st' group :
  Forall (λ t, is_unit t = true) st.2 → emit_group G st group = Returned st' →
  Forall (λ t, is_unit t = true) st'.2.
Proof.
  destruct group as [key ns]. unfold emit_group.
  destruct ns as [|n [|n' ns]]; [|apply emit_node_units|];
    destruct st as [processed out]; cbn [snd]; intros Hout [= <-]; cbn [snd].
  - by rewrite app_nil_r.
  - apply Forall_app. split; [done|]. apply (leaves_are_units (_ :: _ :: _)).
Qed.

Lemma process_layer_items n_layers st st' il :
  Forall (λ t, is_item t = true) st.2 →
  process_layer G n_layers st il = Returned st' →
  Forall (λ t, is_item t = true) st'.2.
Proof.
  destruct il as [i layer], st as [processed structure]. unfold process_layer.
  cbn [snd]. intros Hst.
  destruct (filter _ layer) as [|node current] eqn:Hcur; [by intros [= <-]|].
  destruct (decide _) as [_|_]; [by apply emit_node_items|].
  destruct (for_each _ _ _) as [[processed' parallel_children]| |] eqn:Hloop;
    cbn [mbind outcome_bind]; [|done..].
  pose proof (for_each_invariant (emit_group G)
                (λ s, Forall (λ t, is_unit t = true) s.2) _ (processed, []) _
                (λ x s1 s2 _ H1 H2, emit_group_units s1 s2 x H1 H2)
                (Forall_nil_2 _) Hloop) as Hpc.
  cbn [snd] in Hpc.
  destruct (decide _) as [Hlen|_].
  - intros [= <-]. cbn [snd]. apply Forall_app. split; [done|].
    apply Forall_singleton. unfold is_item. cbn [is_unit orb].
    rewrite bool_decide_true by lia. cbn [andb].
    apply forallb_forall. intros c Hc%list_elem_of_In.
    rewrite Forall_forall in Hpc. by apply Hpc.
  - destruct parallel_children as [|c [|??]]; intros [= <-]; cbn [snd]; [done| |done].
    apply Forall_app. split; [done|]. apply Forall_singleton, is_unit_item.
    by apply Forall_inv in Hpc.
Qed.

Lemma generate_component_structure_shape t :
  generate_component_structure G = Returned (Some t) → is_structure t = true.
Proof.
  unfold generate_component_structure.
  destruct (topological_generations G) as [layers|e|]; [|by destruct e|done].
  set (loop := for_each (process_layer G (length layers)) _ (∅, [])).
  assert (∀ st, loop = Returned st → Forall (λ t, is_item t = true) st.2) as Hloop.
  { intros st. apply (for_each_invariant _ (λ s, Forall (λ t, is_item t = true) s.2));
      [|by constructor].
    intros ?????. by eapply process_layer_items. }
  assert ((st ← loop;
           let '(_, structure) := st in
           match structure with
           | [item] => Returned (Some item)
           | _ => Returned (Some (Sequence structure))
           end) = Returned (Some t) → is_structure t = true) as Hfinal.
  { destruct loop as [[processed structure]| |]; cbn [mbind outcome_bind]; [|done..].
    specialize (Hloop _ eq_refl). cbn [snd] in Hloop.
    assert (length structure ≠ 1 → is_structure (Sequence structure) = true) as Hseq.
    { intros Hlen. unfold is_structure.
      replace (bool_decide (length structure ≠ 1)) with true
        by (by rewrite bool_decide_true).
      replace (forallb is_item structure) with true; [apply orb_true_r|].
      symmetry. apply forallb_forall. intros c Hc%list_elem_of_In.
      rewrite Forall_forall in Hloop. by apply Hloop. }
    destruct structure as [|item [|item' structure]]; intros [= <-].
    - by apply Hseq.
    - apply Forall_inv in Hloop. unfold is_structure. by rewrite Hloop.
    - apply Hseq. simpl. lia. }
  destruct layers as [|[|n [|n' layer]] [|layer' layers]]; try exact Hfinal.
  - by intros [= <-].
  - by intros [= <-].
Qed.
End structurer_shape.

(** X13. The shape of a structure: for an acyclic graph with a node the
    structurer returns an item or a Sequence of items, where an item is a
    leaf, a run (a Sequence of two leaves or more) or a Parallel of two or
    more leaves and runs.  So a structure is never nested deeper than a
    Sequence of Parallels of runs. *)
Theorem structure_is_a_sequence_of_items (G : nx.DiGraph) :
  nx.graph_wf G → nx.acyclic G → nx.nodes G ≠ [] →
  ∃ t, dot2mr.generate_component_structure G = Returned (Some t) ∧
    is_structure t = true.
Proof.
  intros Hwf Hac Hne.
  destruct (generate_component_structure_cases G Hwf)
    as [(_ & Hnil & _)|[(_ & _ & t & Ht & _)|([v Hv] & _)]];
    [done| |by apply Hac in Hv].
  exists t. split; [done|]. by apply (generate_component_structure_shape G).
Qed.

Lemma structure_is_a_sequence_of_items_witness :
  nx.graph_wf diamond_graph ∧ nx.acyclic diamond_graph ∧
  nx.nodes diamond_graph ≠ [] ∧
  ∃ t, dot2mr.generate_component_structure diamond_graph = Returned (Some t) ∧
    is_structure t = true.
Proof.
  assert (nx.graph_wf diamond_graph) as Hwf
    by (apply (bool_decide_unpack _); vm_compute; exact I).
  assert (nx.acyclic diamond_graph) as Hac.
  { apply (generations_acyclic diamond_graph [["A"]; ["B"; "C"]; ["D"]] Hwf).
    vm_compute. reflexivity. }
  assert (nx.nodes diamond_graph ≠ []) as Hne by done.
  split_and!; [exact Hwf|exact Hac|exact Hne|].
  apply (structure_is_a_sequence_of_items diamond_graph Hwf Hac Hne).
Defined.

(** ** The edges of sequences, runs and parallels *)

Section tree_edges.
Import mr2dot described.

Lemma consecutive_pairs_snoc {A} (l : list A) (x : A) :
  consecutive_pairs (l ++ [x]) =
  consecutive_pairs l ++ match last l with Some y => [(y, x)] | None => [] end.
Proof.
  induction l as [|a l IH]; [done|].
  destruct l as [|b l]; [done|].
  change (consecutive_pairs ((a :: b :: l) ++ [x]))
    with ((a, b) :: consecutive_pairs ((b :: l) ++ [x])).
  rewrite IH. done.
Qed.

Lemma edges_of_sequence children e :
  e ∈ edges_of (Sequence children) ↔
  (∃ c, c ∈ children ∧ e ∈ edges_of c) ∨
  (∃ earlier later, (earlier, later) ∈ consecutive_pairs children ∧
     e.1 ∈ exit_points earlier ∧ e.2 ∈ extract_entry_nodes later).
Proof.
  cbn [edges_of]. rewrite elem_of_app, !list_elem_of_bind. split.
  - intros [(c & He & Hc)|([a b] & He & Hab)]; [left; by exists c|right].
    exists a, b. split; [done|]. unfold bipartite_join in He.
    apply list_elem_of_bind in He as (p & He & Hp).
    apply list_elem_of_bind in He as (q & ->%list_elem_of_singleton & Hq). done.
  - intros [(c & Hc & He)|(a & b & Hab & H1 & H2)]; [left; by exists c|right].
    exists (a, b). split; [|done]. unfold bipartite_join.
    apply list_elem_of_bind. exists e.1. split; [|done].
    apply list_elem_of_bind. exists e.2. split; [|done].
    destruct e. by apply list_elem_of_singleton.
Qed.

Lemma tree_edge_snoc S X u v :
  tree_edge (Sequence S) u v → tree_edge (Sequence (S ++ [X])) u v.
Proof.
  unfold tree_edge. rewrite !edges_of_sequence.
  intros [(c & Hc & He)|(a & b & Hab & H1 & H2)].
  - left. exists c. split; [|done]. apply elem_of_app. by left.
  - right. exists a, b. split; [|done]. rewrite consecutive_pairs_snoc.
    apply elem_of_app. by left.
Qed.

Lemma tree_edge_child l c u v :
  c ∈ l → tree_edge c u v → tree_edge (Sequence l) u v.
Proof.
  unfold tree_edge. rewrite edges_of_sequence. intros Hc He. left. by exists c.
Qed.

Lemma tree_edge_join S Y X o e :
  last S = Some Y → o ∈ exit_points Y → e ∈ extract_entry_nodes X →
  tree_edge (Sequence (S ++ [X])) o e.
Proof.
  intros Hlast Ho He. unfold tree_edge. rewrite edges_of_sequence. right.
  exists Y, X. split; [|done]. rewrite consecutive_pairs_snoc, Hlast.
  apply elem_of_app. right. left.
Qed.

Lemma exit_points_snoc S X : exit_points (Sequence (S ++ [X])) = exit_points X.
Proof.
  cbn [exit_points]. rewrite fmap_app.
  change (exit_points <$> [X]) with [exit_points X]. by rewrite last_snoc.
Qed.

Lemma exit_points_last S Y :
  last S = Some Y → exit_points (Sequence S) = exit_points Y.
Proof. intros Hlast. cbn [exit_points]. by rewrite fmap_last, Hlast. Qed.

Lemma tree_edge_parallel pc c u v :
  c ∈ pc → tree_edge c u v → tree_edge (Parallel pc) u v.
Proof.
  unfold tree_edge. cbn [edges_of]. rewrite list_elem_of_bind.
  intros Hc He. by exists c.
Qed.

(** The edges of a run join each node to the next one. *)
Lemma tree_edge_run path u v :
  (u, v) ∈ consecutive_pairs path → tree_edge (Sequence (Node <$> path)) u v.
Proof.
  intros Huv. unfold tree_edge. rewrite edges_of_sequence. right.
  exists (Node u), (Node v). split; [|by split; left].
  induction path as [|a [|b path] IH]; [by apply elem_of_nil in Huv..|].
  change (consecutive_pairs (a :: b :: path))
    with ((a, b) :: consecutive_pairs (b :: path)) in Huv.
  rewrite !fmap_cons.
  change (consecutive_pairs (Node a :: Node b :: (Node <$> path)))
    with ((Node a, Node b) :: consecutive_pairs (Node b :: (Node <$> path))).
  apply elem_of_cons in Huv as [[= -> ->]|Huv]; [left|right].
  rewrite <- fmap_cons. by apply IH.
Qed.

Lemma run_reaches_last a path x :
  x ∈ a :: path →
  rtc (tree_edge (Sequence (Node <$> a :: path))) x (default a (last path)).
Proof.
  revert a x. induction path as [|b path IH]; intros a x Hx.
  - apply list_elem_of_singleton in Hx as ->. done.
  - assert (∀ u v, tree_edge (Sequence (Node <$> b :: path)) u v →
              tree_edge (Sequence (Node <$> a :: b :: path)) u v) as Hsub.
    { intros u v. unfold tree_edge. rewrite !edges_of_sequence.
      intros [(c & Hc & He)|(c1 & c2 & Hc & H1 & H2)].
      - left. exists c. split; [|done]. rewrite fmap_cons. by right.
      - right. exists c1, c2. split; [|done]. rewrite !fmap_cons in *.
        change (consecutive_pairs (Node a :: Node b :: (Node <$> path)))
          with ((Node a, Node b) :: consecutive_pairs (Node b :: (Node <$> path))).
        by right. }
    assert (default a (last (b :: path)) = default b (last path)) as ->.
    { rewrite last_cons. by destruct (last path). }
    apply elem_of_cons in Hx as [->|Hx].
    + apply rtc_l with b.
      * apply tree_edge_run. left.
      * apply (rtc_subrel _ _ _ _ Hsub), IH. left.
    + by apply (rtc_subrel _ _ _ _ Hsub), IH.
Qed.

Lemma exit_points_run a path :
  exit_points (Sequence (Node <$> a :: path)) = [default a (last path)].
Proof.
  cbn [exit_points]. rewrite <- list_fmap_compose, fmap_last, last_cons.
  by destruct (last path).
Qed.

Lemma conn_leaf name : conn (Node name).
Proof.
  split; [done|]. intros x Hx. exists x. split; [done|]. done.
Qed.

Lemma conn_run a path : conn (Sequence (Node <$> a :: path)).
Proof.
  split; [done|]. intros x Hx. cbn [extract_nodes] in Hx.
  fold (leaves (Node <$> a :: path)) in Hx. rewrite leaves_of_nodes in Hx.
  exists (default a (last path)). split; [|by apply run_reaches_last].
  rewrite exit_points_run. left.
Qed.

Lemma conn_parallel pc : pc ≠ [] → Forall conn pc → conn (Parallel pc).
Proof.
  intros Hne Hall. split.
  - destruct pc as [|c pc]; [done|]. apply Forall_cons in Hall as [[Hc _] _].
    cbn [extract_entry_nodes]. rewrite bind_cons.
    destruct (extract_entry_nodes c); done.
  - intros x Hx. cbn [extract_nodes] in Hx.
    apply list_elem_of_bind in Hx as (c & Hx & Hc).
    rewrite Forall_forall in Hall. destruct (Hall c Hc) as [_ Hconn].
    destruct (Hconn x Hx) as (o & Ho & Hreach). exists o. split.
    + cbn [exit_points]. apply list_elem_of_bind. by exists c.
    + eapply rtc_subrel; [|exact Hreach]. intros u v. by apply tree_edge_parallel.
Qed.
End tree_edges.

Section ordered_items.
Import nx dot2mr mr2dot described.
Context (G : DiGraph) (Hwf : graph_wf G).

Lemma tc_mono {A} (R1 R2 : relation A) x y :
  (∀ a b, R1 a b → R2 a b) → tc R1 x y → tc R2 x y.
Proof.
  intros Hsub. induction 1 as [x y H|x y z H _ IH].
  - by apply tc_once, Hsub.
  - by apply tc_l with y; [apply Hsub|].
Qed.

Lemma leaves_snoc S X : leaves (S ++ [X]) = leaves S ++ extract_nodes X.
Proof. rewrite leaves_app. unfold leaves at 2. simpl. by rewrite app_nil_r. Qed.

Lemma leaves_last S x : x ∈ leaves S → ∃ Y, last S = Some Y.
Proof.
  destruct S as [|c S] using rev_ind; [by intros ?%elem_of_nil|].
  intros _. exists c. apply last_snoc.
Qed.

Lemma ordered_nil : ordered G [].
Proof. split; [by intros u v _ ?%elem_of_nil|by intros x ?%elem_of_nil]. Qed.

Lemma ordered_snoc L S X :
  ordered G S → conn X → covers G L X → (∀ u, u ∈ L → u ∈ leaves S) →
  ordered G (S ++ [X]).
Proof.
  intros [Hedges Hexits] [Hentry Hconn] Hcov HL.
  assert (∀ u v, tree_edge X u v → tree_edge (Sequence (S ++ [X])) u v) as HX.
  { intros u v. apply tree_edge_child, elem_of_app. right. left. }
  assert (∀ x e, x ∈ leaves S → e ∈ extract_entry_nodes X →
            tc (tree_edge (Sequence (S ++ [X]))) x e) as Hjoin.
  { intros x e Hx He. destruct (Hexits x Hx) as (o & Ho & Hreach).
    destruct (leaves_last S x Hx) as (Y & Hlast).
    rewrite (exit_points_last S Y Hlast) in Ho.
    eapply tc_rtc_l.
    - eapply rtc_subrel; [|exact Hreach]. intros a b. apply tree_edge_snoc.
    - apply tc_once. by apply (tree_edge_join S Y X). }
  split.
  - intros u v He. rewrite leaves_snoc, elem_of_app. intros [Hv|Hv].
    + eapply tc_mono; [|by apply Hedges]. intros a b. apply tree_edge_snoc.
    + destruct (Hcov u v He Hv) as [[Hv' Hu]|Huv].
      * apply Hjoin; [by apply HL|done].
      * by apply tc_once, HX.
  - intros x. rewrite leaves_snoc, elem_of_app, exit_points_snoc. intros [Hx|Hx].
    + assert (∃ e, e ∈ extract_entry_nodes X) as [e He].
      { destruct (extract_entry_nodes X) as [|e es]; [done|]. exists e. left. }
      destruct (Hconn e (entry_nodes_are_leaves X e He)) as (o & Ho & Hreach).
      exists o. split; [done|]. etrans.
      * apply tc_rtc. by apply Hjoin.
      * eapply rtc_subrel; [|exact Hreach]. exact HX.
    + destruct (Hconn x Hx) as (o & Ho & Hreach). exists o. split; [done|].
      eapply rtc_subrel; [|exact Hreach]. exact HX.
Qed.

(** The edges of [G] along a run are edges of the run. *)
Lemma chain_edges n rest :
  sequence_run G n rest →
  ∀ u v, edge G u v → v ∈ rest → (u, v) ∈ consecutive_pairs (n :: rest).
Proof.
  induction 1 as [|n b rest Hl Hrun IH]; intros u v He Hv;
    [by apply elem_of_nil in Hv|].
  change (consecutive_pairs (n :: b :: rest))
    with ((n, b) :: consecutive_pairs (b :: rest)).
  apply elem_of_cons in Hv as [->|Hv].
  - rewrite (link_unique G n b u Hl He). left.
  - right. by apply IH.
Qed.

Lemma covers_unit L n rest :
  (∀ u, edge G u n → u ∈ L) → sequence_run G n rest →
  covers G L (match rest with
              | [] => Node n
              | _ => Sequence (Node <$> n :: rest)
              end).
Proof.
  intros Hn Hrun u v He Hv. destruct rest as [|b rest].
  - apply list_elem_of_singleton in Hv as ->. left. split; [left|by apply Hn].
  - cbn [extract_nodes] in Hv. fold (leaves (Node <$> n :: b :: rest)) in Hv.
    rewrite leaves_of_nodes in Hv. apply elem_of_cons in Hv as [->|Hv].
    + left. split; [left|by apply Hn].
    + right. apply tree_edge_run. by apply (chain_edges n (b :: rest)).
Qed.

Lemma covers_leaf L n : (∀ u, edge G u n → u ∈ L) → covers G L (Node n).
Proof.
  intros Hn u v He Hv. apply list_elem_of_singleton in Hv as ->.
  left. split; [left|by apply Hn].
Qed.

Lemma covers_parallel L pc : Forall (covers G L) pc → covers G L (Parallel pc).
Proof.
  intros Hall u v He Hv. cbn [extract_nodes] in Hv.
  apply list_elem_of_bind in Hv as (c & Hv & Hc).
  rewrite Forall_forall in Hall. destruct (Hall c Hc u v He Hv) as [[Hv' Hu]|Huv].
  - left. split; [|done]. cbn [extract_entry_nodes]. apply list_elem_of_bind.
    by exists c.
  - right. by apply (tree_edge_parallel pc c).
Qed.

Lemma emit_node_appends L st st' n :
  (∀ u, edge G u n → u ∈ L) → emit_node G st n = Returned st' →
  ∃ c, st'.2 = st.2 ++ [c] ∧ conn c ∧ covers G L c.
Proof.
  intros Hn. destruct st as [processed out]. rewrite emit_node_run.
  destruct (follow _ G n) as [rest| |] eqn:Hf; cbn [mbind outcome_bind]; [|done..].
  apply (follow_sequence_run G) in Hf. intros [= <-].
  pose proof (covers_unit L n rest Hn Hf) as Hcov.
  destruct rest as [|b rest]; eexists; (split; [done|]); (split; [|done]).
  - apply conn_leaf.
  - apply (conn_run n (b :: rest)).
Qed.

Lemma emit_group_appends L st st' group :
  (∀ x u, x ∈ group.2 → edge G u x → u ∈ L) →
  emit_group G st group = Returned st' →
  ∃ cs, st'.2 = st.2 ++ cs ∧ Forall (λ c, conn c ∧ covers G L c) cs.
Proof.
  destruct group as [key ns]. cbn [snd]. intros Hns. unfold emit_group.
  assert (Forall (λ c, conn c ∧ covers G L c) (Node <$> ns)) as Hleaves.
  { apply Forall_fmap, Forall_forall. intros x Hx. split; [apply conn_leaf|].
    apply covers_leaf. intros u. by apply Hns. }
  destruct ns as [|n [|n' ns]].
  - destruct st as [processed out]. intros [= <-]. exists []. by split.
  - intros Hem. destruct (emit_node_appends L st st' n) as (c & Hc & Hok); [|done|].
    + intros u. apply Hns. left.
    + exists [c]. split; [done|]. by apply Forall_singleton.
  - destruct st as [processed out]. intros [= <-]. by eexists.
Qed.
End ordered_items.

Lemma elem_of_concat {A} (ls : list (list A)) (x : A) :
  x ∈ concat ls ↔ ∃ l, l ∈ ls ∧ x ∈ l.
Proof.
  induction ls as [|l ls IH].
  - split; [by intros ?%elem_of_nil|by intros (l & ?%elem_of_nil & _)].
  - change (concat (l :: ls)) with (l ++ concat ls). rewrite elem_of_app, IH.
    split.
    + intros [?|(l' & ? & ?)]; [exists l; split; [left|done]|].
      exists l'. split; [by right|done].
    + intros (l' & [->|?]%elem_of_cons & ?); [by left|]. right. by exists l'.
Qed.

Section ordered_layers.
Import nx dot2mr mr2dot described.
Context (G : DiGraph) (Hwf : graph_wf G).
Context (layers : list (list string)).
Context (Hgen : topological_generations G = Returned layers).
Context (Hlay : layered G [] layers).
Context (Hnd : NoDup (concat layers)).
Context (Hall : ∀ v, v ∈ nodes G ↔ v ∈ concat layers).

Lemma groups_append L gs : ∀ st st',
  (∀ g x u, g ∈ gs → x ∈ g.2 → edge G u x → u ∈ L) →
  for_each (emit_group G) gs st = Returned st' →
  ∃ cs, st'.2 = st.2 ++ cs ∧ Forall (λ c, conn c ∧ covers G L c) cs.
Proof.
  induction gs as [|g gs IH]; intros st st' Hgs.
  - intros [= <-]. exists []. by rewrite app_nil_r.
  - rewrite for_each_cons.
    destruct (emit_group G st g) as [st1| |] eqn:Hstep; cbn [mbind outcome_bind];
      [|done..].
    intros Hloop.
    destruct (emit_group_appends G L st st1 g) as (cs1 & Hcs1 & Hok1); [|done|].
    { intros x u. apply Hgs. left. }
    destruct (IH st1 st') as (cs2 & Hcs2 & Hok2); [|done|].
    { intros g' x u Hg'. apply Hgs. by right. }
    exists (cs1 ++ cs2). split; [by rewrite Hcs2, Hcs1, app_assoc|].
    by apply Forall_app.
Qed.

Lemma process_layer_ordered L z n_layers i st st' :
  (∀ u v, v ∈ L ++ z → edge G u v → u ∈ L) →
  process_layer G n_layers st (i, z) = Returned st' →
  (∀ u, u ∈ L → u ∈ leaves st.2) → ordered G st.2 → ordered G st'.2.
Proof.
  intros Hpred. destruct st as [processed structure]. unfold process_layer.
  cbn [snd]. intros Hstep HL Hord.
  remember (filter (λ node, node ∉ processed) z) as current_layer eqn:Hcur.
  assert (∀ x u, x ∈ current_layer → edge G u x → u ∈ L) as Hpreds.
  { intros x u Hx He. apply (Hpred u x); [|done]. apply elem_of_app. right.
    rewrite Hcur in Hx. by apply list_elem_of_filter in Hx as [_ ?]. }
  clear Hcur. destruct current_layer as [|node tl]; [by injection Hstep as <-|].
  destruct (decide _) as [_|_].
  - destruct (emit_node_appends G L (processed, structure) st' node)
      as (c & -> & Hconn & Hcov); [|done|].
    + intros u. apply Hpreds. left.
    + by apply (ordered_snoc G L).
  - destruct (for_each _ _ _) as [[processed' pc]| |] eqn:Hloop;
      cbn [mbind outcome_bind] in Hstep; [|done..].
    destruct (groups_append L (successor_groups G (node :: tl)) (processed, [])
                (processed', pc)) as (cs & Hcs & Hok); [|exact Hloop|].
    { intros g x u Hg Hx. apply Hpreds.
      rewrite <- (successor_groups_nodes G (node :: tl)).
      apply elem_of_concat. exists g.2. split; [|done].
      apply list_elem_of_fmap. by exists g. }
    cbn [snd app] in Hcs. subst cs.
    assert (Forall conn pc ∧ Forall (covers G L) pc) as [Hconn Hcov].
    { split; eapply Forall_impl; try exact Hok; by intros c [? ?]. }
    destruct (decide (1 < length pc)) as [Hlen|Hlen].
    + injection Hstep as <-. cbn [snd]. apply (ordered_snoc G L); [done| | |done].
      * apply conn_parallel; [|done]. intros ->. simpl in Hlen. lia.
      * by apply covers_parallel.
    + destruct pc as [|c [|??]]; injection Hstep as <-; cbn [snd].
      * done.
      * apply Forall_inv in Hconn, Hcov. by apply (ordered_snoc G L).
      * simpl in Hlen. lia.
Qed.

Lemma layers_loop_ordered n_layers ils : ∀ L st st',
  layered G L ils.*2 → NoDup (L ++ concat ils.*2) →
  (∀ u v, v ∈ L → edge G u v → u ∈ L) →
  (∀ x, x ∈ concat ils.*2 → x ∈ nodes G) →
  structured G L [] st → ordered G st.2 →
  for_each (process_layer G n_layers) ils st = Returned st' →
  structured G (L ++ concat ils.*2) [] st' ∧ ordered G st'.2.
Proof.
  induction ils as [|[i z] ils IH]; intros L st st' Hl Hn Hpc Hnodes Hst Hord.
  - intros [= <-]. simpl. by rewrite app_nil_r.
  - rewrite fmap_cons in Hl, Hn, Hnodes. cbn [snd] in Hl, Hn, Hnodes.
    change (concat (z :: ils.*2)) with (z ++ concat ils.*2) in Hn, Hnodes.
    destruct Hl as (Hzne & Hzp & Hrest). rewrite app_assoc in Hn.
    assert (∀ u v, v ∈ L ++ z → edge G u v → u ∈ L) as Hpred.
    { intros u v [Hv|Hv]%elem_of_app He; [by apply (Hpc u v)|by apply (Hzp u v)]. }
    assert (NoDup (L ++ z)) as HLz by (by apply NoDup_app in Hn as (? & _ & _)).
    assert (∀ x, x ∈ z → x ∈ nodes G) as Hz.
    { intros x Hx. apply Hnodes, elem_of_app. by left. }
    destruct (process_layer_structured G Hwf layers Hlay Hnd Hall L z Hpred HLz Hz
                n_layers i st Hst) as (st1 & Hstep & Hst1).
    rewrite for_each_cons, Hstep. cbn [mbind outcome_bind]. intros Hloop.
    assert (ordered G st1.2) as Hord1.
    { apply (process_layer_ordered L z n_layers i st st1 Hpred Hstep); [|done].
      intros u Hu. destruct Hst as (_ & H2 & H3 & _). by apply H2, H3. }
    rewrite fmap_cons. cbn [snd].
    change (concat (z :: ils.*2)) with (z ++ concat ils.*2). rewrite app_assoc.
    apply (IH (L ++ z) st1 st'); try done.
    + intros u v Hv He. apply elem_of_app. left. by apply (Hpred u v).
    + intros x Hx. apply Hnodes, elem_of_app. by right.
Qed.

Lemma tree_edge_single item u v :
  tree_edge (Sequence [item]) u v → tree_edge item u v.
Proof.
  unfold tree_edge. rewrite edges_of_sequence.
  intros [(c & ->%list_elem_of_singleton & He)|(a & b & Hab & _)]; [done|].
  by apply elem_of_nil in Hab.
Qed.

Lemma generate_component_structure_ordered t :
  generate_component_structure G = Returned (Some t) →
  ∀ u v, edge G u v → tc (tree_edge t) u v.
Proof.
  unfold generate_component_structure. rewrite Hgen.
  assert ((st ← for_each (process_layer G (length layers))
                   (imap (λ i layer, (i, layer)) layers) (∅, []);
           let '(_, structure) := st in
           match structure with
           | [item] => Returned (Some item)
           | _ => Returned (Some (Sequence structure))
           end) = Returned (Some t) →
          ∀ u v, edge G u v → tc (tree_edge t) u v) as Hmany.
  { destruct (for_each _ _ _) as [[processed structure]| |] eqn:Hloop;
      cbn [mbind outcome_bind]; [|done..].
    destruct (layers_loop_ordered (length layers)
                (imap (λ i layer, (i, layer)) layers) [] (∅, [])
                (processed, structure)) as [Hst Hord]; [| | | | | |exact Hloop|].
    - by rewrite imap_layers_id.
    - by rewrite imap_layers_id.
    - by intros u v ?%elem_of_nil.
    - rewrite imap_layers_id. intros x. apply Hall.
    - unfold structured. cbn [fst snd]. split_and!.
      + apply NoDup_nil_2.
      + intros x. split; [by intros ?%elem_of_empty|by intros ?%elem_of_nil].
      + by intros x ?%elem_of_nil.
      + by intros x p ?%elem_of_empty.
      + by intros x ?%elem_of_empty.
    - apply ordered_nil.
    - rewrite imap_layers_id in Hst. destruct Hst as (_ & H2 & H3 & _).
      destruct Hord as [Hedges _]. cbn [fst snd] in *.
      assert (∀ u v, edge G u v → tc (tree_edge (Sequence structure)) u v) as Hseq.
      { intros u v He. apply Hedges; [done|]. apply H2, H3, Hall.
        by apply (edge_ends G Hwf) in He as [_ ?]. }
      destruct structure as [|item [|item' structure]]; intros [= <-]; [done| |done].
      intros u v He. eapply tc_mono; [|by apply Hseq]. apply tree_edge_single. }
  destruct layers as [|[|n [|n' z]] [|z' ls]] eqn:Hls; try exact Hmany.
  - done.
  - intros [= <-] u v He. exfalso. destruct Hlay as (_ & Hn & _).
    assert (v ∈ [n]) as Hv.
    { apply (edge_ends G Hwf) in He as [_ Hv]. apply Hall in Hv.
      by simpl in Hv. }
    apply (Hn u v Hv) in He. by apply elem_of_nil in He.
Qed.
End ordered_layers.

Section shape_flattens.
Import mr2dot described.

Lemma forallb_impl {A} (P Q : A → bool) (l : list A) :
  (∀ x, P x = true → Q x = true) → forallb P l = true → forallb Q l = true.
Proof.
  intros HPQ. induction l as [|x l IH]; [done|]. cbn [forallb].
  rewrite !andb_true_iff. intros [? ?]. split; [by apply HPQ|by apply IH].
Qed.

Lemma is_unit_nonempty c : is_unit c = true → sequences_nonempty c = true.
Proof.
  destruct c as [name|children|children]; [done| |done]. cbn [is_unit sequences_nonempty].
  rewrite !andb_true_iff, !bool_decide_eq_true. intros [Hlen Hall]. split.
  - intros ->. simpl in Hlen. lia.
  - revert Hall. apply forallb_impl. by intros [].
Qed.

Lemma is_item_nonempty c : is_item c = true → sequences_nonempty c = true.
Proof.
  unfold is_item. rewrite orb_true_iff. intros [Hu|Hp]; [by apply is_unit_nonempty|].
  destruct c as [name|children|children]; [done..|]. cbn [sequences_nonempty].
  apply andb_true_iff in Hp as [_ Hall]. revert Hall.
  apply forallb_impl, is_unit_nonempty.
Qed.

Lemma is_structure_nonempty t :
  is_structure t = true → extract_nodes t ≠ [] → sequences_nonempty t = true.
Proof.
  unfold is_structure. rewrite orb_true_iff.
  intros [Hi|Hs] Hne; [by apply is_item_nonempty|].
  destruct t as [name|children|children]; [done| |done]. cbn [sequences_nonempty].
  apply andb_true_iff in Hs as [_ Hall]. rewrite andb_true_iff, bool_decide_eq_true.
  split; [by intros ->|]. revert Hall. apply forallb_impl, is_item_nonempty.
Qed.

Lemma flatten_described t :
  sequences_nonempty t = true →
  ∃ g, flatten t = Returned g ∧ ∀ u v, nx.edge g u v ↔ tree_edge t u v.
Proof.
  intros Hok. destruct (generate_edges_described t) as (all_edges & Hgen & Hperm).
  { by apply Is_true_true. }
  unfold flatten. rewrite Hgen. cbn [mbind outcome_bind]. eexists. split; [done|].
  intros u v. unfold nx.edge, tree_edge. cbn [nx.edges].
  by rewrite emitted_edges_first_occurrences, elem_of_first_occurrences, Hperm.
Qed.
End shape_flattens.

(** X14. No dependency is lost: for an acyclic graph with a node, the
    structure the structurer returns is accepted by the flattener, and in the
    graph written for it every edge of the input graph is a path; so a task
    that has to come before another one in the graph still comes before it in
    the structure. *)
Theorem structure_keeps_every_dependency (G : nx.DiGraph) :
  nx.graph_wf G → nx.acyclic G → nx.nodes G ≠ [] →
  ∃ t g, dot2mr.generate_component_structure G = Returned (Some t) ∧
    mr2dot.flatten t = Returned g ∧
    ∀ u v, nx.reaches G u v → nx.reaches g u v.
Proof.
  intros Hwf Hac Hne.
  destruct (acyclic_generations G Hwf Hac) as (layers & Hgen & Hlay & Hnd & Hall).
  destruct (generate_component_structure_leaves G Hwf layers Hgen Hlay Hnd Hall Hne)
    as (t & Ht & Hleaves).
  pose proof (generate_component_structure_shape G t Ht) as Hshape.
  destruct (flatten_described t) as (g & Hg & Hedges).
  { apply is_structure_nonempty; [done|]. intros Hnil. rewrite Hnil in Hleaves.
    by apply Permutation_nil_l in Hleaves. }
  exists t, g. split_and!; [done|done|].
  assert (∀ u v, nx.edge G u v → nx.reaches g u v) as Hstep.
  { intros u v He.
    eapply tc_mono;
      [|exact (generate_component_structure_ordered G Hwf layers Hgen Hlay Hnd Hall
                 t Ht u v He)].
    intros a b. apply Hedges. }
  intros u v. induction 1 as [u v He|u w v He _ IH]; [by apply Hstep|].
  etrans; [by apply Hstep|done].
Qed.

Lemma structure_keeps_every_dependency_witness :
  nx.graph_wf zigzag_graph ∧ nx.acyclic zigzag_graph ∧
  nx.nodes zigzag_graph ≠ [] ∧
  ∃ t g, dot2mr.generate_component_structure zigzag_graph = Returned (Some t) ∧
    mr2dot.flatten t = Returned g ∧
    ∀ u v, nx.reaches zigzag_graph u v → nx.reaches g u v.
Proof.
  assert (nx.graph_wf zigzag_graph) as Hwf
    by (apply (bool_decide_unpack _); vm_compute; exact I).
  assert (nx.acyclic zigzag_graph) as Hac.
  { apply (generations_acyclic zigzag_graph [["A"; "B"]; ["C"; "D"]] Hwf).
    vm_compute. reflexivity. }
  assert (nx.nodes zigzag_graph ≠ []) as Hne by done.
  split_and!; [exact Hwf|exact Hac|exact Hne|].
  apply (structure_keeps_every_dependency zigzag_graph Hwf Hac Hne).
Defined.

(** ** The recursion limit and the flattener *)

Section bounded_flattener.
Import mr2dot.

Lemma depth_pos t : (1 ≤ depth t)%nat.
Proof. destruct t; simpl; lia. Qed.

Lemma depth_cons c cs f :
  (max_list (depth <$> c :: cs) ≤ f ↔ depth c ≤ f ∧ max_list (depth <$> cs) ≤ f)%nat.
Proof. rewrite fmap_cons. cbn [max_list_with foldr]. unfold id. lia. Qed.

Lemma depth_Sequence cs f :
  (depth (Sequence cs) ≤ S f ↔ max_list (depth <$> cs) ≤ f)%nat.
Proof. simpl. lia. Qed.

Lemma depth_Parallel cs f :
  (depth (Parallel cs) ≤ S f ↔ max_list (depth <$> cs) ≤ f)%nat.
Proof. simpl. lia. Qed.

Lemma depth_child c cs f :
  c ∈ cs → (max_list (depth <$> cs) ≤ f)%nat → (depth c ≤ f)%nat.
Proof.
  intros Hc Hle. etrans; [|exact Hle].
  apply max_list_elem_of_le, list_elem_of_fmap. by exists c.
Qed.

Lemma for_each_ext {S B} (body1 body2 : S → B → outcome S) l s :
  (∀ x s, x ∈ l → body1 s x = body2 s x) →
  for_each body1 l s = for_each body2 l s.
Proof.
  revert s. induction l as [|x l IH]; intros s Hext; [done|].
  rewrite !for_each_cons, Hext by left.
  destruct (body2 s x) as [s'| |]; simpl; [|done..].
  apply IH. intros y s'' Hy. apply Hext. by right.
Qed.

(** A loop that extends a list by what a helper returns for each child. *)
Lemma extend_loop (E : tree → outcome (list string)) (X : tree → list string) f :
  (∀ c, E c = if decide (depth c ≤ f)%nat then Returned (X c)
              else Raised RecursionError) →
  ∀ cs acc,
    for_each (λ nodes child, child_nodes ← E child; Returned (nodes ++ child_nodes))
             cs acc =
    if decide (max_list (depth <$> cs) ≤ f)%nat then Returned (acc ++ cs ≫= X)
    else Raised RecursionError.
Proof.
  intros HE. induction cs as [|c cs IH]; intros acc.
  - rewrite decide_True by (simpl; lia). simpl. by rewrite app_nil_r.
  - rewrite for_each_cons, HE.
    destruct (decide (depth c ≤ f)%nat) as [Hc|Hc]; cbn [mbind outcome_bind].
    + rewrite IH. destruct (decide (max_list (depth <$> cs) ≤ f)%nat) as [Hcs|Hcs].
      * rewrite decide_True by (by apply depth_cons).
        by rewrite bind_cons, app_assoc.
      * rewrite decide_False; [done|]. rewrite depth_cons. tauto.
    + rewrite decide_False; [done|]. rewrite depth_cons. tauto.
Qed.

Lemma extend_loop_returns (E : tree → outcome (list string)) (X : tree → list string) :
  ∀ cs acc,
    (∀ c, c ∈ cs → E c = Returned (X c)) →
    for_each (λ nodes child, child_nodes ← E child; Returned (nodes ++ child_nodes))
             cs acc = Returned (acc ++ cs ≫= X).
Proof.
  induction cs as [|c cs IH]; intros acc HE.
  - simpl. by rewrite app_nil_r.
  - rewrite for_each_cons, HE by left. cbn [mbind outcome_bind].
    rewrite IH; [by rewrite bind_cons, app_assoc|].
    intros c' Hc'. apply HE. by right.
Qed.

(** [extract_nodes] goes down the whole tree: it returns the names if the
    tree has no more levels than calls may nest, and is ended otherwise. *)
Lemma extract_nodes_bounded frames : ∀ t,
  bounded.extract_nodes frames t =
  if decide (depth t ≤ frames)%nat then Returned (extract_nodes t)
  else Raised RecursionError.
Proof.
  induction frames as [|f IH]; intros t.
  - pose proof (depth_pos t). rewrite decide_False by lia. done.
  - destruct t as [name|children|children]; cbn [bounded.extract_nodes].
    + rewrite decide_True by (simpl; lia). done.
    + rewrite (extend_loop _ extract_nodes f IH).
      destruct (decide (max_list (depth <$> children) ≤ f)%nat).
      * rewrite decide_True by (by apply depth_Sequence). done.
      * rewrite decide_False; [done|]. by rewrite depth_Sequence.
    + rewrite (extend_loop _ extract_nodes f IH).
      destruct (decide (max_list (depth <$> children) ≤ f)%nat).
      * rewrite decide_True by (by apply depth_Parallel). done.
      * rewrite decide_False; [done|]. by rewrite depth_Parallel.
Qed.

Lemma extract_entry_nodes_bounded frames : ∀ t,
  (depth t ≤ frames)%nat →
  bounded.extract_entry_nodes frames t = Returned (extract_entry_nodes t).
Proof.
  induction frames as [|f IH]; intros t Ht.
  - pose proof (depth_pos t). lia.
  - destruct t as [name|children|children]; cbn [bounded.extract_entry_nodes].
    + done.
    + apply depth_Sequence in Ht. destruct children as [|c cs]; [done|].
      change (extract_entry_nodes (Sequence (c :: cs))) with (extract_entry_nodes c).
      apply IH. apply depth_cons in Ht. tauto.
    + apply depth_Parallel in Ht.
      rewrite (extend_loop_returns _ extract_entry_nodes); [done|].
      intros c Hc. apply IH. by eapply depth_child.
Qed.

Lemma generate_edges_bounded frames : ∀ t,
  (depth t ≤ frames)%nat →
  bounded.generate_edges frames t = generate_edges t.
Proof.
  induction frames as [|f IH]; intros t Ht.
  - pose proof (depth_pos t). lia.
  - destruct t as [name|children|children]; cbn [bounded.generate_edges].
    + done.
    + apply depth_Sequence in Ht.
      change (generate_edges (Sequence children))
        with (for_each (sequence_body generate_edges) children ([], None)).
      apply for_each_ext. intros c [all_edges prev] Hc.
      pose proof (depth_child c children f Hc Ht) as Hd.
      unfold bounded.sequence_body, sequence_body.
      rewrite (IH c Hd), (extract_entry_nodes_bounded f c Hd).
      destruct (generate_edges c) as [[child_edges exit_nodes]| |]; [|done..].
      cbn [mbind outcome_bind]. by destruct (truthy prev).
    + apply depth_Parallel in Ht.
      change (generate_edges (Parallel children))
        with ('(all_edges, all_exit_nodes) ←
                for_each (parallel_body generate_edges) children ([], []);
              Returned (all_edges, Some all_exit_nodes)).
      f_equal. apply for_each_ext. intros c [all_edges exits] Hc.
      unfold parallel_body. rewrite (IH c); [done|]. by eapply depth_child.
Qed.

Lemma flatten_bounded frames t :
  bounded.flatten frames t =
  if decide (depth t ≤ frames)%nat then flatten t else Raised RecursionError.
Proof.
  unfold bounded.flatten, flatten. rewrite extract_nodes_bounded.
  destruct (decide (depth t ≤ frames)%nat) as [Ht|Ht]; [|done].
  cbn [mbind outcome_bind]. by rewrite generate_edges_bounded.
Qed.

Lemma convert_to_dot_bounded frames t :
  bounded.convert_to_dot frames t =
  if decide (depth t < frames)%nat then convert_to_dot t else Raised RecursionError.
Proof.
  destruct frames as [|f]; [by rewrite decide_False by lia|].
  unfold bounded.convert_to_dot, convert_to_dot. rewrite flatten_bounded.
  destruct (decide (depth t ≤ f)%nat).
  - by rewrite decide_True by lia.
  - by rewrite decide_False by lia.
Qed.
End bounded_flattener.

(** ** The recursion limit and the parser *)

Section bounded_parser.
Import py mr2dot.

Lemma bounded_parse_unfold frames lines start_idx :
  bounded.parse (S frames) lines start_idx =
  match lines !! start_idx with
  | None => Returned (None, start_idx)
  | Some line =>
      let current_line := strip line in
      let block (block_type : list tree → tree) :=
        '(children, idx) ←
          parse_children (length lines) (bounded.parse frames lines) lines []
                         (start_idx + 1);
        let idx :=
          match lines !! idx with
          | Some line => if decide (strip line = "}") then idx + 1 else idx
          | None => idx
          end in
        Returned (Some (block_type children), idx) in
      if startswith "Sequence {" current_line
         || bool_decide (current_line = "Sequence {")
      then block Sequence
      else if startswith "Parallel {" current_line
              || bool_decide (current_line = "Parallel {")
      then block Parallel
      else Returned (Some (Node (rstrip_char (Ascii.ascii_of_nat 44) current_line)),
                     start_idx + 1)
  end.
Proof. reflexivity. Qed.

(** The loop over the lines of a block, with a [parse] that is never ended
    and with one that is ended for a child of more than [f] levels. *)
Lemma parse_children_bounded lines (prs prs' : nat → outcome (option tree * nat)) f n :
  ∀ m children idx,
    (∀ i, (idx ≤ i < length lines)%nat →
       ∃ t i', prs i = Returned (Some t, i') ∧ (i < i' ≤ length lines)%nat ∧
         prs' i = if decide (depth t ≤ f)%nat then Returned (Some t, i')
                  else Raised RecursionError) →
    (length lines - idx ≤ n)%nat → (length lines - idx ≤ m)%nat →
    ∃ added idx',
      parse_children n prs lines children idx = Returned (children ++ added, idx') ∧
      (idx ≤ idx' ≤ Nat.max idx (length lines))%nat ∧
      parse_children m prs' lines children idx =
        if decide (max_list (depth <$> added) ≤ f)%nat
        then Returned (children ++ added, idx') else Raised RecursionError.
Proof.
  induction n as [|n IH]; intros m children idx Hprs Hn Hm;
    rewrite !parse_children_unfold.
  - destruct (lines !! idx) as [line|] eqn:Hline.
    { apply lookup_lt_Some in Hline. lia. }
    exists [], idx. rewrite app_nil_r, decide_True by (simpl; lia).
    split_and!; [done|lia|lia|done].
  - destruct (lines !! idx) as [line|] eqn:Hline.
    2:{ exists [], idx. rewrite app_nil_r, decide_True by (simpl; lia).
        split_and!; [done|lia|lia|done]. }
    apply lookup_lt_Some in Hline.
    destruct (decide (strip line = "}")).
    { exists [], idx. rewrite app_nil_r, decide_True by (simpl; lia).
      split_and!; [done|lia|lia|done]. }
    destruct (decide (strip line = "},")).
    { exists [], (idx + 1)%nat. rewrite app_nil_r, decide_True by (simpl; lia).
      split_and!; [done|lia|lia|done]. }
    destruct m as [|m]; [lia|].
    destruct (Hprs idx) as (t & i' & -> & Hi' & ->); [lia|]. cbn [mbind outcome_bind].
    destruct (IH m (children ++ [t]) i') as (added & idx' & -> & Hidx' & Hb).
    { intros i Hi. apply Hprs. lia. }
    { lia. }
    { lia. }
    exists (t :: added), idx'. rewrite <- app_assoc. split; [done|]. split; [lia|].
    destruct (decide (depth t ≤ f)%nat) as [Ht|Ht]; cbn [mbind outcome_bind].
    + rewrite Hb. destruct (decide (max_list (depth <$> added) ≤ f)%nat).
      * rewrite decide_True by (by apply depth_cons). by rewrite <- app_assoc.
      * rewrite decide_False; [done|]. rewrite depth_cons. tauto.
    + rewrite decide_False; [done|]. rewrite depth_cons. tauto.
Qed.

(** [parse] returns on every list of lines; under the recursion limit it
    returns the same if the blocks it has read are nested no deeper than
    calls may nest, and is ended otherwise. *)
Lemma parse_bounded fuel : ∀ lines start_idx,
  (length lines - start_idx < fuel)%nat →
  ∃ r idx, parse fuel lines start_idx = Returned (r, idx) ∧
    (start_idx < length lines → start_idx < idx ≤ length lines ∧ is_Some r)%nat ∧
    (length lines ≤ start_idx → r = None)%nat ∧
    ∀ frames, bounded.parse frames lines start_idx =
      if decide (parse_depth r ≤ frames)%nat then Returned (r, idx)
      else Raised RecursionError.
Proof.
  induction fuel as [|fuel IH]; intros lines start_idx Hfuel; [lia|].
  rewrite parse_unfold.
  destruct (lines !! start_idx) as [line|] eqn:Hline.
  2:{ apply lookup_ge_None_1 in Hline. exists None, start_idx.
      split_and!; [done|lia|done|]. intros [|f].
      - by rewrite decide_False by (simpl; lia).
      - rewrite bounded_parse_unfold, lookup_ge_None_2 by lia.
        by rewrite decide_True by (simpl; lia). }
  pose proof (lookup_lt_Some _ _ _ Hline) as Hlt. cbv zeta.
  assert (∀ block_type : list tree → tree,
    (∀ cs, depth (block_type cs) = S (max_list (depth <$> cs))) →
    ∃ r idx,
      ('(children, idx) ←
         parse_children fuel (parse fuel lines) lines [] (start_idx + 1);
       let idx := match lines !! idx with
                  | Some line => if decide (strip line = "}") then idx + 1 else idx
                  | None => idx
                  end in
       Returned (Some (block_type children), idx)) = Returned (r, idx) ∧
      (start_idx < length lines → start_idx < idx ≤ length lines ∧ is_Some r)%nat ∧
      (length lines ≤ start_idx → r = None)%nat ∧
      ∀ f,
        ('(children, idx) ←
           parse_children (length lines) (bounded.parse f lines) lines []
                          (start_idx + 1);
         let idx := match lines !! idx with
                    | Some line => if decide (strip line = "}") then idx + 1 else idx
                    | None => idx
                    end in
         Returned (Some (block_type children), idx)) =
        if decide (parse_depth r ≤ S f)%nat then Returned (r, idx)
        else Raised RecursionError) as Hblock.
  { intros block_type Hdepth.
    assert (∀ f, ∃ added idx',
      parse_children fuel (parse fuel lines) lines [] (start_idx + 1)
        = Returned (added, idx') ∧
      (start_idx + 1 ≤ idx' ≤ length lines)%nat ∧
      parse_children (length lines) (bounded.parse f lines) lines [] (start_idx + 1) =
        if decide (max_list (depth <$> added) ≤ f)%nat
        then Returned (added, idx') else Raised RecursionError) as Hloop.
    { intros f.
      destruct (parse_children_bounded lines (parse fuel lines) (bounded.parse f lines)
                  f fuel (length lines) [] (start_idx + 1))
        as (added & idx' & Hp & Hidx' & Hb); [|lia|lia|].
      - intros i Hi. destruct (IH lines i) as (r & i' & Hr & Hsome & _ & Hbr); [lia|].
        destruct Hsome as [Hi' [t ->]]; [lia|]. exists t, i'.
        split_and!; [done|lia|lia|]. apply Hbr.
      - exists added, idx'. split_and!; [done|lia|lia|done]. }
    destruct (Hloop 0%nat) as (added & idx' & Hp & Hidx' & _).
    rewrite Hp. cbn [mbind outcome_bind]. eexists _, _. split; [done|].
    split.
    { intros _. split; [|done].
      destruct (lines !! idx') as [l|] eqn:Hl.
      - apply lookup_lt_Some in Hl. destruct (decide (strip l = "}")); lia.
      - lia. }
    split; [lia|]. intros f.
    destruct (Hloop f) as (added' & idx'' & Hp' & _ & ->).
    rewrite Hp in Hp'. injection Hp' as <- <-.
    unfold parse_depth. cbn [from_option]. rewrite Hdepth.
    destruct (decide (max_list (depth <$> added) ≤ f)%nat).
    - by rewrite decide_True by lia.
    - by rewrite decide_False by lia. }
  destruct (startswith "Sequence {" (strip line)
            || bool_decide (strip line = "Sequence {")) eqn:Hseq.
  { destruct (Hblock Sequence) as (r & idx & Hr & Hsome & Hnone & Hb); [done|].
    exists r, idx. split_and!; [done..|]. intros [|f].
    - rewrite decide_False; [done|]. destruct r as [t|]; simpl; [|lia].
      pose proof (depth_pos t). lia.
    - rewrite bounded_parse_unfold, Hline. cbv zeta. rewrite Hseq. apply Hb. }
  destruct (startswith "Parallel {" (strip line)
            || bool_decide (strip line = "Parallel {")) eqn:Hpar.
  { destruct (Hblock Parallel) as (r & idx & Hr & Hsome & Hnone & Hb); [done|].
    exists r, idx. split_and!; [done..|]. intros [|f].
    - rewrite decide_False; [done|]. destruct r as [t|]; simpl; [|lia].
      pose proof (depth_pos t). lia.
    - rewrite bounded_parse_unfold, Hline. cbv zeta. rewrite Hseq, Hpar. apply Hb. }
  eexists _, _. split; [done|]. split; [intros _; split; [lia|done]|].
  split; [lia|]. intros [|f].
  - by rewrite decide_False by (simpl; lia).
  - rewrite bounded_parse_unfold, Hline. cbv zeta. rewrite Hseq, Hpar.
    by rewrite decide_True by (simpl; lia).
Qed.

Lemma parse_custom_format_bounded text :
  ∃ r, parse_custom_format text = Returned r ∧
    (r = None ↔ kept_lines (splitlines text) = []) ∧
    ∀ frames, bounded.parse_custom_format frames text =
      if decide (parse_depth r < frames)%nat then Returned r
      else Raised RecursionError.
Proof.
  unfold parse_custom_format. fold (kept_lines (splitlines text)).
  destruct (parse_bounded (S (length (kept_lines (splitlines text))))
              (kept_lines (splitlines text)) 0)
    as (r & idx & Hp & Hsome & Hnone & Hb); [lia|].
  rewrite Hp. exists r. split; [done|]. split.
  - destruct (kept_lines (splitlines text)) as [|l ls]; cbn [length] in *.
    + split; [done|]. intros _. apply Hnone. lia.
    + split; [|done]. intros ->. destruct Hsome as [_ [? ?]]; [lia|done].
  - intros [|f]; [by rewrite decide_False by lia|].
    unfold bounded.parse_custom_format. fold (kept_lines (splitlines text)).
    rewrite Hb. destruct (decide (parse_depth r ≤ f)%nat).
    + by rewrite decide_True by lia.
    + by rewrite decide_False by lia.
Qed.
End bounded_parser.

(** ** [main]: the components and their structures *)

Section components.
Import nx dot2mr.
Context (G : DiGraph).

Lemma bfs_fold_seen (ws : list string) : ∀ (seen : gset string) (nextlevel : list string),
  seen ⊆ (foldl (λ '(seen, nextlevel) w,
                   if decide (w ∈ seen) then (seen, nextlevel)
                   else ({[w]} ∪ seen, nextlevel ++ [w]))
                (seen, nextlevel) ws).1.
Proof.
  induction ws as [|w ws IH]; intros seen nextlevel; [done|]. cbn [foldl].
  destruct (decide (w ∈ seen)); [apply IH|].
  etrans; [|apply IH]. set_solver.
Qed.

Lemma bfs_level_seen seen thislevel : seen ⊆ (bfs_level G seen thislevel).1.
Proof. apply bfs_fold_seen. Qed.

Lemma plain_bfs_seen fuel : ∀ seen nextlevel, seen ⊆ plain_bfs fuel G seen nextlevel.
Proof.
  induction fuel as [|fuel IH]; intros seen nextlevel.
  - by destruct nextlevel.
  - destruct nextlevel as [|w ws]; [done|]. cbn [plain_bfs].
    pose proof (bfs_level_seen seen (w :: ws)) as Hl.
    destruct (bfs_level G seen (w :: ws)) as [seen' nextlevel'].
    etrans; [exact Hl|apply IH].
Qed.

(** Every component holds a node of the graph, and a graph with a node has a
    component. *)
Lemma components_loop (l : list string) : ∀ seen comps,
  (∀ v, v ∈ l → v ∈ nodes G) →
  Forall (λ c : gset string, ∃ v, v ∈ nodes G ∧ v ∈ c) comps →
  let r := foldl (λ '(seen, comps) v,
                    if decide (v ∈ seen) then (seen, comps)
                    else let c := plain_bfs (length (nodes G)) G {[v]} [v] in
                         (seen ∪ c, comps ++ [c]))
                 (seen, comps) l in
  Forall (λ c : gset string, ∃ v, v ∈ nodes G ∧ v ∈ c) r.2 ∧
  (length comps ≤ length r.2)%nat ∧
  (∀ v, head l = Some v → v ∉ seen → (length comps < length r.2)%nat).
Proof.
  induction l as [|v l IH]; intros seen comps Hl Hcomps; [done|]. cbn [foldl].
  destruct (decide (v ∈ seen)).
  - destruct (IH seen comps) as (Hall & Hlen & _); [|done|].
    { intros w Hw. apply Hl. by right. }
    split_and!; [done..|]. intros ? [= <-]. done.
  - destruct (IH (seen ∪ plain_bfs (length (nodes G)) G {[v]} [v])
                (comps ++ [plain_bfs (length (nodes G)) G {[v]} [v]]))
      as (Hall & Hlen & _).
    + intros w Hw. apply Hl. by right.
    + apply Forall_app. split; [done|]. apply Forall_singleton. exists v. split.
      * apply Hl. by left.
      * apply (plain_bfs_seen _ {[v]} [v]). set_solver.
    + rewrite length_app in Hlen. simpl in Hlen. split_and!; [done|lia|].
      intros _ _ _. lia.
Qed.

Lemma weakly_connected_components_nonempty :
  Forall (λ c : gset string, ∃ v, v ∈ nodes G ∧ v ∈ c) (weakly_connected_components G) ∧
  (nodes G ≠ [] → weakly_connected_components G ≠ []).
Proof.
  unfold weakly_connected_components.
  pose proof (components_loop (nodes G) ∅ []) as Hloop. cbv zeta in Hloop |- *.
  destruct Hloop as (Hall & _ & Hlen); [done|done|].
  split; [done|]. intros Hne Hnil.
  assert (∃ v, head (nodes G) = Some v) as [v Hv]
    by (destruct (nodes G); [done|by eexists]).
  specialize (Hlen v Hv). rewrite Hnil in Hlen. simpl in Hlen.
  assert (v ∉ (∅ : gset string)) as Hin by set_solver. specialize (Hlen Hin). lia.
Qed.

Lemma subgraph_edge c u v : edge (subgraph G c) u v → edge G u v.
Proof. unfold edge, subgraph. cbn [edges]. rewrite list_elem_of_filter. tauto. Qed.

Lemma subgraph_wf c : graph_wf G → graph_wf (subgraph G c).
Proof.
  intros (Hn & He & Hends). unfold graph_wf, subgraph. cbn [nodes edges].
  split_and!; [by apply NoDup_filter|by apply NoDup_filter|].
  apply Forall_forall. intros e [[He1 He2] Hin]%list_elem_of_filter.
  rewrite Forall_forall in Hends. destruct (Hends e Hin) as [H1 H2].
  split; apply list_elem_of_filter; tauto.
Qed.

Lemma subgraph_acyclic c : acyclic G → acyclic (subgraph G c).
Proof.
  intros Hac v Hv. apply (Hac v). revert Hv. apply tc_mono, subgraph_edge.
Qed.

Lemma subgraph_nodes c v : v ∈ nodes G → v ∈ c → nodes (subgraph G c) ≠ [].
Proof.
  intros Hv Hc Hnil.
  assert (v ∈ nodes (subgraph G c)) as Hin by (by apply list_elem_of_filter).
  rewrite Hnil in Hin. by apply elem_of_nil in Hin.
Qed.

Lemma structures_loop (comps : list (gset string)) :
  Forall (λ c, ∃ t, generate_component_structure (subgraph G c) = Returned (Some t))
         comps →
  ∀ acc, ∃ ts,
    for_each (λ component_structures component,
                component_struct ← generate_component_structure (subgraph G component);
                Returned (component_structures ++ [component_struct]))
             comps acc = Returned (acc ++ (Some <$> ts)) ∧
    length ts = length comps.
Proof.
  induction 1 as [|c comps (t & Ht) _ IH]; intros acc.
  - exists []. by rewrite app_nil_r.
  - rewrite for_each_cons. cbn beta. rewrite Ht. cbn [mbind outcome_bind].
    destruct (IH (acc ++ [Some t])) as (ts & -> & Hlen).
    exists (t :: ts). rewrite <- app_assoc. split; [done|]. simpl. by rewrite Hlen.
Qed.

(** [main] prints a structure for every acyclic graph that has a node. *)
Lemma main_returns :
  graph_wf G → acyclic G → nodes G ≠ [] → ∃ t, main G = Returned (Some t).
Proof.
  intros Hwf Hac Hne.
  destruct weakly_connected_components_nonempty as [Hall Hcomps].
  specialize (Hcomps Hne). unfold main. cbv zeta.
  destruct (structures_loop (weakly_connected_components G)) with (acc := @nil (option tree))
    as (ts & -> & Hlen).
  { eapply Forall_impl; [exact Hall|]. intros c (v & Hv & Hc). simpl.
    destruct (generate_component_structure_cases (subgraph G c) (subgraph_wf c Hwf))
      as [(_ & Hnil & _)|[(_ & _ & t & Ht & _)|((w & Hw) & _)]].
    - by apply (subgraph_nodes c v) in Hnil.
    - by exists t.
    - by apply (subgraph_acyclic c Hac) in Hw. }
  cbn [mbind outcome_bind app].
  destruct ts as [|t [|t' ts]].
  - destruct (weakly_connected_components G); [done|simpl in Hlen; lia].
  - by exists t.
  - exists (Parallel (t :: t' :: ts)).
    change (Some t :: Some t' :: (Some <$> ts)) with (Some <$> (t :: t' :: ts)).
    by rewrite (mapM_fmap_Some id Some (t :: t' :: ts)).
Qed.
End components.

(** ** The lines of the DOT text *)

Lemma written_lines {A} (line : A → string) (l : list A) : ∀ dot_content,
  foldl (λ acc x, acc +:+ line x) dot_content l =
  dot_content +:+ py.join "" (line <$> l).
Proof.
  induction l as [|x l IH]; intros dot_content.
  - simpl. by rewrite string_app_nil_r.
  - cbn [foldl]. rewrite IH, fmap_cons, <- string_app_assoc. f_equal.
    destruct l as [|y l]; [by rewrite string_app_nil_r|done].
Qed.

(** ** Results under the recursion limit *)

(** C3, as the code has it. The flattener has no validation step: a tree
    whose Sequences have a child, and which has no more levels than the
    interpreter lets the helpers nest, is flattened to a graph and written as
    a DOT text even when a Parallel is empty or a task name is repeated, and a
    repeated name becomes a single node. *)
Theorem flatten_accepts_unvalidated_trees (frames : nat) (t : tree) :
  sequences_nonempty t → (depth t ≤ frames)%nat →
  ∃ g dot, bounded.flatten frames t = Returned g ∧
       bounded.convert_to_dot (S frames) t = Returned dot ∧
       NoDup (nx.nodes g) ∧
       ∀ n, n ∈ nx.nodes g ↔ n ∈ mr2dot.extract_nodes t.
Proof.
  intros Ht Hd. destruct (generate_edges_described t Ht) as (all_edges & Hgen & _).
  assert (∃ g, mr2dot.flatten t = Returned g ∧ NoDup (nx.nodes g) ∧
               ∀ n, n ∈ nx.nodes g ↔ n ∈ mr2dot.extract_nodes t) as (g & Hg & Hnd & Hn).
  { unfold mr2dot.flatten. rewrite Hgen. eexists. split; [done|]. simpl. split.
    - apply emitted_nodes_NoDup.
    - intros n. apply elem_of_emitted_nodes. }
  exists g. eexists. split_and!; [| |done|done].
  - by rewrite flatten_bounded, decide_True.
  - rewrite convert_to_dot_bounded, decide_True by lia.
    unfold mr2dot.convert_to_dot. rewrite Hg. done.
Qed.

Lemma flatten_accepts_unvalidated_trees_witness :
  sequences_nonempty (Parallel [Node "A"; Parallel []; Node "A"]) ∧
  (depth (Parallel [Node "A"; Parallel []; Node "A"]) ≤ 2)%nat ∧
  ∃ g dot,
    bounded.flatten 2 (Parallel [Node "A"; Parallel []; Node "A"]) = Returned g ∧
    bounded.convert_to_dot 3 (Parallel [Node "A"; Parallel []; Node "A"])
      = Returned dot ∧
    NoDup (nx.nodes g) ∧
    ∀ n, n ∈ nx.nodes g ↔
         n ∈ mr2dot.extract_nodes (Parallel [Node "A"; Parallel []; Node "A"]).
Proof.
  assert (depth (Parallel [Node "A"; Parallel []; Node "A"]) ≤ 2)%nat as Hd
    by (vm_compute; lia).
  split_and!; [exact I|exact Hd|].
  apply (flatten_accepts_unvalidated_trees 2
           (Parallel [Node "A"; Parallel []; Node "A"]) I Hd).
Defined.

(** X4. The flattener fails in two ways only.  It is ended by a
    RecursionError exactly when the tree has as many levels as the interpreter
    lets calls nest, or more.  Otherwise it fails exactly on the trees in
    which some Parallel has a child whose exit nodes are None (a Sequence
    without children, or one whose last child is such a Sequence): extending
    the exit nodes by None is a TypeError.  Every other tree is converted. *)
Theorem convert_to_dot_fails_exactly_on_missing_exits (frames : nat) (t : tree) :
  if decide (frames ≤ depth t)%nat
  then bounded.convert_to_dot frames t = Raised RecursionError
  else if extend_fails t
       then bounded.convert_to_dot frames t = Raised TypeError
       else ∃ dot, bounded.convert_to_dot frames t = Returned dot.
Proof.
  rewrite convert_to_dot_bounded.
  destruct (decide (frames ≤ depth t)%nat); [by rewrite decide_False by lia|].
  rewrite decide_True by lia.
  pose proof (flatten_outcome t) as Hf. unfold mr2dot.convert_to_dot.
  destruct (extend_fails t).
  - by rewrite Hf.
  - destruct Hf as (g & ->). by eexists.
Qed.

(** X5. For a tree the flattener accepts, the text of [convert_to_dot] is the
    opening line, a line for every node and a line for every edge of a well
    formed graph, and the closing line: the nodes are the names of the tree,
    each once, and the edges are distinct pairs of these nodes. *)
Theorem flatten_writes_a_well_formed_graph (t : tree) :
  extend_fails t = false →
  ∃ g, mr2dot.flatten t = Returned g ∧ nx.graph_wf g ∧
    (∀ n, n ∈ nx.nodes g ↔ n ∈ mr2dot.extract_nodes t) ∧
    mr2dot.convert_to_dot t =
      Returned ("digraph ExecutionGraph {" +:+ mr2dot.nl +:+
                py.join "" (mr2dot.node_line <$> nx.nodes g) +:+
                py.join "" (mr2dot.edge_line <$> nx.edges g) +:+
                "}" +:+ mr2dot.nl).
Proof.
  intros Hok. pose proof (flatten_outcome t) as Hf. rewrite Hok in Hf.
  destruct Hf as (g & Hg). exists g.
  split_and!; [done|by apply (flatten_graph_wf t)| |].
  - unfold mr2dot.flatten in Hg.
    destruct (mr2dot.generate_edges t) as [[all_edges exits]| |]; [|done..].
    injection Hg as <-. intros n. apply elem_of_emitted_nodes.
  - unfold mr2dot.convert_to_dot. rewrite Hg. cbn [mbind outcome_bind].
    rewrite !written_lines. f_equal. by rewrite <- !string_app_assoc.
Qed.

Lemma flatten_writes_a_well_formed_graph_witness :
  extend_fails diamond_tree = false ∧
  ∃ g, mr2dot.flatten diamond_tree = Returned g ∧ nx.graph_wf g ∧
    (∀ n, n ∈ nx.nodes g ↔ n ∈ mr2dot.extract_nodes diamond_tree) ∧
    mr2dot.convert_to_dot diamond_tree =
      Returned ("digraph ExecutionGraph {" +:+ mr2dot.nl +:+
                py.join "" (mr2dot.node_line <$> nx.nodes g) +:+
                py.join "" (mr2dot.edge_line <$> nx.edges g) +:+
                "}" +:+ mr2dot.nl).
Proof.
  split; [reflexivity|].
  apply (flatten_writes_a_well_formed_graph diamond_tree). reflexivity.
Defined.

(** X12. The parser never loops and fails in one way only.  Every text stands
    for a result, which is [None] exactly if no line of the text has a
    character that is not white space, and a tree otherwise; [parse_custom_format]
    returns it if the interpreter lets calls nest deeper than the blocks of
    the tree are nested, and is ended by a RecursionError otherwise. *)
Theorem parse_custom_format_returns_unless_too_deep (text : string) :
  ∃ r, (r = None ↔ kept_lines (py.splitlines text) = []) ∧
    ∀ frames, bounded.parse_custom_format frames text =
      if decide (parse_depth r < frames)%nat then Returned r
      else Raised RecursionError.
Proof.
  destruct (parse_custom_format_bounded text) as (r & _ & Hnone & Hb).
  by exists r.
Qed.

(** C10. The structure that [main] prints never has a Sequence or Parallel
    with exactly one child; a graph of one task without edges yields the bare
    Leaf; and for every acyclic graph with a task [main] does print such a
    structure. *)
Theorem structure_has_no_singleton_wrapper (G : nx.DiGraph) (n : string) :
  (∀ t, dot2mr.main G = Returned (Some t) → no_singleton_wrapper t) ∧
  dot2mr.main {| nx.nodes := [n]; nx.edges := [] |} = Returned (Some (Node n)) ∧
  (nx.graph_wf G → nx.acyclic G → nx.nodes G ≠ [] →
     ∃ t, dot2mr.main G = Returned (Some t) ∧ no_singleton_wrapper t).
Proof.
  split_and!.
  - intros t. apply main_no_singleton.
  - apply main_single_node.
  - intros Hwf Hac Hne. destruct (main_returns G Hwf Hac Hne) as (t & Ht).
    exists t. split; [done|]. by apply (main_no_singleton G).
Qed.

Lemma structure_has_no_singleton_wrapper_witness :
  nx.graph_wf diamond_graph ∧ nx.acyclic diamond_graph ∧
  nx.nodes diamond_graph ≠ [] ∧
  dot2mr.main diamond_graph = Returned (Some diamond_tree) ∧
  no_singleton_wrapper diamond_tree ∧
  dot2mr.main {| nx.nodes := ["A"]; nx.edges := [] |} = Returned (Some (Node "A")) ∧
  ∃ t, dot2mr.main diamond_graph = Returned (Some t) ∧ no_singleton_wrapper t.
Proof.
  assert (nx.graph_wf diamond_graph) as Hwf
    by (apply (bool_decide_unpack _); vm_compute; exact I).
  assert (nx.acyclic diamond_graph) as Hac.
  { apply (generations_acyclic diamond_graph [["A"]; ["B"; "C"]; ["D"]] Hwf).
    vm_compute. reflexivity. }
  assert (nx.nodes diamond_graph ≠ []) as Hne by done.
  assert (dot2mr.main diamond_graph = Returned (Some diamond_tree)) as Hmain
    by (vm_compute; reflexivity).
  destruct (structure_has_no_singleton_wrapper diamond_graph "A")
    as (Hno & Hone & Htotal).
  split_and!; [exact Hwf|exact Hac|exact Hne|exact Hmain|exact (Hno _ Hmain)|exact Hone|].
  exact (Htotal Hwf Hac Hne).
Defined.
